(** * pipelines-tools: the [run] sub tool

    A shallow embedding of [pipelines/internal/commands/run/run.go] and the
    properties of its parser, directory merger, localization planner, request
    assembler and retry loop.

    Go strings are byte strings: they are modelled as [string] (a list of
    8-bit [ascii] values).  Go maps are [gmap]s; ranging over a Go map visits
    its entries in an unspecified order, which is modelled by an explicit
    iteration order that is a permutation of the entries. *)

From Stdlib Require Import ZArith Ascii Lia.
From stdpp Require Import gmap strings list fin_maps sorting pretty.
From Equations Require Import Equations.

Local Open Scope Z_scope.

(** ** The parts of the Go standard library that [run.go] calls *)

(** Package [strings], on byte strings. *)
Module strings.

Fixpoint HasPrefix (s p : string) {struct p} : bool :=
  match p, s with
  | EmptyString, _ => true
  | String b p', String a s' => if decide (a = b) then HasPrefix s' p' else false
  | String _ _, EmptyString => false
  end.

Definition HasSuffix (s p : string) : bool :=
  HasPrefix (String.rev s) (String.rev p).

(** The slices [s[n:]] and [s[:n]], for [n] up to the length of [s]. *)
Fixpoint drop (n : nat) (s : string) : string :=
  match n, s with
  | O, _ => s
  | S n', String _ s' => drop n' s'
  | S _, EmptyString => EmptyString
  end.

Fixpoint take (n : nat) (s : string) : string :=
  match n, s with
  | O, _ => EmptyString
  | S n', String a s' => String a (take n' s')
  | S _, EmptyString => EmptyString
  end.

(** [TrimPrefix s p] is [s] without the leading [p], or [s] itself. *)
Definition TrimPrefix (s p : string) : string :=
  if HasPrefix s p then drop (String.length p) s else s.

(** [Index s c] for a one-byte separator [c]: the offset of its first
    occurrence, or -1. *)
Fixpoint IndexByte (s : string) (c : ascii) : Z :=
  match s with
  | EmptyString => -1
  | String a s' =>
      if decide (a = c) then 0
      else let i := IndexByte s' c in if decide (i < 0) then -1 else i + 1
  end.

(** [Split s sep] for a one-byte separator: always at least one piece. *)
Fixpoint Split (s : string) (sep : ascii) : list string :=
  match s with
  | EmptyString => [EmptyString]
  | String a s' =>
      if decide (a = sep) then EmptyString :: Split s' sep
      else match Split s' sep with
           | piece :: rest => String a piece :: rest
           | [] => [String a EmptyString]
           end
  end.

Fixpoint Join (elems : list string) (sep : string) : string :=
  match elems with
  | [] => EmptyString
  | [e] => e
  | e :: rest => e +:+ sep +:+ Join rest sep
  end.

(** The width in bytes of the white space rune (as [unicode.IsSpace] has
    it) that starts [s], or 0 when [s] does not start with one.  The
    one-byte runes are TAB, LF, VT, FF, CR and SPACE; the others are the
    UTF-8 encodings of U+0085, U+00A0, U+1680, U+2000 to U+200A, U+2028,
    U+2029, U+202F, U+205F and U+3000. *)
Definition spaceWidth (s : string) : nat :=
  match s with
  | EmptyString => 0
  | String a s1 =>
      if Ascii.is_space a then 1
      else
        match nat_of_ascii a, s1 with
        | 194%nat, String b _ =>
            if decide (nat_of_ascii b = 133%nat ∨ nat_of_ascii b = 160%nat)
            then 2 else 0
        | 225%nat, String b (String c _) =>
            if decide (nat_of_ascii b = 154%nat ∧ nat_of_ascii c = 128%nat)
            then 3 else 0
        | 226%nat, String b (String c _) =>
            let b := nat_of_ascii b in
            let c := nat_of_ascii c in
            if decide (b = 128%nat ∧
                       ((128 ≤ c ∧ c ≤ 138) ∨ c = 168 ∨ c = 169 ∨ c = 175)%nat)
            then 3
            else if decide (b = 129%nat ∧ c = 159%nat) then 3 else 0
        | 227%nat, String b (String c _) =>
            if decide (nat_of_ascii b = 128%nat ∧ nat_of_ascii c = 128%nat)
            then 3 else 0
        | _, _ => 0
        end
  end%nat.

(** [Fields s]: the maximal runs of bytes of [s] that hold no white space.
    [skip] counts the bytes still to drop of a multi-byte white space rune,
    [cur] is the field being read, reversed. *)
Fixpoint Fields_go (skip : nat) (cur : option string) (s : string)
  : list string :=
  match s with
  | EmptyString => option_list (String.rev <$> cur)
  | String a s' =>
      match skip with
      | S k => Fields_go k cur s'
      | O =>
          match spaceWidth s with
          | O => Fields_go O (Some (String a (default EmptyString cur))) s'
          | S k => option_list (String.rev <$> cur) ++ Fields_go k None s'
          end
      end
  end.

Definition Fields (s : string) : list string := Fields_go 0 None s.

(** [TrimSpace s]: [s] without its leading and trailing white space. *)
Fixpoint TrimLeftSpace_go (skip : nat) (s : string) : string :=
  match s with
  | EmptyString => EmptyString
  | String _ s' =>
      match skip with
      | S k => TrimLeftSpace_go k s'
      | O => match spaceWidth s with
             | O => s
             | S k => TrimLeftSpace_go k s'
             end
      end
  end.

(** The length of the longest prefix of [s] that does not end in white
    space; [pos] is the offset of [s] in the whole string. *)
Fixpoint lastNonSpace_go (skip pos keep : nat) (s : string) : nat :=
  match s with
  | EmptyString => keep
  | String _ s' =>
      match skip with
      | S k => lastNonSpace_go k (S pos) keep s'
      | O => match spaceWidth s with
             | O => lastNonSpace_go O (S pos) (S pos) s'
             | S k => lastNonSpace_go k (S pos) keep s'
             end
      end
  end.

Definition TrimSpace (s : string) : string :=
  let t := TrimLeftSpace_go 0 s in
  take (lastNonSpace_go 0 0 0 t) t.

(** [TrimRight s cutset] for a one-byte cutset. *)
Fixpoint TrimLeftByte (s : string) (c : ascii) : string :=
  match s with
  | String a s' => if decide (a = c) then TrimLeftByte s' c else s
  | EmptyString => EmptyString
  end.

Definition TrimRight (s : string) (c : ascii) : string :=
  String.rev (TrimLeftByte (String.rev s) c).

(** [ToUpper s]: a string of ASCII bytes only is mapped byte by byte, as
    in the source of [strings.ToUpper]; any other string goes through the
    Unicode tables, which are left to [unicode], a parameter. *)
Definition upperByte (a : ascii) : ascii :=
  let n := nat_of_ascii a in
  if decide (97 ≤ n ∧ n ≤ 122)%nat then ascii_of_nat (n - 32) else a.

Fixpoint isASCII (s : string) : bool :=
  match s with
  | EmptyString => true
  | String a s' => bool_decide (nat_of_ascii a < 128)%nat && isASCII s'
  end.

Fixpoint upperBytes (s : string) : string :=
  match s with
  | EmptyString => EmptyString
  | String a s' => String (upperByte a) (upperBytes s')
  end.

Definition ToUpper (unicode : string → string) (s : string) : string :=
  if isASCII s then upperBytes s else unicode s.

End strings.

(** Package [sort]: [sort.Strings] orders byte-wise; equal strings are
    indistinguishable, so any sorting function is the same function. *)
Module sort.
Definition Strings (l : list string) : list string := merge_sort String.le l.
End sort.

(** Package [strconv]: [ParseInt s 10 64]. *)
Module strconv.

Inductive ErrKind := ErrSyntax | ErrRange.

(** [*strconv.NumError]: the failing function, the text it was given and
    the kind of failure. *)
Record NumError := { Func : string; Num : string; Err : ErrKind }.

Definition maxUint64 : Z := 2 ^ 64 - 1.

(** The digit loop of [ParseUint] in base 10: [n] is the value read so
    far. *)
Fixpoint ParseUint_go (n : Z) (s : string) : ErrKind + Z :=
  match s with
  | EmptyString => inr n
  | String c s' =>
      match Ascii.is_nat c with
      | None => inl ErrSyntax
      | Some d =>
          if decide (maxUint64 / 10 + 1 ≤ n) then inl ErrRange
          else
            let n1 := n * 10 + Z.of_nat d in
            if decide (maxUint64 < n1) then inl ErrRange
            else ParseUint_go n1 s'
      end
  end.

Definition ParseUint (s : string) : ErrKind + Z :=
  match s with
  | EmptyString => inl ErrSyntax
  | _ => ParseUint_go 0 s
  end.

Definition ParseInt (s0 : string) : NumError + Z :=
  let fail k := inl {| Func := "ParseInt"; Num := s0; Err := k |} in
  match s0 with
  | EmptyString => fail ErrSyntax
  | String c rest =>
      let neg := bool_decide (c = "-"%char) in
      let s := if decide (c = "+"%char ∨ c = "-"%char) then rest else s0 in
      match ParseUint s with
      | inl ErrSyntax => fail ErrSyntax
      | inl ErrRange => fail ErrRange
      | inr un =>
          let cutoff := 2 ^ 63 in
          if negb neg && bool_decide (cutoff ≤ un) then fail ErrRange
          else if neg && bool_decide (cutoff < un) then fail ErrRange
          else inr (if neg then - un else un)
      end
  end.

End strconv.

(** Package [path]: lexical path cleaning, as documented for [path.Clean]
    (multiple slashes collapse, [.] elements go, an inner [..] removes the
    element before it, a [..] at the root goes, the empty result is [.]). *)
Module path.

(** One path element pushed on the stack of elements kept so far (the last
    one first). *)
Definition push (rooted : bool) (stack : list string) (e : string)
  : list string :=
  if decide (e = EmptyString ∨ e = ".") then stack
  else if decide (e = "..") then
    match stack with
    | top :: rest => if decide (top = "..") then e :: stack else rest
    | [] => if rooted then [] else [e]
    end
  else e :: stack.

Definition Clean (p : string) : string :=
  let rooted := strings.HasPrefix p "/" in
  let kept := reverse (foldl (push rooted) [] (strings.Split p "/")) in
  let body := strings.Join kept "/" in
  if rooted then "/" +:+ body
  else if decide (body = EmptyString) then "." else body.

Fixpoint dropEmpty (elem : list string) : list string :=
  match elem with
  | e :: rest => if decide (e = EmptyString) then dropEmpty rest else elem
  | [] => []
  end.

Definition Join (elem : list string) : string :=
  match dropEmpty elem with
  | [] => EmptyString
  | rest => Clean (strings.Join rest "/")
  end.

(** [Dir p]: [p] up to and including its last slash, cleaned. *)
Fixpoint dirPart (p : string) : string :=
  match p with
  | EmptyString => EmptyString
  | String a p' =>
      if decide (0 ≤ strings.IndexByte p "/") then String a (dirPart p')
      else EmptyString
  end.

Definition Dir (p : string) : string := Clean (dirPart p).

End path.

(** ** The request types of the Pipelines API that [run.go] fills in

    Only the fields that [run.go] reads or writes are kept; a zero value is
    the empty string, the empty list, the empty map, [0] or [false]. *)
Module genomics.

Module Mount.
Record t := { Disk : string; Path : string }.
End Mount.

Module Action.
Record t := {
  ImageUri : string;
  Commands : list string;
  Entrypoint : string;
  Flags : list string;
  Mounts : list Mount.t;
  PortMappings : gmap string Z;
  Timeout : string;
  PidNamespace : string
}.
End Action.

Module Disk.
Record t := {
  Name : string;
  Type_ : string;
  SizeGb : Z;
  SourceImage : string
}.
End Disk.

Module Accelerator.
Record t := { Type_ : string; Count : Z }.
End Accelerator.

Module Network.
Record t := {
  UsePrivateAddress : bool;
  Name : string;
  Subnetwork : string
}.
End Network.

Module ServiceAccount.
Record t := { Email : string; Scopes : list string }.
End ServiceAccount.

Module VirtualMachine.
Record t := {
  MachineType : string;
  Network : Network.t;
  ServiceAccount : ServiceAccount.t;
  Labels : gmap string string;
  BootImage : string;
  Accelerators : list Accelerator.t;
  Disks : list Disk.t;
  BootDiskSizeGb : Z;
  Preemptible : bool
}.
End VirtualMachine.

Module Resources.
Record t := {
  ProjectId : string;
  VirtualMachine : VirtualMachine.t;
  Regions : list string;
  Zones : list string
}.
End Resources.

Module Pipeline.
Record t := {
  Resources : Resources.t;
  Environment : gmap string string;
  Actions : list Action.t;
  Timeout : string
}.
End Pipeline.

Module RunPipelineRequest.
Record t := { Pipeline : Pipeline.t; Labels : gmap string string }.
End RunPipelineRequest.

End genomics.

Import genomics.

(** ** [run.go] *)
Module run.

(** The command line flags of the tool (the package-level [flags.*]
    variables) and the three flag maps.  [attempts] and [pvmAttempts] are
    Go [uint]s, [timeout] and [outputInterval] are durations in
    nanoseconds. *)
Record Flags := {
  name : string;
  scopes : string;
  zones : string;
  regions : string;
  output : string;
  dryRun : bool;
  wait : bool;
  machineType : string;
  inputs : string;
  outputs : string;
  diskSizeGb : Z;
  diskType : string;
  diskImage : string;
  bootDiskSizeGb : Z;
  privateAddress : bool;
  cloudSDKImage : string;
  timeout : Z;
  defaultImage : string;
  attempts : Z;
  pvmAttempts : Z;
  gpus : Z;
  gpuType : string;
  command : string;
  fuse : bool;
  ssh : bool;
  network : string;
  subnetwork : string;
  sharePIDs : bool;
  cosChannel : string;
  serviceAccount : string;
  outputInterval : Z;
  environment : gmap string string;
  labels : gmap string string;
  vmLabels : gmap string string
}.

Definition googleRoot : Mount.t :=
  {| Mount.Disk := "google"; Mount.Path := "/mnt/google" |}.

Definition isCloudCommand (command : string) : bool :=
  bool_decide (command = "gsutil" ∨ command = "gcloud").

(** Go errors, with the values that their messages print. *)
Inductive error :=
| ErrInvalidPortMapping (pair : string)
    (** [invalid port mapping %q] *)
| ErrParsingHostPort (e : strconv.NumError)
    (** [parsing host port: %v] *)
| ErrParsingPorts (e : error)
    (** [parsing ports: %v] *)
| ErrParsingActionTimeout (msg : string)
    (** [parsing action timeout: %v] *)
| ErrLine (line : Z) (e : error)
    (** [line %d: %v] *)
| ErrOpeningScript (msg : string)
| ErrReadingScript (msg : string)
| ErrReadingInputFile (msg : string)
| ErrProcessing (input : string) (e : error)
    (** [processing %q: %v] *)
| ErrCreatingPipelineFromFile (e : error)
| ErrCreatingActionFromCommand (e : error)
| ErrNoCommandOrInputFile
| ErrBothZonesAndRegions
| ErrExpandingRegions (e : error)
| ErrExpandingZones (e : error)
| ErrCreatingComputeClient (msg : string)
| ErrCreatingComputeService (msg : string)
| ErrListing (msg : string)
| ErrStartingPipelineApi (message body : string)
    (** [starting pipeline: %q: %q] *)
| ErrStartingPipeline (msg : string)
| ErrOperationFailed (operation : string) (msg : string)
    (** [operation %q failed: %v] *)
| ErrOnlyASingleInputFile
| ErrBuildingRequest (e : error)
| PanicNilDereference
    (** not an error value: the run time panic of reading a field through
        a nil [*genomics.Action] *).

(** A script as [bufio.Scanner] delivers it: its lines, and the error
    that [scanner.Err] reports after the last of them, if any. *)
Record Script := { lines : list string; scanErr : option string }.

(** What the submission call can fail with. *)
Inductive RunError :=
| GoogleApiError (message body text : string)
| OtherRunError (text : string).

(** What [watch.Invoke] can fail with: a [common.PipelineExecutionError],
    with what its [IsRetriable] answers, or any other error. *)
Inductive WatchError :=
| PipelineExecutionError (retriable : bool) (msg : string)
| OtherWatchError (msg : string).

(** The collaborators outside this file: the file system, the JSON
    decoder, the library functions that are not modelled above, and the
    remote services.  Remote calls are indexed by the attempt they belong
    to. *)
Record World := {
  (** the width of Go's [uint] on the platform: 32 or 64 bits *)
  uintBits : Z;
  (** [strings.ToUpper] on a string that is not all ASCII *)
  unicode_ToUpper : string → string;
  (** [url.Parse]: the host of the parsed URL, or [None] for an error *)
  url_Parse : string → option string;
  (** [ioutil.ReadFile] *)
  ioutil_ReadFile : string → string + string;
  (** [base64.StdEncoding.EncodeToString] *)
  base64_EncodeToString : string → string;
  (** [strconv.Quote], the [%q] verb *)
  strconv_Quote : string → string;
  (** [time.ParseDuration], in nanoseconds *)
  time_ParseDuration : string → string + Z;
  (** the [%.0f] verb on [Duration.Seconds] *)
  fmt_Seconds : Z → string;
  (** [parseJSON] into a [genomics.RunPipelineRequest]; [None]: an error.
      The request is taken to have its pipeline, its resources and its
      machine: in Go these are pointers, a file such as [{}] leaves them
      nil, and [runPipeline] panics on a nil one before it submits
      anything.  The requests that [buildRequest] assembles itself have
      all three. *)
  decodeRequest : string → option RunPipelineRequest.t;
  (** [parseJSON] into a list of actions.  The actions and their mounts
      are taken not to be null: [addRequiredDisks] reads through every
      one of these pointers, and panics on a nil one before a request is
      assembled. *)
  decodeActions : string → option (list Action.t);
  (** [os.Open] and the scanner that reads the file *)
  os_Open : string → string + Script;
  os_Stdin : Script;
  (** [google.DefaultClient] and [compute.New] *)
  google_DefaultClient : option string;
  compute_New : option string;
  (** [service.Zones.List] and [service.Regions.List] of a project *)
  zonesList : string → string + list string;
  regionsList : string → string + list string;
  (** [service.Pipelines.Run]: the name of the operation *)
  pipelinesRun : Z → RunPipelineRequest.t → RunError + string;
  (** [watch.Invoke] on the operation of an attempt *)
  watchInvoke : Z → string → option WatchError
}.

(** The orders in which the [range] loops over Go maps visit the entries:
    one per loop.  Go leaves them unspecified; an order is admissible when
    it lists the entries of the map, each once. *)
Record MapOrders := {
  rangeInputs : gmap string string → list (string * string);
  rangeBuckets : gmap string string → list (string * string);
  rangeFuse : gmap string string → list (string * string);
  rangeOutputs : gmap string string → list (string * string);
  rangeDisks : gmap string bool → list (string * bool)
}.

Definition admissible (o : MapOrders) : Prop :=
  (∀ m, rangeInputs o m ≡ₚ map_to_list m) ∧
  (∀ m, rangeBuckets o m ≡ₚ map_to_list m) ∧
  (∀ m, rangeFuse o m ≡ₚ map_to_list m) ∧
  (∀ m, rangeOutputs o m ≡ₚ map_to_list m) ∧
  (∀ m, rangeDisks o m ≡ₚ map_to_list m).

(** Sequencing of calls that may fail. *)
Definition bind {A B} (m : error + A) (k : A → error + B) : error + B :=
  match m with
  | inl e => inl e
  | inr a => k a
  end.

Notation "'do' x <- m ; k" := (bind m (λ x, k))
  (at level 10, x pattern, m at level 100, k at level 200, only parsing).

(** Substrings [s[:i]] and [s[i:]] at an offset that is in range. *)
Definition upto (i : Z) (s : string) : string := strings.take (Z.to_nat i) s.
Definition from (i : Z) (s : string) : string := strings.drop (Z.to_nat i) s.

Definition gcsPrefix : string := "gs://".

(** A value together with the equation that names it, for definitions by
    cases that have to remember the case. *)
Definition inspect {A} (x : A) : {y : A | x = y} := exist _ x eq_refl.

Section Tool.
Context (flags : Flags).

Definition bash (commands : list string) : Action.t :=
  {| Action.ImageUri := cloudSDKImage flags;
     Action.Commands := ["-c"; strings.Join commands " && "];
     Action.Entrypoint := "bash";
     Action.Flags := [];
     Action.Mounts := [googleRoot];
     Action.PortMappings := ∅;
     Action.Timeout := EmptyString;
     Action.PidNamespace := EmptyString |}.

Definition gsutil (arguments : list string) : Action.t :=
  bash ["gsutil -q " +:+ strings.Join arguments " "].

(** *** The directory merger *)

(** One turn of the loop of [mkdir]: [directory] replaces the last
    argument when that is a prefix of it, and is appended otherwise.
    [arguments] is never empty there (the loop starts from one
    element and never shrinks it). *)
Definition mkdirStep (arguments : list string) (directory : string)
  : list string :=
  match last arguments with
  | Some top =>
      if strings.HasPrefix directory top
      then <[pred (length arguments) := directory]> arguments
      else arguments ++ [directory]
  | None => arguments ++ [directory]
  end.

(** The [arguments] that [mkdir] hands to [mkdir -p]. *)
Definition mkdirArguments (directories : list string) : list string :=
  match sort.Strings directories with
  | [] => []
  | first :: rest => foldl mkdirStep [first] rest
  end.

(** [mkdir] returns nil for no directory at all. *)
Definition mkdir (directories : list string) : option Action.t :=
  match directories with
  | [] => None
  | _ => Some (bash ["mkdir -p " +:+
                     strings.Join (mkdirArguments directories) " "])
  end.

(** *** The script parser *)

Definition detectImage (command : list string)
    (options : gmap string string) : string :=
  match options !! "image" with
  | Some image => image
  | None =>
      match command with
      | first :: _ =>
          if isCloudCommand first then cloudSDKImage flags
          else defaultImage flags
      | [] => defaultImage flags
      end
  end.

(** The loop of [parsePorts] over the pairs that are left ([entry] is
    the [pair] of the source). *)
Fixpoint parsePorts_loop (ports : gmap string Z) (pairs : list string)
  : error + gmap string Z :=
  match pairs with
  | [] => inr ports
  | entry :: rest =>
      let i := strings.IndexByte entry ":" in
      if decide (i < 1) then inl (ErrInvalidPortMapping entry)
      else
        match strconv.ParseInt (from (i + 1) entry) with
        | inl e => inl (ErrParsingHostPort e)
        | inr n => parsePorts_loop (<[upto i entry := n]> ports) rest
        end
  end.

Definition parsePorts (input : string) : error + gmap string Z :=
  parsePorts_loop ∅ (strings.Split input ";").

Section Parser.
Context (world : World).

(** One token after the [#]: [key=value] goes to the options map, a bare
    token is a flag. *)
Definition parseOption (acc : gmap string string * list string)
    (opt : string) : gmap string string * list string :=
  let n := strings.IndexByte opt "=" in
  if decide (0 ≤ n)
  then (<[upto n opt := from (n + 1) opt]> acc.1, acc.2)
  else (acc.1, acc.2 ++ [strings.ToUpper (unicode_ToUpper world) opt]).

(** [parse] returns a pointer and an error: [inl] is a non-nil
    error, [inr None] a nil action with a nil error, [inr (Some a)]
    the action. *)
Definition parse (line : string) : error + option Action.t :=
  let n := strings.IndexByte line "#" in
  let '(options, flags0, line) :=
    if decide (0 ≤ n) then
      let acc := foldl parseOption (∅, [])
                   (strings.Fields (strings.TrimSpace (from (n + 1) line))) in
      (acc.1, acc.2, upto n line)
    else (∅, [], line) in
  let commands := strings.Fields (strings.TrimSpace line) in
  let '(flags1, commands, Commands, Entrypoint) :=
    match commands with
    | [] => (flags0, commands, [], EmptyString)
    | _ :: _ =>
        let '(flags1, commands) :=
          if decide (last commands = Some "&")
          then (flags0 ++ ["RUN_IN_BACKGROUND"],
                take (pred (length commands)) commands)
          else (flags0, commands) in
        (flags1, commands, ["-c"; strings.Join commands " "], "bash")
    end in
  do Timeout <-
    match options !! "timeout" with
    | Some timeout =>
        match time_ParseDuration world timeout with
        | inl msg => inl (ErrParsingActionTimeout msg)
        | inr duration => inr (fmt_Seconds world duration +:+ "s")
        end
    | None => inr EmptyString
    end;
  let ImageUri := detectImage commands options in
  do PortMappings <-
    match options !! "ports" with
    | Some v =>
        match parsePorts v with
        | inl e => inl (ErrParsingPorts e)
        | inr ports => inr ports
        end
    | None => inr ∅
    end;
  inr (Some {| Action.ImageUri := ImageUri;
               Action.Commands := Commands;
               Action.Entrypoint := Entrypoint;
               Action.Flags := flags1;
               Action.Mounts := [googleRoot];
               Action.PortMappings := PortMappings;
               Action.Timeout := Timeout;
               Action.PidNamespace := EmptyString |}).

(** The scanner loop of [parseFile]: [line] counts the lines read,
    [buffer] holds the continuation lines joined so far. *)
Fixpoint parseFile_loop (line : Z) (buffer : string)
    (actions : list Action.t) (texts : list string)
  : error + list Action.t :=
  match texts with
  | [] => inr actions
  | text :: rest =>
      let line := line + 1 in
      if strings.HasSuffix text "\"
      then parseFile_loop line
             (buffer +:+ upto (Z.of_nat (String.length text) - 1) text)
             actions rest
      else
        match parse (buffer +:+ text) with
        | inl e => inl (ErrLine line e)
        | inr (Some action) =>
            parseFile_loop line EmptyString (actions ++ [action]) rest
        | inr None =>
            parseFile_loop line EmptyString actions rest
        end
  end.

Definition scanScript (script : Script) : error + list Action.t :=
  do actions <- parseFile_loop 0 EmptyString [] (lines script);
  match scanErr script with
  | Some msg => inl (ErrReadingScript msg)
  | None => inr actions
  end.

Definition parseFile (filename : string) : error + list Action.t :=
  if decide (filename = "-") then scanScript (os_Stdin world)
  else
    match decodeActions world filename with
    | Some actions => inr actions
    | None =>
        match os_Open world filename with
        | inl msg => inl (ErrOpeningScript msg)
        | inr script => scanScript script
        end
    end.

(** *** The localization planner *)

Definition listOf (input : string) : list string :=
  if decide (input = EmptyString) then [] else strings.Split input ",".

(** One turn of the loop of [namedListOf]: [n] is the index of
    [input] in the comma separated list. *)
Definition namedListOf_step (defaultPrefix : string)
    (output : gmap string string) (entry : nat * string)
  : gmap string string :=
  let '(n, input) := entry in
  let i := strings.IndexByte input "=" in
  if decide (0 < i) then <[from (i + 1) input := upto i input]> output
  else if decide (input ≠ EmptyString)
       then <[input := defaultPrefix +:+ pretty n]> output
       else output.

Definition namedListOf (input defaultPrefix : string)
  : gmap string string :=
  foldl (namedListOf_step defaultPrefix) ∅
        (imap pair (strings.Split input ",")).

(** [parseGCSPath]: the bucket, when the second result is [true]. *)
Definition parseGCSPath (input : string) : option string :=
  match url_Parse world input with
  | None => None
  | Some host => Some host
  end.

Definition gcsJoin (input : list string) : string :=
  let parts := (λ part, strings.TrimPrefix part gcsPrefix) <$> input in
  match input with
  | first :: _ =>
      if strings.HasPrefix first gcsPrefix
      then gcsPrefix +:+ path.Join parts
      else path.Join parts
  | [] => path.Join parts
  end.

Definition gcsTransfer (remote from_ to_ : string) : Action.t :=
  let from_ := strings.TrimRight from_ "*" in
  let to_ := strings.TrimRight to_ "*" in
  if strings.HasSuffix remote "/**"
  then gsutil ["-m"; "cp"; "-r"; gcsJoin [from_; "*"]; to_]
  else if strings.HasSuffix remote "/*"
  then gsutil ["-m"; "cp"; gcsJoin [from_; "*"]; to_]
  else gsutil ["cp"; from_; to_].

Definition gcsFuse_step (actions : list Action.t)
    (entry : string * string) : list Action.t :=
  let '(bucket, path) := entry in
  actions ++
  [ {| Action.ImageUri := "gcr.io/cloud-genomics-pipelines/gcsfuse";
       Action.Commands := ["--implicit-dirs"; "--foreground"; bucket; path];
       Action.Entrypoint := EmptyString;
       Action.Flags := ["ENABLE_FUSE"; "RUN_IN_BACKGROUND"];
       Action.Mounts := [googleRoot];
       Action.PortMappings := ∅;
       Action.Timeout := EmptyString;
       Action.PidNamespace := EmptyString |};
    {| Action.ImageUri := "gcr.io/cloud-genomics-pipelines/gcsfuse";
       Action.Commands := ["wait"; path];
       Action.Entrypoint := EmptyString;
       Action.Flags := [];
       Action.Mounts := [googleRoot];
       Action.PortMappings := ∅;
       Action.Timeout := EmptyString;
       Action.PidNamespace := EmptyString |} ].

Section Ranges.
Context (orders : MapOrders).

Definition gcsFuse (buckets : gmap string string) : list Action.t :=
  foldl gcsFuse_step [] (rangeFuse orders buckets).

Definition sshDebug (project : string) : Action.t :=
  {| Action.ImageUri := "gcr.io/cloud-genomics-pipelines/tools";
     Action.Commands := [];
     Action.Entrypoint := "ssh-server";
     Action.Flags := ["RUN_IN_BACKGROUND"];
     Action.Mounts := [];
     Action.PortMappings := {[ "22" := 22 ]};
     Action.Timeout := EmptyString;
     Action.PidNamespace := EmptyString |}.

Definition upload (input output_ : string) : error + Action.t :=
  match ioutil_ReadFile world input with
  | inl msg => inl (ErrReadingInputFile msg)
  | inr raw =>
      let encoded := base64_EncodeToString world raw in
      inr (bash
             [ "mkdir -p " +:+ strconv_Quote world (path.Dir output_);
               "echo " +:+ strconv_Quote world encoded +:+
               " | base64 -d > " +:+ strconv_Quote world output_ ])
  end.

(** What the two planning loops of [buildRequest] build up. *)
Record Plan := {
  planEnvironment : gmap string string;
  planBuckets : gmap string string;
  planDirectories : list string;
  planLocalizers : list Action.t;
  planDelocalizers : list Action.t
}.

(** A loop that stops at the first error. *)
Fixpoint forEach {A S} (body : S → A → error + S) (st : S)
    (l : list A) : error + S :=
  match l with
  | [] => inr st
  | x :: rest => do st' <- body st x; forEach body st' rest
  end.

(** The body of the loop over [namedListOf inputs]. *)
Definition localizeInput (inputRoot : string) (st : Plan)
    (entry : string * string) : error + Plan :=
  let '(input, name) := entry in
  let filename := gcsJoin [inputRoot; strings.TrimRight input "*"] in
  let environment := <[name := filename]> (planEnvironment st) in
  let withDirectory (localizers : list Action.t) :=
    {| planEnvironment := environment;
       planBuckets := planBuckets st;
       planDirectories :=
         if strings.HasSuffix input "*"
         then planDirectories st ++ [filename]
         else planDirectories st;
       planLocalizers := localizers;
       planDelocalizers := planDelocalizers st |} in
  match parseGCSPath input with
  | Some bucket =>
      if fuse flags then
        inr {| planEnvironment := environment;
               planBuckets :=
                 <[bucket := path.Join [inputRoot; bucket]]>
                   (planBuckets st);
               planDirectories := planDirectories st;
               planLocalizers := planLocalizers st;
               planDelocalizers := planDelocalizers st |}
      else
        inr (withDirectory
               (planLocalizers st ++ [gcsTransfer input input filename]))
  | None =>
      match upload input filename with
      | inl e => inl (ErrProcessing input e)
      | inr action => inr (withDirectory (planLocalizers st ++ [action]))
      end
  end.

(** The bucket mounts, when there are any. *)
Definition mountBuckets (st : Plan) : Plan :=
  if decide (0 < size (planBuckets st))%nat then
    {| planEnvironment := planEnvironment st;
       planBuckets := planBuckets st;
       planDirectories :=
         planDirectories st ++ (rangeBuckets orders (planBuckets st)).*2;
       planLocalizers := planLocalizers st ++ gcsFuse (planBuckets st);
       planDelocalizers := planDelocalizers st |}
  else st.

(** The body of the loop over [namedListOf outputs]. *)
Definition delocalizeOutput (outputRoot : string) (st : Plan)
    (entry : string * string) : Plan :=
  let '(output_, name) := entry in
  let filename := gcsJoin [outputRoot; strings.TrimRight output_ "*"] in
  {| planEnvironment := <[name := filename]> (planEnvironment st);
     planBuckets := planBuckets st;
     planDirectories :=
       planDirectories st ++
       [if strings.HasSuffix output_ "*" then filename
        else path.Dir filename];
     planLocalizers := planLocalizers st;
     planDelocalizers :=
       planDelocalizers st ++ [gcsTransfer output_ filename output_] |}.

Definition withFlags (action : Action.t) (fl : list string)
  : Action.t :=
  {| Action.ImageUri := Action.ImageUri action;
     Action.Commands := Action.Commands action;
     Action.Entrypoint := Action.Entrypoint action;
     Action.Flags := fl;
     Action.Mounts := Action.Mounts action;
     Action.PortMappings := Action.PortMappings action;
     Action.Timeout := Action.Timeout action;
     Action.PidNamespace := Action.PidNamespace action |}.

(** The copy of the combined output, when [--output] is given. *)
Definition outputAction : list Action.t :=
  if decide (output flags ≠ EmptyString)
  then [withFlags (gsutil ["cp"; "/google/logs/output"; output flags])
                  ["ALWAYS_RUN"]]
  else [].

(** The background action that copies the output at intervals. *)
Definition intervalAction : list Action.t :=
  if decide (outputInterval flags ≠ 0 ∧ output flags ≠ EmptyString)
  then [withFlags
          (bash ["while true; do sleep " +:+
                 fmt_Seconds world (outputInterval flags) +:+
                 "; gsutil -q cp /google/logs/output " +:+
                 output flags +:+ "; done"])
          ["RUN_IN_BACKGROUND"]]
  else [].

Definition googlePath (directory : string) : string :=
  path.Join [Mount.Path googleRoot; ".google"; directory].

(** The planning part of [buildRequest]: both loops, the bucket
    mounts and the output copy. *)
Definition plan : error + Plan :=
  let start :=
    {| planEnvironment :=
         <["TMPDIR" := googlePath "tmp"]> (environment flags);
       planBuckets := ∅;
       planDirectories := [googlePath "tmp"];
       planLocalizers := [];
       planDelocalizers := [] |} in
  do st <- forEach (localizeInput (googlePath "input")) start
                   (rangeInputs orders (namedListOf (inputs flags) "INPUT"));
  let st := mountBuckets st in
  let st := foldl (delocalizeOutput (googlePath "output")) st
                  (rangeOutputs orders (namedListOf (outputs flags) "OUTPUT")) in
  inr {| planEnvironment := planEnvironment st;
         planBuckets := planBuckets st;
         planDirectories := planDirectories st;
         planLocalizers := planLocalizers st;
         planDelocalizers := planDelocalizers st ++ outputAction |}.

(** *** The request assembler *)

(** The two loops of [expandPrefixes]; [allValues] is the answer of
    the listing service. *)
Definition splitPrefixes (acc : list string * list string)
    (item : string) : list string * list string :=
  if strings.HasSuffix item "*"
  then (acc.1, acc.2 ++ [upto (Z.of_nat (String.length item) - 1) item])
  else (acc.1 ++ [item], acc.2).

Definition expandPrefixes (input : list string)
    (allValues : string + list string) : error + list string :=
  let '(results, prefixes) := foldl splitPrefixes ([], []) input in
  if decide (0 < length prefixes)%nat then
    match google_DefaultClient world with
    | Some msg => inl (ErrCreatingComputeClient msg)
    | None =>
        match compute_New world with
        | Some msg => inl (ErrCreatingComputeService msg)
        | None =>
            match allValues with
            | inl msg => inl (ErrListing msg)
            | inr values =>
                inr (results ++
                     filter (λ value,
                               existsb (strings.HasPrefix value) prefixes)
                            values)
            end
        end
    end
  else inr results.

(** The map [disks] of [addRequiredDisks]. *)
Definition requiredDisks (actions : list Action.t) : gmap string bool :=
  foldl (λ disks action,
           foldl (λ disks mount, <[Mount.Disk mount := true]> disks)
                 disks (Action.Mounts action))
        ∅ actions.

Definition newDisk (name : string) : Disk.t :=
  {| Disk.Name := name;
     Disk.Type_ := diskType flags;
     Disk.SizeGb := diskSizeGb flags;
     Disk.SourceImage :=
       if decide (diskImage flags ≠ EmptyString ∧
                  name = Mount.Disk googleRoot)
       then diskImage flags else EmptyString |}.

Definition addRequiredDisks (actions : list Action.t)
    (vm : VirtualMachine.t) : VirtualMachine.t :=
  {| VirtualMachine.MachineType := VirtualMachine.MachineType vm;
     VirtualMachine.Network := VirtualMachine.Network vm;
     VirtualMachine.ServiceAccount := VirtualMachine.ServiceAccount vm;
     VirtualMachine.Labels := VirtualMachine.Labels vm;
     VirtualMachine.BootImage := VirtualMachine.BootImage vm;
     VirtualMachine.Accelerators := VirtualMachine.Accelerators vm;
     VirtualMachine.Disks :=
       VirtualMachine.Disks vm ++
       (newDisk <$> (rangeDisks orders (requiredDisks actions)).*1);
     VirtualMachine.BootDiskSizeGb :=
       if decide (0 < bootDiskSizeGb flags) then bootDiskSizeGb flags
       else VirtualMachine.BootDiskSizeGb vm;
     VirtualMachine.Preemptible := VirtualMachine.Preemptible vm |}.

Definition storageScope : string :=
  "https://www.googleapis.com/auth/devstorage.read_write".

(** The condition under which [addRequiredScopes] appends. *)
Definition needsStorage (action : Action.t) : bool :=
  bool_decide (Action.ImageUri action = cloudSDKImage flags)
  || match Action.Commands action with
     | first :: _ => isCloudCommand first
     | [] => false
     end.

(** The loop of [addRequiredScopes], with its early return. *)
Fixpoint addRequiredScopes_loop (scopes_ : list string)
    (actions : list Action.t) : list string :=
  match actions with
  | [] => scopes_
  | action :: rest =>
      if needsStorage action then scopes_ ++ [storageScope]
      else addRequiredScopes_loop scopes_ rest
  end.

Definition addRequiredScopes (actions : list Action.t)
    (vm : VirtualMachine.t) : VirtualMachine.t :=
  {| VirtualMachine.MachineType := VirtualMachine.MachineType vm;
     VirtualMachine.Network := VirtualMachine.Network vm;
     VirtualMachine.ServiceAccount :=
       {| ServiceAccount.Email :=
            ServiceAccount.Email (VirtualMachine.ServiceAccount vm);
          ServiceAccount.Scopes :=
            addRequiredScopes_loop
              (ServiceAccount.Scopes (VirtualMachine.ServiceAccount vm))
              actions |};
     VirtualMachine.Labels := VirtualMachine.Labels vm;
     VirtualMachine.BootImage := VirtualMachine.BootImage vm;
     VirtualMachine.Accelerators := VirtualMachine.Accelerators vm;
     VirtualMachine.Disks := VirtualMachine.Disks vm;
     VirtualMachine.BootDiskSizeGb := VirtualMachine.BootDiskSizeGb vm;
     VirtualMachine.Preemptible := VirtualMachine.Preemptible vm |}.

(** The actions read from the file or the [--command] flag, after
    the interval action. *)
Definition userActions (filename : string)
  : error + list (option Action.t) :=
  if decide (filename ≠ EmptyString) then
    match parseFile filename with
    | inl e => inl (ErrCreatingPipelineFromFile e)
    | inr v => inr (Some <$> v)
    end
  else if decide (command flags ≠ EmptyString) then
    match parse (command flags) with
    | inl e => inl (ErrCreatingActionFromCommand e)
    | inr action => inr [action]
    end
  else inl ErrNoCommandOrInputFile.

Definition newVirtualMachine : VirtualMachine.t :=
  {| VirtualMachine.MachineType := machineType flags;
     VirtualMachine.Network :=
       {| Network.UsePrivateAddress := privateAddress flags;
          Network.Name := network flags;
          Network.Subnetwork := subnetwork flags |};
     VirtualMachine.ServiceAccount :=
       {| ServiceAccount.Email := serviceAccount flags;
          ServiceAccount.Scopes := listOf (scopes flags) |};
     VirtualMachine.Labels := vmLabels flags;
     VirtualMachine.BootImage :=
       if decide (cosChannel flags ≠ EmptyString)
       then "projects/cos-cloud/global/images/family/cos-" +:+
            cosChannel flags
       else EmptyString;
     VirtualMachine.Accelerators :=
       if decide (0 < gpus flags)
       then [{| Accelerator.Type_ := gpuType flags;
                Accelerator.Count := gpus flags |}]
       else [];
     VirtualMachine.Disks := [];
     VirtualMachine.BootDiskSizeGb := 0;
     VirtualMachine.Preemptible := false |}.

(** The regions and zones of the request. *)
Definition locations (project : string)
  : error + (list string * list string) :=
  if decide (regions flags ≠ EmptyString ∧ zones flags ≠ EmptyString)
  then inl ErrBothZonesAndRegions
  else
    do regions_ <-
      (if decide (regions flags ≠ EmptyString) then
         match expandPrefixes (listOf (regions flags))
                              (regionsList world project) with
         | inl e => inl (ErrExpandingRegions e)
         | inr l => inr l
         end
       else inr []);
    do zones_ <-
      (if decide (zones flags ≠ EmptyString) then
         match expandPrefixes (listOf (zones flags))
                              (zonesList world project) with
         | inl e => inl (ErrExpandingZones e)
         | inr l => inr l
         end
       else inr []);
    if decide (length zones_ + length regions_ = 0)%nat
    then inr (regions_, ["us-east1-d"])
    else inr (regions_, zones_).

(** The pointers of [pipeline.Actions], in their order; [None] is a
    nil pointer. *)
Definition pipelineActions (project : string) (st : Plan)
    (actions : list (option Action.t)) : list (option Action.t) :=
  [mkdir (planDirectories st)] ++
  (if ssh flags then [Some (sshDebug project)] else []) ++
  (Some <$> planLocalizers st) ++ actions ++
  (Some <$> planDelocalizers st).

Definition sharePID (action : Action.t) : Action.t :=
  {| Action.ImageUri := Action.ImageUri action;
     Action.Commands := Action.Commands action;
     Action.Entrypoint := Action.Entrypoint action;
     Action.Flags := Action.Flags action;
     Action.Mounts := Action.Mounts action;
     Action.PortMappings := Action.PortMappings action;
     Action.Timeout := Action.Timeout action;
     Action.PidNamespace := "shared" |}.

(** The actions as the finished request holds them. *)
Definition finishActions (actions : list Action.t) : list Action.t :=
  if sharePIDs flags then sharePID <$> actions else actions.

Definition buildRequest (filename project : string)
  : error + RunPipelineRequest.t :=
  match (if decide (filename ≠ EmptyString)
         then decodeRequest world filename else None) with
  | Some req => inr req
  | None =>
      do st <- plan;
      do actions <- userActions filename;
      let actions := (Some <$> intervalAction) ++ actions in
      do where_ <- locations project;
      match mapM id (pipelineActions project st actions) with
      | None => inl PanicNilDereference
      | Some all =>
          let vm := addRequiredScopes all
                      (addRequiredDisks all newVirtualMachine) in
          inr {| RunPipelineRequest.Pipeline :=
                   {| Pipeline.Resources :=
                        {| Resources.ProjectId := project;
                           Resources.VirtualMachine := vm;
                           Resources.Regions := where_.1;
                           Resources.Zones := where_.2 |};
                      Pipeline.Environment := planEnvironment st;
                      Pipeline.Actions := finishActions all;
                      Pipeline.Timeout :=
                        if decide (timeout flags ≠ 0)
                        then fmt_Seconds world (timeout flags) +:+ "s"
                        else EmptyString |};
                 RunPipelineRequest.Labels :=
                   if decide (name flags ≠ EmptyString)
                   then <["name" := name flags]> (labels flags)
                   else labels flags |}
      end
  end.

(** *** The execution controller *)

(** The arithmetic of Go's [uint] wraps around at its width. *)
Definition uint (z : Z) : Z := z mod 2 ^ uintBits world.

(** The assignment to [req.Pipeline.Resources.VirtualMachine.Preemptible],
    for a request whose three pointers are set. *)
Definition setPreemptible (req : RunPipelineRequest.t) (b : bool)
  : RunPipelineRequest.t :=
  let pipeline := RunPipelineRequest.Pipeline req in
  let resources := Pipeline.Resources pipeline in
  let vm := Resources.VirtualMachine resources in
  {| RunPipelineRequest.Pipeline :=
       {| Pipeline.Resources :=
            {| Resources.ProjectId := Resources.ProjectId resources;
               Resources.VirtualMachine :=
                 {| VirtualMachine.MachineType := VirtualMachine.MachineType vm;
                    VirtualMachine.Network := VirtualMachine.Network vm;
                    VirtualMachine.ServiceAccount := VirtualMachine.ServiceAccount vm;
                    VirtualMachine.Labels := VirtualMachine.Labels vm;
                    VirtualMachine.BootImage := VirtualMachine.BootImage vm;
                    VirtualMachine.Accelerators := VirtualMachine.Accelerators vm;
                    VirtualMachine.Disks := VirtualMachine.Disks vm;
                    VirtualMachine.BootDiskSizeGb := VirtualMachine.BootDiskSizeGb vm;
                    VirtualMachine.Preemptible := b |};
               Resources.Regions := Resources.Regions resources;
               Resources.Zones := Resources.Zones resources |};
          Pipeline.Environment := Pipeline.Environment pipeline;
          Pipeline.Actions := Pipeline.Actions pipeline;
          Pipeline.Timeout := Pipeline.Timeout pipeline |};
     RunPipelineRequest.Labels := RunPipelineRequest.Labels req |}.

Definition isPreemptible (req : RunPipelineRequest.t) : bool :=
  VirtualMachine.Preemptible
    (Resources.VirtualMachine
       (Pipeline.Resources (RunPipelineRequest.Pipeline req))).

(** How one turn of the loop of [runPipeline] ends: it returns, or
    it goes on to the next attempt. *)
Inductive Turn :=
| Return (result : option error)
| Continue.

(** One turn of the loop: the request as it is submitted, and how
    the turn ends. *)
Definition attemptOnce (req : RunPipelineRequest.t) (attempt : Z)
  : RunPipelineRequest.t * Turn :=
  let req := setPreemptible req (bool_decide (attempt ≤ pvmAttempts flags)) in
  match pipelinesRun world attempt req with
  | inl (GoogleApiError message body text) =>
      if decide (message ≠ EmptyString)
      then (req, Return (Some (ErrStartingPipelineApi message body)))
      else (req, Return (Some (ErrStartingPipeline text)))
  | inl (OtherRunError msg) =>
      (req, Return (Some (ErrStartingPipeline msg)))
  | inr lroName =>
      if negb (wait flags) then (req, Return None)
      else
        match watchInvoke world attempt lroName with
        | None => (req, Return None)
        | Some (PipelineExecutionError retriable msg) =>
            if retriable &&
               bool_decide (attempt < uint (pvmAttempts flags + attempts flags))
            then (req, Continue)
            else (req, Return (Some (ErrOperationFailed lroName msg)))
        | Some (OtherWatchError msg) =>
            (req, Return (Some (ErrOperationFailed lroName msg)))
        end
  end.

(** The loop of [runPipeline] from a given attempt on; [sent] lists
    the requests submitted so far, oldest first. *)
Equations? runPipeline_from (req : RunPipelineRequest.t) (attempt : Z)
    (sent : list RunPipelineRequest.t)
  : list RunPipelineRequest.t * option error
  by wf (Z.to_nat (uint (pvmAttempts flags + attempts flags) - attempt)) lt :=
  runPipeline_from req attempt sent with inspect (attemptOnce req attempt) := {
    | exist _ (req', Return result) _ => (sent ++ [req'], result)
    | exist _ (req', Continue) Heq =>
        runPipeline_from req' (uint (attempt + 1)) (sent ++ [req']) }.
Proof.
  assert (attempt < uint (pvmAttempts flags + attempts flags)) as Hlt.
  { revert Heq. unfold attemptOnce.
    destruct (pipelinesRun _ _ _) as [[m b t|m]|lro]; [|done|].
    { case_decide; done. }
    destruct (negb _); [done|].
    destruct (watchInvoke _ _ _) as [[r m|m]|]; [|done..].
    destruct r; simpl; [|done].
    case_bool_decide; done. }
  assert (attempt + 1 ≤ uint (attempt + 1)); [|lia].
  unfold uint in *.
  destruct (Z.eq_dec (2 ^ uintBits world) 0) as [Hz|Hz].
  { rewrite Hz, Z.mod_0_r. lia. }
  assert (0 < 2 ^ uintBits world)
    by (pose proof (Z.pow_nonneg 2 (uintBits world)); lia).
  pose proof (Z.mod_pos_bound (pvmAttempts flags + attempts flags)
                (2 ^ uintBits world) ltac:(lia)).
  destruct (decide (0 ≤ attempt + 1)).
  - rewrite Z.mod_small; lia.
  - pose proof (Z.mod_pos_bound (attempt + 1) (2 ^ uintBits world) ltac:(lia)).
    lia.
Qed.

(** [runPipeline]: the requests it submitted, in order, and the
    error it returns. *)
Definition runPipeline (req : RunPipelineRequest.t)
  : list RunPipelineRequest.t * option error :=
  runPipeline_from req 1 [].

(** [Invoke], given the positional arguments that are left once the
    flags are parsed. *)
Definition Invoke (project : string) (filenames : list string)
  : list RunPipelineRequest.t * option error :=
  match filenames with
  | _ :: _ :: _ => ([], Some ErrOnlyASingleInputFile)
  | _ =>
      match buildRequest (default EmptyString (head filenames)) project with
      | inl e => ([], Some (ErrBuildingRequest e))
      | inr req =>
          if dryRun flags ||
             bool_decide (attempts flags = 0 ∧ pvmAttempts flags = 0)
          then ([], None)
          else runPipeline req
      end
  end.

End Ranges.
End Parser.
End Tool.
End run.

(** * The vocabulary of the properties *)

Import run.

(** ** The directory merger *)

(** The loop of [mkdir] seen from its last argument: what the arguments
    become once [top] is the last one and [rest] is still to come. *)
Fixpoint merged (top : string) (rest : list string) : list string :=
  match rest with
  | [] => [top]
  | directory :: rest' =>
      if strings.HasPrefix directory top then merged directory rest'
      else top :: merged directory rest'
  end.

(** A path is maximal in [l] when it is a prefix of none but itself. *)
Definition maximal (l : list string) (x : string) : Prop :=
  ∀ r, r ∈ l → strings.HasPrefix r x = true → r = x.

(** ** The script parser *)

(** What [parse] returns for a line with no command and no option: an
    action that names the default image and no command at all. *)
Definition blankAction (flags : Flags) : Action.t :=
  {| Action.ImageUri := defaultImage flags;
     Action.Commands := [];
     Action.Entrypoint := EmptyString;
     Action.Flags := [];
     Action.Mounts := [googleRoot];
     Action.PortMappings := ∅;
     Action.Timeout := EmptyString;
     Action.PidNamespace := EmptyString |}.

(** The options that [parse] reads after the [#] of a line. *)
Definition optionsOf (world : World) (line : string) : gmap string string :=
  let n := strings.IndexByte line "#" in
  if decide (0 ≤ n)
  then (foldl (parseOption world) (∅, [])
          (strings.Fields (strings.TrimSpace (from (n + 1) line)))).1
  else ∅.

(** The text after the first colon of a pair of a port mapping. *)
Definition portText (entry : string) : string :=
  from (strings.IndexByte entry ":" + 1) entry.

(** The value of a text of decimal digits, read from the left with [n]
    for the digits before it; [None] for any other byte. *)
Fixpoint decimal_go (n : Z) (s : string) : option Z :=
  match s with
  | EmptyString => Some n
  | String c s' =>
      match Ascii.is_nat c with
      | Some d => decimal_go (n * 10 + Z.of_nat d) s'
      | None => None
      end
  end.

(** The number that a text denotes in decimal notation: an optional sign
    and one digit or more. *)
Definition decimal (s : string) : option Z :=
  match s with
  | EmptyString => None
  | String c rest =>
      if decide (c = "-"%char) then
        match rest with
        | EmptyString => None
        | _ => Z.opp <$> decimal_go 0 rest
        end
      else if decide (c = "+"%char) then
        match rest with
        | EmptyString => None
        | _ => decimal_go 0 rest
        end
      else decimal_go 0 s
  end.

(** A pair that [parsePorts] accepts: its first colon is not its first
    byte, and the text after it denotes an integer of 64 bits. *)
Definition acceptedPair (entry : string) : Prop :=
  1 ≤ strings.IndexByte entry ":" ∧
  ∃ n, decimal (portText entry) = Some n ∧ - 2 ^ 63 ≤ n < 2 ^ 63.

(** The error of a failing pair: it quotes the pair when the colon is
    missing or comes first, and the text after the colon when that is not
    a number. *)
Definition pairError (entry : string) (e : error) : Prop :=
  (strings.IndexByte entry ":" < 1 ∧ e = ErrInvalidPortMapping entry) ∨
  (1 ≤ strings.IndexByte entry ":" ∧
   ∃ kind, e = ErrParsingHostPort
                 {| strconv.Func := "ParseInt";
                    strconv.Num := portText entry;
                    strconv.Err := kind |}).

(** ** The localization planner *)

(** The path and the name of the [n]-th specifier of a list, when it has
    any: [NAME=path] names itself, a plain path is named by the prefix and
    [n], the empty specifier is skipped. *)
Definition specifier (defaultPrefix : string) (n : nat) (input : string)
  : option (string * string) :=
  let i := strings.IndexByte input "=" in
  if decide (0 < i) then Some (from (i + 1) input, upto i input)
  else if decide (input ≠ EmptyString)
       then Some (input, defaultPrefix +:+ pretty n)
       else None.

(** The specifier at some position of [l] is the last one of [l] for
    [path], and it gives it the name [name]. *)
Definition lastSpecifier (defaultPrefix : string) (l : list string)
    (path name : string) : Prop :=
  ∃ n input,
    l !! n = Some input ∧
    specifier defaultPrefix n input = Some (path, name) ∧
    ∀ n' input' name',
      (n < n')%nat → l !! n' = Some input' →
      specifier defaultPrefix n' input' ≠ Some (path, name').

(** The map that the loop of [namedListOf] builds from a list of
    specifiers. *)
Definition namedList (defaultPrefix : string) (l : list string)
  : gmap string string :=
  foldl (namedListOf_step defaultPrefix) ∅ (imap pair l).

(** The path on the machine of a specifier's path, under [root]. *)
Definition target (root path : string) : string :=
  gcsJoin [root; strings.TrimRight path "*"].

(** The binding that one turn of either loop of the planner adds. *)
Definition bindTarget (root : string) (env : gmap string string)
    (entry : string * string) : gmap string string :=
  <[entry.2 := target root entry.1]> env.

(** The actions that one turn of the loop over the inputs adds: none for a
    bucket to mount, a copy for any other text that [url.Parse] accepts,
    the upload of the file for a text that it refuses. *)
Definition localizersOf (flags : Flags) (world : World) (root : string)
    (entry : string * string) : error + list Action.t :=
  match parseGCSPath world entry.1 with
  | Some _ =>
      if fuse flags then inr []
      else inr [gcsTransfer flags entry.1 entry.1 (target root entry.1)]
  | None =>
      match upload flags world entry.1 (target root entry.1) with
      | inl e => inl (ErrProcessing entry.1 e)
      | inr action => inr [action]
      end
  end.

(** ** The request assembler *)

(** The disk names that the mounts of [actions] refer to. *)
Definition mounted (actions : list Action.t) (name : string) : Prop :=
  ∃ action mount,
    action ∈ actions ∧ mount ∈ Action.Mounts action ∧
    Mount.Disk mount = name.

(** The names of the disks of the machine of a request. *)
Definition diskNames (req : RunPipelineRequest.t) : list string :=
  Disk.Name <$>
  VirtualMachine.Disks
    (Resources.VirtualMachine
       (Pipeline.Resources (RunPipelineRequest.Pipeline req))).

(** The scopes of the service account of a request. *)
Definition requestScopes (req : RunPipelineRequest.t) : list string :=
  ServiceAccount.Scopes
    (VirtualMachine.ServiceAccount
       (Resources.VirtualMachine
          (Pipeline.Resources (RunPipelineRequest.Pipeline req)))).

(** The actions of a request in the order in which [buildRequest] puts
    them together, before [finishActions]. *)
Definition orderedActions (flags : Flags) (world : World) (project : string)
    (st : Plan) (directoryStep : Action.t) (user : list Action.t)
  : list Action.t :=
  [directoryStep] ++
  (if ssh flags then [sshDebug project] else []) ++
  planLocalizers st ++
  (intervalAction flags world ++ user) ++
  planDelocalizers st.

(** The names of the disks that [addRequiredDisks] adds. *)
Definition addedDisks (orders : MapOrders) (actions : list Action.t)
  : list string :=
  (rangeDisks orders (requiredDisks actions)).*1.

(** Two admissible ways of ranging over maps: in the order of the entries
    of [map_to_list], and in the opposite order. *)
Definition canonicalOrders : MapOrders :=
  {| rangeInputs := map_to_list; rangeBuckets := map_to_list;
     rangeFuse := map_to_list; rangeOutputs := map_to_list;
     rangeDisks := map_to_list |}.

Definition reversedOrders : MapOrders :=
  {| rangeInputs := λ m, reverse (map_to_list m);
     rangeBuckets := λ m, reverse (map_to_list m);
     rangeFuse := λ m, reverse (map_to_list m);
     rangeOutputs := λ m, reverse (map_to_list m);
     rangeDisks := λ m, reverse (map_to_list m) |}.

(** ** The execution controller *)

(** Every submission is accepted, and the monitor reports a retriable
    execution error for every operation. *)
Definition allRetriable (world : World) : Prop :=
  (∀ k req, ∃ lro, pipelinesRun world k req = inr lro) ∧
  (∀ k lro, ∃ msg,
      watchInvoke world k lro = Some (PipelineExecutionError true msg)).

(** The budget as the loop computes it. *)
Definition budget (flags : Flags) (world : World) : Z :=
  uint world (pvmAttempts flags + attempts flags).

(** ** Flags and worlds of the examples *)

(** The flags at the default values that [run.go] declares, but for the
    inputs, the outputs, the command, the debug server and the two attempt
    budgets. *)
Definition exampleFlags (inputs_ outputs_ command_ : string) (ssh_ : bool)
    (pvmAttempts_ attempts_ : Z) : Flags :=
  {| name := EmptyString; scopes := EmptyString; zones := EmptyString;
     regions := EmptyString; output := EmptyString; dryRun := false;
     wait := true; machineType := "n1-standard-1"; inputs := inputs_;
     outputs := outputs_; diskSizeGb := 0; diskType := EmptyString;
     diskImage := EmptyString; bootDiskSizeGb := 0; privateAddress := false;
     cloudSDKImage := "gcr.io/cloud-genomics-pipelines/io"; timeout := 0;
     defaultImage := "bash"; attempts := attempts_;
     pvmAttempts := pvmAttempts_; gpus := 0;
     gpuType := "nvidia-tesla-k80"; command := command_; fuse := false;
     ssh := ssh_; network := EmptyString; subnetwork := EmptyString;
     sharePIDs := false; cosChannel := EmptyString;
     serviceAccount := EmptyString; outputInterval := 0;
     environment := ∅; labels := ∅; vmLabels := ∅ |}.

(** All the flags at their default values. *)
Definition defaultFlags : Flags :=
  exampleFlags EmptyString EmptyString EmptyString false 1 0.

(** The default flags with other attempt budgets. *)
Definition withAttempts (P N : Z) : Flags :=
  exampleFlags EmptyString EmptyString EmptyString false P N.

(** Two inputs with the same path and two names, a third input, and two
    outputs with the same path. *)
Definition samePathFlags : Flags :=
  exampleFlags "A=gs://b/x,B=gs://b/x,gs://b/y" "gs://b/o,O=gs://b/o"
               "true" false 1 0.

(** The host that [url.Parse] finds in [scheme://host/path]; the empty host
    for a text with no [//]. *)
Fixpoint hostOf (s : string) : string :=
  match s with
  | String a s' =>
      if strings.HasPrefix s "//"
      then default EmptyString (head (strings.Split (strings.drop 2 s) "/"))
      else hostOf s'
  | EmptyString => EmptyString
  end.

(** A world of 64 bits with the script files [scripts] and the actions
    files [actionFiles] and no other file, in which every text parses as a
    URL, every submission is accepted and every operation fails with a
    retriable error. *)
Definition exampleWorld (scripts : string → option Script)
    (actionFiles : string → option (list Action.t)) : World :=
  {| uintBits := 64;
     unicode_ToUpper := λ s, s;
     url_Parse := λ s, Some (hostOf s);
     ioutil_ReadFile := λ _, inl "no such file or directory";
     base64_EncodeToString := λ s, s;
     strconv_Quote := λ s, s;
     time_ParseDuration := λ _, inl "invalid duration";
     fmt_Seconds := λ d, pretty (d / 1000000000);
     decodeRequest := λ _, None;
     decodeActions := actionFiles;
     os_Open := λ filename,
       match scripts filename with
       | Some script => inr script
       | None => inl "no such file or directory"
       end;
     os_Stdin := {| lines := []; scanErr := None |};
     google_DefaultClient := None;
     compute_New := None;
     zonesList := λ _, inr [];
     regionsList := λ _, inr [];
     pipelinesRun := λ _ _, inr "operations/1";
     watchInvoke := λ _ _, Some (PipelineExecutionError true "preempted") |}.

(** The world with no file at all. *)
Definition retriableWorld : World := exampleWorld (λ _, None) (λ _, None).

(** The world with the script [script.sh] of three lines, the second of
    which is blank. *)
Definition scriptWorld : World :=
  exampleWorld
    (λ filename,
       if decide (filename = "script.sh")
       then Some {| lines := ["echo a"; "   "; "echo b"]; scanErr := None |}
       else None)
    (λ _, None).

(** A request with no action. *)
Definition emptyRequest : RunPipelineRequest.t :=
  {| RunPipelineRequest.Pipeline :=
       {| Pipeline.Resources :=
            {| Resources.ProjectId := "p";
               Resources.VirtualMachine := newVirtualMachine defaultFlags;
               Resources.Regions := [];
               Resources.Zones := ["us-east1-d"] |};
          Pipeline.Environment := ∅;
          Pipeline.Actions := [];
          Pipeline.Timeout := EmptyString |};
     RunPipelineRequest.Labels := ∅ |}.

(** Two actions that mount two disks: the working disk, and a disk of the
    user, as an actions file can ask for. *)
Definition twoDiskActions : list Action.t :=
  [ bash defaultFlags ["mkdir -p /mnt/google/.google/tmp"];
    {| Action.ImageUri := "bash";
       Action.Commands := ["-c"; "ls /data"];
       Action.Entrypoint := "bash";
       Action.Flags := [];
       Action.Mounts := [{| Mount.Disk := "data"; Mount.Path := "/data" |}];
       Action.PortMappings := ∅;
       Action.Timeout := EmptyString;
       Action.PidNamespace := EmptyString |} ].

(** The world with the actions file [actions.json] that holds the second
    of these actions. *)
Definition actionsFileWorld : World :=
  exampleWorld (λ _, None)
    (λ filename,
       if decide (filename = "actions.json") then Some (drop 1 twoDiskActions)
       else None).

(** ** Further vocabulary: wildcards, attempts, scripts and files *)

(** An item of [--zones] or [--regions] that ends in a star. *)
Definition wildcard (item : string) : Prop :=
  strings.HasSuffix item "*" = true.

(** The items of a list that name a zone or region exactly. *)
Definition exactItems (input : list string) : list string :=
  filter (λ item, ¬ wildcard item) input.

(** A listed value starts with the text before the star of some item. *)
Definition matchesPrefix (input : list string) (value : string) : Prop :=
  ∃ p, p +:+ "*" ∈ input ∧ strings.HasPrefix value p = true.

(** A world in which no compute client can be made. *)
Definition offlineWorld : World :=
  {| uintBits := 64;
     unicode_ToUpper := λ s, s;
     url_Parse := λ s, Some (hostOf s);
     ioutil_ReadFile := λ _, inl "no such file or directory";
     base64_EncodeToString := λ s, s;
     strconv_Quote := λ s, s;
     time_ParseDuration := λ _, inl "invalid duration";
     fmt_Seconds := λ d, pretty (d / 1000000000);
     decodeRequest := λ _, None;
     decodeActions := λ _, None;
     os_Open := λ _, inl "no such file or directory";
     os_Stdin := {| lines := []; scanErr := None |};
     google_DefaultClient := Some "could not find default credentials";
     compute_New := None;
     zonesList := λ _, inl "unreachable";
     regionsList := λ _, inl "unreachable";
     pipelinesRun := λ _ _, inl (OtherRunError "unreachable");
     watchInvoke := λ _ _, None |}.

(** The request that the attempt [a] of a run on [req] submits: [req]
    with the machine preemptible up to the preemptible budget. *)
Definition submission (flags : Flags) (req : RunPipelineRequest.t) (a : Z)
  : RunPipelineRequest.t :=
  setPreemptible req (bool_decide (a ≤ pvmAttempts flags)).

(** The attempt [a] is accepted and its operation fails with a retriable
    execution error. *)
Definition retriableFailure (flags : Flags) (world : World)
    (req : RunPipelineRequest.t) (a : Z) : Prop :=
  ∃ lro msg,
    pipelinesRun world a (submission flags req a) = inr lro ∧
    watchInvoke world a lro = Some (PipelineExecutionError true msg).

(** The message of an error of the monitor. *)
Definition watchMessage (w : WatchError) : string :=
  match w with
  | PipelineExecutionError _ msg => msg
  | OtherWatchError msg => msg
  end.

(** A world of 64 bits with no file, in which every submission is
    accepted and the monitor answers [watch a] for the attempt [a]. *)
Definition monitoredWorld (watch : Z → option WatchError) : World :=
  {| uintBits := 64;
     unicode_ToUpper := λ s, s;
     url_Parse := λ s, Some (hostOf s);
     ioutil_ReadFile := λ _, inl "no such file or directory";
     base64_EncodeToString := λ s, s;
     strconv_Quote := λ s, s;
     time_ParseDuration := λ _, inl "invalid duration";
     fmt_Seconds := λ d, pretty (d / 1000000000);
     decodeRequest := λ _, None;
     decodeActions := λ _, None;
     os_Open := λ _, inl "no such file or directory";
     os_Stdin := {| lines := []; scanErr := None |};
     google_DefaultClient := None;
     compute_New := None;
     zonesList := λ _, inr [];
     regionsList := λ _, inr [];
     pipelinesRun := λ _ _, inr "operations/1";
     watchInvoke := λ a _, watch a |}.

(** The first attempt is preempted, the second one succeeds. *)
Definition flakyWorld : World :=
  monitoredWorld (λ a, if decide (a < 2)
                       then Some (PipelineExecutionError true "preempted")
                       else None).

(** The first attempt is preempted, the second one fails for good. *)
Definition failingWorld : World :=
  monitoredWorld (λ a, if decide (a < 2)
                       then Some (PipelineExecutionError true "preempted")
                       else Some (PipelineExecutionError false "exit status 1")).

(** The flags [flags] with [--wait=false]. *)
Definition withoutWait (flags : Flags) : Flags :=
  {| name := name flags; scopes := scopes flags; zones := zones flags;
     regions := regions flags; output := output flags;
     dryRun := dryRun flags; wait := false;
     machineType := machineType flags; inputs := inputs flags;
     outputs := outputs flags; diskSizeGb := diskSizeGb flags;
     diskType := diskType flags; diskImage := diskImage flags;
     bootDiskSizeGb := bootDiskSizeGb flags;
     privateAddress := privateAddress flags;
     cloudSDKImage := cloudSDKImage flags; timeout := timeout flags;
     defaultImage := defaultImage flags; attempts := attempts flags;
     pvmAttempts := pvmAttempts flags; gpus := gpus flags;
     gpuType := gpuType flags; command := command flags;
     fuse := fuse flags; ssh := ssh flags; network := network flags;
     subnetwork := subnetwork flags; sharePIDs := sharePIDs flags;
     cosChannel := cosChannel flags; serviceAccount := serviceAccount flags;
     outputInterval := outputInterval flags;
     environment := environment flags; labels := labels flags;
     vmLabels := vmLabels flags |}.

(** A line of a script that ends in a backslash: it goes on in the next
    line. *)
Definition continued (text : string) : Prop :=
  strings.HasSuffix text "\" = true.

(** A script of four lines: a command over two lines, an empty line and
    a command. *)
Definition continuedScript : Script :=
  {| lines := ["echo a \"; "  b"; EmptyString; "echo c"]; scanErr := None |}.

(** A script whose second command, over two lines, has a [ports] option
    that is no port mapping. *)
Definition badPortsScript : Script :=
  {| lines := ["echo a"; "nc -l \"; "  -p 1234 # ports=1234"];
     scanErr := None |}.

(** The name of a pair of a port mapping: the text before its first
    colon. *)
Definition portName (entry : string) : string :=
  upto (strings.IndexByte entry ":") entry.

(** The machine of a request. *)
Definition machineOf (req : RunPipelineRequest.t) : VirtualMachine.t :=
  Resources.VirtualMachine
    (Pipeline.Resources (RunPipelineRequest.Pipeline req)).

(** An input that can be localized: [url.Parse] accepts it, or it is a
    file that can be read. *)
Definition localizable (world : World) (input : string) : Prop :=
  is_Some (url_Parse world input) ∨
  ∃ raw, ioutil_ReadFile world input = inr raw.

(** A world of 64 bits with the files [files], in which [url.Parse]
    refuses the texts that hold a percent sign (as it refuses a percent
    sign that starts no escape) and accepts the others. *)
Definition localFilesWorld (files : string → option string) : World :=
  {| uintBits := 64;
     unicode_ToUpper := λ s, s;
     url_Parse := λ s, if decide (0 ≤ strings.IndexByte s "%") then None
                       else Some (hostOf s);
     ioutil_ReadFile := λ filename,
       match files filename with
       | Some raw => inr raw
       | None => inl "no such file or directory"
       end;
     base64_EncodeToString := λ s, s;
     strconv_Quote := λ s, s;
     time_ParseDuration := λ _, inl "invalid duration";
     fmt_Seconds := λ d, pretty (d / 1000000000);
     decodeRequest := λ _, None;
     decodeActions := λ _, None;
     os_Open := λ _, inl "no such file or directory";
     os_Stdin := {| lines := []; scanErr := None |};
     google_DefaultClient := None;
     compute_New := None;
     zonesList := λ _, inr [];
     regionsList := λ _, inr [];
     pipelinesRun := λ _ _, inr "operations/1";
     watchInvoke := λ _ _, None |}.

(** The world with no file. *)
Definition noFilesWorld : World := localFilesWorld (λ _, None).

(** The flags [flags] with [--fuse]. *)
Definition withFuse (flags : Flags) : Flags :=
  {| name := name flags; scopes := scopes flags; zones := zones flags;
     regions := regions flags; output := output flags;
     dryRun := dryRun flags; wait := wait flags;
     machineType := machineType flags; inputs := inputs flags;
     outputs := outputs flags; diskSizeGb := diskSizeGb flags;
     diskType := diskType flags; diskImage := diskImage flags;
     bootDiskSizeGb := bootDiskSizeGb flags;
     privateAddress := privateAddress flags;
     cloudSDKImage := cloudSDKImage flags; timeout := timeout flags;
     defaultImage := defaultImage flags; attempts := attempts flags;
     pvmAttempts := pvmAttempts flags; gpus := gpus flags;
     gpuType := gpuType flags; command := command flags;
     fuse := true; ssh := ssh flags; network := network flags;
     subnetwork := subnetwork flags; sharePIDs := sharePIDs flags;
     cosChannel := cosChannel flags; serviceAccount := serviceAccount flags;
     outputInterval := outputInterval flags;
     environment := environment flags; labels := labels flags;
     vmLabels := vmLabels flags |}.

(** The errors that [buildRequest] returns as errors. *)
Definition isBuildError (e : error) : Prop :=
  match e with
  | ErrProcessing _ _ | ErrCreatingPipelineFromFile _
  | ErrCreatingActionFromCommand _ | ErrNoCommandOrInputFile
  | ErrBothZonesAndRegions | ErrExpandingRegions _ | ErrExpandingZones _ =>
      True
  | _ => False
  end.

(** The words of the command of a line: the fields of the text before
    its first [#], or of the whole line when it has none. *)
Definition commandOf (line : string) : list string :=
  let n := strings.IndexByte line "#" in
  strings.Fields
    (strings.TrimSpace (if decide (0 ≤ n) then upto n line else line)).

(** The default flags with one input, one output, a command, and the
    combined output copied to [gs://b/log], every minute while the
    pipeline runs and once at its end. *)
Definition loggingFlags : Flags :=
  {| name := EmptyString; scopes := EmptyString; zones := EmptyString;
     regions := EmptyString; output := "gs://b/log"; dryRun := false;
     wait := true; machineType := "n1-standard-1"; inputs := "gs://b/x";
     outputs := "gs://b/o"; diskSizeGb := 0; diskType := EmptyString;
     diskImage := EmptyString; bootDiskSizeGb := 0; privateAddress := false;
     cloudSDKImage := "gcr.io/cloud-genomics-pipelines/io"; timeout := 0;
     defaultImage := "bash"; attempts := 0; pvmAttempts := 1; gpus := 0;
     gpuType := "nvidia-tesla-k80"; command := "echo hi"; fuse := false;
     ssh := false; network := EmptyString; subnetwork := EmptyString;
     sharePIDs := false; cosChannel := EmptyString;
     serviceAccount := EmptyString; outputInterval := 60000000000;
     environment := ∅; labels := ∅; vmLabels := ∅ |}.




(** The default flags with the command [echo hi] and the attempt budgets
    [P] and [N]. *)
Definition commandFlags (P N : Z) : Flags :=
  exampleFlags EmptyString EmptyString "echo hi" false P N.

(** * Properties *)

(** ** The library functions on examples *)

Section LibraryExamples.

Example Fields_ex :
  strings.Fields "  echo   hi & " = ["echo"; "hi"; "&"].
Proof. reflexivity. Qed.

(** The no-break space U+00A0, in UTF-8, separates fields too. *)
Example Fields_nbsp :
  strings.Fields
    (String "a" (String (ascii_of_nat 194) (String (ascii_of_nat 160) "b")))
  = ["a"; "b"].
Proof. reflexivity. Qed.

Example TrimSpace_ex : strings.TrimSpace "  a b  " = "a b".
Proof. reflexivity. Qed.

Example Split_ex : strings.Split "a:1;b:2" ";" = ["a:1"; "b:2"].
Proof. reflexivity. Qed.

Example Split_empty_ex : strings.Split EmptyString "," = [EmptyString].
Proof. reflexivity. Qed.

Example IndexByte_ex : strings.IndexByte "ports=a:1" "=" = 5.
Proof. reflexivity. Qed.

Example IndexByte_none : strings.IndexByte "cp a b" "#" = -1.
Proof. reflexivity. Qed.

Example TrimRight_ex : strings.TrimRight "gs://b/dir/**" "*" = "gs://b/dir/".
Proof. reflexivity. Qed.

Example ToUpper_ex :
  strings.ToUpper (λ s, s) "always_run" = "ALWAYS_RUN".
Proof. reflexivity. Qed.

Example sort_ex : sort.Strings ["/b"; "/a/b"; "/a"] = ["/a"; "/a/b"; "/b"].
Proof. reflexivity. Qed.

Example path_Join_ex :
  path.Join ["/mnt/google"; ".google"; "tmp"] = "/mnt/google/.google/tmp".
Proof. reflexivity. Qed.

Example path_Join_ex2 : path.Join ["/in"; "b//x/../y/"] = "/in/b/y".
Proof. reflexivity. Qed.

Example path_Dir_ex : path.Dir "/out/b/obj" = "/out/b".
Proof. reflexivity. Qed.

Example path_Dir_ex2 : path.Dir "obj" = ".".
Proof. reflexivity. Qed.

Example path_Clean_ex : path.Clean "../../a/./b/.." = "../../a".
Proof. reflexivity. Qed.

Example gcsJoin_ex :
  gcsJoin ["/mnt/google/.google/input"; "gs://b/dir/"]
  = "/mnt/google/.google/input/b/dir".
Proof. reflexivity. Qed.

Example gcsJoin_remote : gcsJoin ["gs://b/dir/"; "*"] = "gs://b/dir/*".
Proof. reflexivity. Qed.

End LibraryExamples.

(** ** Byte strings: prefixes and the byte-wise order *)

Section StringFacts.

Lemma HasPrefix_refl s : strings.HasPrefix s s = true.
Proof. induction s as [|a s IH]; simpl; [done|]. by rewrite decide_True. Qed.

Lemma HasPrefix_app s p :
  strings.HasPrefix s p = true ↔ ∃ t, s = p +:+ t.
Proof.
  revert s. induction p as [|b p IH]; intros s; simpl.
  - split; [intros _; by exists s|done].
  - destruct s as [|a s].
    + split; [done|]. by intros [t ?].
    + case_decide as Hab.
      * subst b. rewrite IH. split; intros [t Ht]; exists t.
        -- by rewrite Ht.
        -- by injection Ht.
      * split; [done|]. intros [t Ht]. injection Ht as -> _. done.
Qed.

Lemma append_assoc (s t u : string) : (s +:+ t) +:+ u = s +:+ t +:+ u.
Proof.
  induction s as [|a s IH]; [done|].
  change (String a ((s +:+ t) +:+ u) = String a (s +:+ t +:+ u)).
  by rewrite IH.
Qed.

Lemma HasPrefix_trans s p q :
  strings.HasPrefix s p = true → strings.HasPrefix p q = true →
  strings.HasPrefix s q = true.
Proof.
  rewrite !HasPrefix_app. intros [t ->] [u ->]. exists (u +:+ t).
  apply append_assoc.
Qed.

Lemma HasPrefix_length s p :
  strings.HasPrefix s p = true → (String.length p ≤ String.length s)%nat.
Proof.
  revert s. induction p as [|b p IH]; intros [|a s]; simpl; try done; try lia.
  case_decide; [|done]. intros ?%IH. lia.
Qed.

Lemma HasPrefix_antisym s p :
  strings.HasPrefix s p = true → strings.HasPrefix p s = true → s = p.
Proof.
  revert s. induction p as [|b p IH]; intros [|a s]; simpl; try done.
  case_decide; [|done]. subst. rewrite decide_True by done.
  intros. f_equal. by apply IH.
Qed.

Lemma le_String a s b t :
  String.le (String a s) (String b t) ↔
  (Ascii.compare a b = Lt) ∨ (a = b ∧ String.le s t).
Proof.
  unfold String.le, String.leb. simpl.
  destruct (Ascii.compare a b) eqn:Hab.
  - apply Ascii.compare_eq_iff in Hab as ->.
    split; [by right|]. by intros [?|[_ ?]].
  - split; [by left|done].
  - split; [done|]. intros [?|[-> _]]; [done|].
    unfold Ascii.compare in Hab. by rewrite N.compare_refl in Hab.
Qed.

Lemma compare_Lt_irrefl a : Ascii.compare a a ≠ Lt.
Proof. unfold Ascii.compare. by rewrite N.compare_refl. Qed.

Lemma compare_Lt_asym a b :
  Ascii.compare a b = Lt → Ascii.compare b a = Lt → False.
Proof. unfold Ascii.compare. rewrite !N.compare_lt_iff. lia. Qed.

(** A prefix comes first. *)
Lemma HasPrefix_le s p : strings.HasPrefix s p = true → String.le p s.
Proof.
  revert s. induction p as [|b p IH]; intros [|a s]; simpl; try done.
  case_decide; [|done]. subst. intros ?%IH. apply le_String. auto.
Qed.

(** The strings that start with [p] form an interval of the order: what
    lies between [p] and one of them starts with [p] too. *)
Lemma HasPrefix_between p r q :
  String.le p r → String.le r q → strings.HasPrefix q p = true →
  strings.HasPrefix r p = true.
Proof.
  revert r q. induction p as [|a p IH]; intros r q; [done|].
  destruct q as [|b q]; simpl; [done|].
  case_decide; [|done]. subst b.
  destruct r as [|c r]; [done|].
  rewrite !le_String. intros [Hac|[-> Hpr]] [Hca|[Heq Hrq]] Hpre.
  - destruct (compare_Lt_asym _ _ Hac Hca).
  - subst. destruct (compare_Lt_irrefl _ Hac).
  - destruct (compare_Lt_irrefl _ Hca).
  - rewrite decide_True by done. eauto.
Qed.

End StringFacts.

(** ** The directory merger *)

Section DirectoryMerger.

Lemma mkdirStep_snoc kept top directory :
  mkdirStep (kept ++ [top]) directory
  = if strings.HasPrefix directory top then kept ++ [directory]
    else kept ++ [top; directory].
Proof.
  unfold mkdirStep. rewrite last_snoc.
  destruct (strings.HasPrefix directory top).
  - rewrite length_app. simpl.
    replace (pred (length kept + 1)) with (length kept + 0)%nat by lia.
    by rewrite insert_app_r.
  - by rewrite <-app_assoc.
Qed.

Lemma foldl_mkdirStep kept top rest :
  foldl mkdirStep (kept ++ [top]) rest = kept ++ merged top rest.
Proof.
  revert kept top. induction rest as [|d rest IH]; intros kept top; [done|].
  simpl. rewrite mkdirStep_snoc.
  destruct (strings.HasPrefix d top).
  - apply IH.
  - change (kept ++ [top; d]) with (kept ++ [top] ++ [d]).
    rewrite app_assoc, IH. by rewrite <-app_assoc.
Qed.

Lemma mkdirArguments_merged directories :
  mkdirArguments directories
  = match sort.Strings directories with
    | [] => []
    | first :: rest => merged first rest
    end.
Proof.
  unfold mkdirArguments. destruct (sort.Strings directories) as [|d rest]; [done|].
  apply (foldl_mkdirStep [] d rest).
Qed.

Lemma merged_sublist top rest : merged top rest `sublist_of` top :: rest.
Proof.
  revert top. induction rest as [|d rest IH]; intros top; simpl; [done|].
  destruct (strings.HasPrefix d top).
  - by apply sublist_cons.
  - by apply sublist_skip.
Qed.

Lemma merged_spec top rest x :
  StronglySorted String.le (top :: rest) →
  x ∈ merged top rest ↔ x ∈ top :: rest ∧ maximal (top :: rest) x.
Proof.
  revert top. induction rest as [|d rest IH]; intros top Hs.
  { simpl. rewrite list_elem_of_singleton. split.
    - intros ->. split; [done|]. intros r ->%list_elem_of_singleton. done.
    - by intros [? _]. }
  apply StronglySorted_inv in Hs as [Hs Htop].
  specialize (IH d Hs).
  assert (Hup : ∀ y, y ∈ d :: rest → strings.HasPrefix top y = true → top = y).
  { intros y Hy Hpre. apply HasPrefix_le in Hpre.
    apply (anti_symm String.le); [|done].
    rewrite Forall_forall in Htop. by apply Htop. }
  simpl. destruct (strings.HasPrefix d top) eqn:Hd.
  - rewrite IH. split.
    + intros [Hx Hmax]. split; [by apply list_elem_of_further|].
      intros r [->|Hr]%elem_of_cons Hpre; [by apply Hup|by apply Hmax].
    + intros [Hx Hmax].
      assert (x ∈ d :: rest) as Hx'.
      { apply elem_of_cons in Hx as [->|?]; [|done].
        rewrite <-(Hmax d); [left|right; left|done]. }
      split; [done|]. intros r Hr. apply Hmax. by right.
  - rewrite elem_of_cons, IH. split.
    + intros [->|[Hx Hmax]].
      * split; [left|].
        intros r [->|Hr]%elem_of_cons Hpre; [done|].
        exfalso. rewrite Forall_forall in Htop.
        apply StronglySorted_inv in Hs as [_ Hdr].
        rewrite Forall_forall in Hdr.
        apply elem_of_cons in Hr as [->|Hr]; [congruence|].
        assert (strings.HasPrefix d top = true); [|congruence].
        eapply HasPrefix_between; [apply Htop; left|by apply Hdr|done].
      * split; [by right|].
        intros r [->|Hr]%elem_of_cons Hpre; [by apply Hup|by apply Hmax].
    + intros [[->|Hx]%elem_of_cons Hmax]; [by left|right].
      split; [done|]. intros r Hr. apply Hmax. by right.
Qed.

Lemma sort_Strings_sorted l : StronglySorted String.le (sort.Strings l).
Proof. apply StronglySorted_merge_sort; apply _. Qed.

Lemma sort_Strings_elem l x : x ∈ sort.Strings l ↔ x ∈ l.
Proof. unfold sort.Strings. by rewrite merge_sort_Permutation. Qed.

Lemma mkdirArguments_elem directories x :
  x ∈ mkdirArguments directories ↔ x ∈ directories ∧ maximal directories x.
Proof.
  rewrite mkdirArguments_merged.
  pose proof (sort_Strings_sorted directories) as Hs.
  pose proof (sort_Strings_elem directories) as Hel.
  destruct (sort.Strings directories) as [|d rest].
  - split; [by intros ?%elem_of_nil|]. intros [?%Hel%elem_of_nil _]. done.
  - rewrite merged_spec by done. unfold maximal.
    rewrite Hel. split; intros [? Hmax]; (split; [done|]);
      intros r Hr; apply Hmax; by apply Hel.
Qed.

Lemma mkdirArguments_sublist directories :
  mkdirArguments directories `sublist_of` sort.Strings directories.
Proof.
  rewrite mkdirArguments_merged.
  destruct (sort.Strings directories); [done|]. apply merged_sublist.
Qed.

End DirectoryMerger.

Section DirectoryMergerClaims.

Lemma StronglySorted_sublist {A} (R : relation A) (l k : list A) :
  l `sublist_of` k → StronglySorted R k → StronglySorted R l.
Proof.
  induction 1 as [|x l k Hsub IH|x l k Hsub IH]; intros Hs; [done|..].
  - apply StronglySorted_inv in Hs as [Hs Hx].
    constructor; [by apply IH|].
    rewrite Forall_forall in Hx |- *. intros y Hy. apply Hx.
    by apply (sublist_subseteq _ _ Hsub).
  - apply StronglySorted_inv in Hs as [Hs _]. by apply IH.
Qed.

Example mkdirArguments_ex :
  mkdirArguments ["/g/out/b"; "/g/tmp"; "/g/in/b/x"; "/g/in/b"]
  = ["/g/in/b/x"; "/g/out/b"; "/g/tmp"].
Proof. reflexivity. Qed.

Example mkdirArguments_chain :
  mkdirArguments ["/a"; "/a/b"; "/a/b/c"] = ["/a/b/c"].
Proof. reflexivity. Qed.

(** C5, as stated, fails: of two paths of the input one of which is a
    prefix of the other, the longer one need not be in the output.  In
    the input [/a], [/a/b], [/a/b/c] the path [/a] is a prefix of [/a/b],
    and the output [/a/b/c] holds neither of the two. *)
Lemma mkdir_longer_path_dropped :
  ¬ (∀ directories p q,
       p ∈ directories → q ∈ directories → p ≠ q →
       strings.HasPrefix q p = true →
       q ∈ mkdirArguments directories ∧ p ∉ mkdirArguments directories).
Proof.
  intros H.
  destruct (H ["/a"; "/a/b"; "/a/b/c"] "/a" "/a/b") as [Hin _].
  - apply list_elem_of_here.
  - apply list_elem_of_further, list_elem_of_here.
  - discriminate.
  - reflexivity.
  - rewrite mkdirArguments_chain in Hin.
    apply list_elem_of_singleton in Hin. discriminate.
Qed.

(** C5, amended: of two distinct paths of the input one of which is a
    prefix of the other, the output never holds the shorter one, and it
    holds the longer one exactly when that is not itself a proper prefix
    of a path of the input; the output is no longer than the input; the
    output is sorted byte-wise. *)
Theorem mkdirArguments_merge (directories : list string) :
  (∀ p q,
     p ∈ directories → q ∈ directories → p ≠ q →
     strings.HasPrefix q p = true →
     (p ∉ mkdirArguments directories) ∧
     (q ∈ mkdirArguments directories ↔
      ∀ r, r ∈ directories → strings.HasPrefix r q = true → r = q)) ∧
  (length (mkdirArguments directories) ≤ length directories)%nat ∧
  Sorted String.le (mkdirArguments directories).
Proof.
  split; [|split].
  - intros p q Hp Hq Hne Hpre. split.
    + rewrite mkdirArguments_elem. intros [_ Hmax]. apply Hne.
      symmetry. by apply Hmax.
    + rewrite mkdirArguments_elem. unfold maximal.
      split; [by intros [_ ?]|by split].
  - rewrite (sublist_length _ _ (mkdirArguments_sublist directories)).
    unfold sort.Strings. by rewrite merge_sort_Permutation.
  - apply StronglySorted_Sorted.
    eapply StronglySorted_sublist; [apply mkdirArguments_sublist|].
    apply sort_Strings_sorted.
Qed.

(** The merged arguments are what [mkdir] passes on. *)
Lemma mkdir_arguments flags directories :
  directories ≠ [] →
  mkdir flags directories
  = Some (bash flags ["mkdir -p " +:+
                      strings.Join (mkdirArguments directories) " "]).
Proof. by destruct directories. Qed.

End DirectoryMergerClaims.

(** ** The execution controller *)

Section ExecutionController.
Context (flags : Flags) (world : World).

Lemma runPipeline_from_unfold req attempt sent :
  runPipeline_from flags world req attempt sent
  = match attemptOnce flags world req attempt with
    | (req', Return result) => (sent ++ [req'], result)
    | (req', Continue) =>
        runPipeline_from flags world req' (uint world (attempt + 1))
                         (sent ++ [req'])
    end.
Proof.
  rewrite runPipeline_from_equation_1.
  generalize (inspect (attemptOnce flags world req attempt)).
  intros [[req' [result|]] Heq]; simpl; by rewrite Heq.
Qed.

Lemma setPreemptible_twice req b b' :
  setPreemptible (setPreemptible req b) b' = setPreemptible req b'.
Proof. done. Qed.

Lemma isPreemptible_set req b : isPreemptible (setPreemptible req b) = b.
Proof. done. Qed.

(** An attempt below the budget is followed by the next number: the
    counter does not wrap around. *)
Lemma uint_next attempt :
  0 ≤ attempt < budget flags world → uint world (attempt + 1) = attempt + 1.
Proof.
  unfold budget, uint. intros Hlt.
  destruct (Z.eq_dec (2 ^ uintBits world) 0) as [Hz|Hz].
  { by rewrite Hz, Z.mod_0_r. }
  assert (0 < 2 ^ uintBits world)
    by (pose proof (Z.pow_nonneg 2 (uintBits world)); lia).
  pose proof (Z.mod_pos_bound (pvmAttempts flags + attempts flags)
                (2 ^ uintBits world) ltac:(lia)).
  apply Z.mod_small. lia.
Qed.

Lemma attemptOnce_retriable req attempt :
  wait flags = true → allRetriable world →
  ∃ lro msg,
    attemptOnce flags world req attempt
    = (setPreemptible req (bool_decide (attempt ≤ pvmAttempts flags)),
       if bool_decide (attempt < budget flags world) then Continue
       else Return (Some (ErrOperationFailed lro msg))).
Proof.
  intros Hwait [Hrun Hwatch]. unfold attemptOnce.
  destruct (Hrun attempt
              (setPreemptible req (bool_decide (attempt ≤ pvmAttempts flags))))
    as [lro ->].
  destruct (Hwatch attempt lro) as [msg ->].
  exists lro, msg. rewrite Hwait. simpl. fold (budget flags world).
  by destruct (bool_decide (attempt < budget flags world)).
Qed.

(** The requests that the loop submits from [attempt] on, when every
    attempt fails with a retriable error: one per attempt up to the
    budget, and one in any case. *)
Lemma runPipeline_from_retriable req attempt sent :
  wait flags = true → allRetriable world → 0 ≤ attempt →
  (runPipeline_from flags world req attempt sent).1
  = sent ++
    ((λ a, setPreemptible req (bool_decide (a ≤ pvmAttempts flags)))
       <$> seqZ attempt (Z.max 1 (budget flags world - attempt + 1))) ∧
  is_Some (runPipeline_from flags world req attempt sent).2.
Proof.
  intros Hwait Hall.
  remember (Z.to_nat (budget flags world - attempt)) as n eqn:Hn.
  revert req attempt sent Hn.
  induction n as [|n IH]; intros req attempt sent Hn Hpos;
    rewrite runPipeline_from_unfold;
    destruct (attemptOnce_retriable req attempt Hwait Hall) as (lro & msg & ->).
  - rewrite bool_decide_false by lia.
    replace (Z.max 1 (budget flags world - attempt + 1)) with 1 by lia.
    split; [done|]. by eexists.
  - rewrite bool_decide_true by lia.
    rewrite uint_next by lia.
    destruct (IH (setPreemptible req (bool_decide (attempt ≤ pvmAttempts flags)))
                (attempt + 1) (sent ++ [setPreemptible req
                   (bool_decide (attempt ≤ pvmAttempts flags))]))
      as [-> Hres]; [lia..|].
    split; [|done].
    rewrite (seqZ_cons attempt (Z.max 1 (budget flags world - attempt + 1)))
      by lia.
    replace (Z.pred (Z.max 1 (budget flags world - attempt + 1)))
      with (Z.max 1 (budget flags world - (attempt + 1) + 1)) by lia.
    replace (Z.succ attempt) with (attempt + 1) by lia.
    by rewrite <-app_assoc.
Qed.

(** The submissions of a run in which every attempt fails with a
    retriable error. *)
Lemma runPipeline_retriable req :
  wait flags = true → allRetriable world →
  (runPipeline flags world req).1
  = (λ a, setPreemptible req (bool_decide (a ≤ pvmAttempts flags)))
      <$> seqZ 1 (Z.max 1 (budget flags world)) ∧
  is_Some (runPipeline flags world req).2.
Proof.
  intros Hwait Hall. unfold runPipeline.
  destruct (runPipeline_from_retriable req 1 [] Hwait Hall) as [-> ?]; [lia|].
  split; [|done]. simpl. do 2 f_equal. lia.
Qed.

End ExecutionController.

Lemma retriableWorld_allRetriable : allRetriable retriableWorld.
Proof. split; intros; eexists; reflexivity. Qed.

Example runPipeline_two_and_one :
  isPreemptible <$> (runPipeline (withAttempts 2 1) retriableWorld emptyRequest).1
  = [true; true; false].
Proof. reflexivity. Qed.

Example runPipeline_none_and_two :
  isPreemptible <$> (runPipeline (withAttempts 0 2) retriableWorld emptyRequest).1
  = [false; false].
Proof. reflexivity. Qed.

Section RetryBudget.

(** C1, as stated, fails where the sum of the two budgets does not fit a
    [uint]: with a preemptible budget of 2^64 - 1 and a non-preemptible
    budget of 1, on a platform of 64 bits, the loop compares the attempt
    with the wrapped sum 0 and gives up after the first submission. *)
Lemma retry_budget_wraps_around :
  wait (withAttempts (2 ^ 64 - 1) 1) = true ∧
  allRetriable retriableWorld ∧
  0 < pvmAttempts (withAttempts (2 ^ 64 - 1) 1)
      + attempts (withAttempts (2 ^ 64 - 1) 1) ∧
  length (runPipeline (withAttempts (2 ^ 64 - 1) 1)
                      retriableWorld emptyRequest).1 = 1%nat ∧
  Z.of_nat (length (runPipeline (withAttempts (2 ^ 64 - 1) 1)
                                retriableWorld emptyRequest).1)
  ≠ pvmAttempts (withAttempts (2 ^ 64 - 1) 1)
    + attempts (withAttempts (2 ^ 64 - 1) 1).
Proof.
  split; [done|]. split; [apply retriableWorld_allRetriable|].
  split; [done|].
  destruct (runPipeline_retriable (withAttempts (2 ^ 64 - 1) 1) retriableWorld
              emptyRequest eq_refl retriableWorld_allRetriable) as [-> _].
  rewrite length_fmap, length_seqZ. split; by vm_compute.
Qed.

(** C1, amended: when the two budgets P and N are not negative, their sum
    is positive and fits a [uint], the tool waits, and every attempt ends
    in a retriable error, then exactly P+N requests are submitted, each of
    the first P of them marks the machine preemptible, the (P+1)-th, if
    there is one, marks it non-preemptible, and the run ends in an
    error. *)
Theorem runPipeline_retry_budget (flags : Flags) (world : World)
    (req : RunPipelineRequest.t) :
  0 ≤ pvmAttempts flags → 0 ≤ attempts flags →
  0 < pvmAttempts flags + attempts flags →
  pvmAttempts flags + attempts flags < 2 ^ uintBits world →
  wait flags = true → allRetriable world →
  Z.of_nat (length (runPipeline flags world req).1)
  = pvmAttempts flags + attempts flags ∧
  (∀ k r, Z.of_nat k < pvmAttempts flags →
          (runPipeline flags world req).1 !! k = Some r →
          isPreemptible r = true) ∧
  (∀ r, (runPipeline flags world req).1 !! Z.to_nat (pvmAttempts flags) = Some r →
        isPreemptible r = false) ∧
  is_Some (runPipeline flags world req).2.
Proof.
  intros HP HN Hpos Hfit Hwait Hall.
  destruct (runPipeline_retriable flags world req Hwait Hall) as [-> Hres].
  assert (budget flags world = pvmAttempts flags + attempts flags) as ->.
  { unfold budget, uint. apply Z.mod_small. lia. }
  split; [|split; [|split; [|done]]].
  - rewrite length_fmap, length_seqZ. lia.
  - intros k r Hk. rewrite list_lookup_fmap.
    intros [a [Ha ->]]%fmap_Some. apply lookup_seqZ in Ha as [-> _].
    rewrite isPreemptible_set. apply bool_decide_eq_true. lia.
  - intros r. rewrite list_lookup_fmap.
    intros [a [Ha ->]]%fmap_Some. apply lookup_seqZ in Ha as [-> _].
    rewrite isPreemptible_set. apply bool_decide_eq_false. lia.
Qed.

Lemma runPipeline_retry_budget_witness :
  Z.of_nat (length (runPipeline (withAttempts 2 1) retriableWorld emptyRequest).1)
  = 3 ∧
  (∀ k r, Z.of_nat k < 2 →
          (runPipeline (withAttempts 2 1) retriableWorld emptyRequest).1 !! k
          = Some r →
          isPreemptible r = true) ∧
  (∀ r, (runPipeline (withAttempts 2 1) retriableWorld emptyRequest).1 !! 2%nat
        = Some r →
        isPreemptible r = false) ∧
  is_Some (runPipeline (withAttempts 2 1) retriableWorld emptyRequest).2.
Proof.
  apply (runPipeline_retry_budget (withAttempts 2 1) retriableWorld emptyRequest).
  - simpl. lia.
  - simpl. lia.
  - simpl. lia.
  - simpl. lia.
  - reflexivity.
  - split; intros; eexists; reflexivity.
Defined.

End RetryBudget.

(** ** Numbers: [strconv.ParseInt] reads the decimal notation *)

Section Numbers.

Lemma is_nat_bound c d : Ascii.is_nat c = Some d → (d ≤ 9)%nat.
Proof.
  destruct c as [[] [] [] [] [] [] [] []]; simpl; intros [= <-]; lia.
Qed.

Lemma decimal_go_ge m s v : 0 ≤ m → decimal_go m s = Some v → m ≤ v.
Proof.
  revert m. induction s as [|c s IH]; intros m Hm; simpl.
  - intros [= <-]. lia.
  - destruct (Ascii.is_nat c) as [d|]; [|done].
    intros Hv%IH; lia.
Qed.

Lemma ParseUint_go_decimal n s v :
  0 ≤ n ≤ strconv.maxUint64 →
  strconv.ParseUint_go n s = inr v ↔
  decimal_go n s = Some v ∧ v ≤ strconv.maxUint64.
Proof.
  revert n. induction s as [|c s IH]; intros n Hn; simpl.
  - split; [intros [= <-]; split; [done|lia]|]. by intros [[= <-] _].
  - destruct (Ascii.is_nat c) as [d|] eqn:Hd; [|by split; [|intros [? _]]].
    apply is_nat_bound in Hd.
    change (strconv.maxUint64 / 10 + 1) with 1844674407370955162.
    change strconv.maxUint64 with 18446744073709551615 in *.
    case_decide as Hcut.
    { split; [done|]. intros [Hv Hmax]. apply decimal_go_ge in Hv; lia. }
    case_decide as Hover.
    { split; [done|]. intros [Hv Hmax]. apply decimal_go_ge in Hv; lia. }
    apply IH. lia.
Qed.

Lemma ParseUint_decimal s v :
  s ≠ EmptyString →
  strconv.ParseUint s = inr v ↔
  decimal_go 0 s = Some v ∧ v ≤ strconv.maxUint64.
Proof.
  intros Hs. unfold strconv.ParseUint. destruct s; [done|].
  apply ParseUint_go_decimal. by vm_compute.
Qed.

Lemma ParseInt_decimal s n :
  strconv.ParseInt s = inr n ↔
  decimal s = Some n ∧ - 2 ^ 63 ≤ n < 2 ^ 63.
Proof.
  unfold strconv.ParseInt, decimal.
  destruct s as [|c rest]; [by split; [|intros [? _]]|].
  assert (Hsign : ∀ body m,
             body ≠ EmptyString →
             ∀ neg : bool,
             match strconv.ParseUint body with
             | inl strconv.ErrSyntax =>
                 inl {| strconv.Func := "ParseInt"; strconv.Num := String c rest;
                        strconv.Err := strconv.ErrSyntax |}
             | inl strconv.ErrRange =>
                 inl {| strconv.Func := "ParseInt"; strconv.Num := String c rest;
                        strconv.Err := strconv.ErrRange |}
             | inr un =>
                 if negb neg && bool_decide (2 ^ 63 ≤ un)
                 then inl {| strconv.Func := "ParseInt";
                             strconv.Num := String c rest;
                             strconv.Err := strconv.ErrRange |}
                 else if neg && bool_decide (2 ^ 63 < un)
                 then inl {| strconv.Func := "ParseInt";
                             strconv.Num := String c rest;
                             strconv.Err := strconv.ErrRange |}
                 else inr (if neg then - un else un)
             end = inr m ↔
             (if neg then Z.opp <$> decimal_go 0 body else decimal_go 0 body)
             = Some m ∧ - 2 ^ 63 ≤ m < 2 ^ 63).
  { intros body m Hbody neg.
    pose proof (ParseUint_decimal body) as Hu.
    destruct (strconv.ParseUint body) as [k|un] eqn:Hp.
    - assert (∀ v, decimal_go 0 body = Some v → strconv.maxUint64 < v) as Hbig.
      { intros v Hv. destruct (decide (v ≤ strconv.maxUint64)); [|lia].
        discriminate (proj2 (Hu v Hbody) (conj Hv ltac:(done))). }
      change strconv.maxUint64 with 18446744073709551615 in *.
      change (2 ^ 63) with 9223372036854775808.
      split; [by destruct k|].
      destruct (decimal_go 0 body) as [v|]; [|by destruct neg; intros [? _]].
      specialize (Hbig v eq_refl).
      destruct neg; simpl; intros [[= <-] ?]; lia.
    - destruct (proj1 (Hu un Hbody) eq_refl) as [Hv Hmax]. rewrite Hv.
      change (2 ^ 63) with 9223372036854775808.
      assert (0 ≤ un) by (by apply (decimal_go_ge 0 body)).
      destruct neg; simpl; repeat case_bool_decide; simpl.
      all: split.
      all: try (intros [= <-]; split; [done|lia]).
      all: try (intros [[= <-] ?]; lia).
      all: try done.
      all: try (intros [[= <-] ?]; done). }
  destruct (decide (c = "-"%char)) as [->|Hminus].
  { rewrite decide_True by (by right). rewrite bool_decide_true by done.
    destruct rest as [|c' rest']; [by split; [|intros [? _]]|].
    by apply (Hsign (String c' rest') n ltac:(done) true). }
  rewrite bool_decide_false by done.
  destruct (decide (c = "+"%char)) as [->|Hplus].
  { rewrite decide_True by (by left).
    destruct rest as [|c' rest']; [by split; [|intros [? _]]|].
    by apply (Hsign (String c' rest') n ltac:(done) false). }
  rewrite decide_False by (intros [?|?]; done).
  by apply (Hsign (String c rest) n ltac:(done) false).
Qed.

Example ParseInt_ex1 : strconv.ParseInt "22" = inr 22.
Proof. reflexivity. Qed.

Example ParseInt_ex2 : strconv.ParseInt "-1" = inr (-1).
Proof. reflexivity. Qed.

Example ParseInt_ex3 :
  strconv.ParseInt "9223372036854775808"
  = inl {| strconv.Func := "ParseInt"; strconv.Num := "9223372036854775808";
           strconv.Err := strconv.ErrRange |}.
Proof. reflexivity. Qed.

Example ParseInt_ex4 : strconv.ParseInt "-9223372036854775808" = inr (- 2 ^ 63).
Proof. reflexivity. Qed.

Example ParseInt_ex5 :
  strconv.ParseInt "1_000"
  = inl {| strconv.Func := "ParseInt"; strconv.Num := "1_000";
           strconv.Err := strconv.ErrSyntax |}.
Proof. reflexivity. Qed.

End Numbers.

(** ** The script parser *)

Section ScriptParser.
Context (flags : Flags) (world : World).

(** [parse] never returns a nil action together with a nil error: the
    test [action != nil] of [parseFile] always succeeds. *)
Lemma parse_never_nil line : parse flags world line ≠ inr None.
Proof.
  unfold parse.
  destruct (decide (0 ≤ strings.IndexByte line "#")); simpl;
    (destruct (strings.Fields _); simpl;
     [|case_decide; simpl]);
    (destruct (_ !! "timeout"); simpl;
     [destruct (time_ParseDuration _ _); simpl; [done|]|]);
    (destruct (_ !! "ports"); simpl; [destruct (parsePorts _); simpl|]);
    done.
Qed.

(** A line with no [#] and no command token is parsed to [blankAction]. *)
Lemma parse_blank line :
  strings.IndexByte line "#" < 0 →
  strings.Fields (strings.TrimSpace line) = [] →
  parse flags world line = inr (Some (blankAction flags)).
Proof.
  intros Hn Hf. unfold parse.
  rewrite decide_False by lia. simpl. rewrite Hf. simpl.
  by rewrite !lookup_empty.
Qed.

Lemma parse_blank_spaces :
  parse flags world "   " = inr (Some (blankAction flags)).
Proof. apply parse_blank; [by vm_compute|reflexivity]. Qed.

(** C2, evaluated on the script [script.sh], whose second line is blank:
    the blank line is not skipped, it adds an action with no command to
    the list. *)
Theorem parseFile_blank_line :
  parseFile flags scriptWorld "script.sh"
  = inr [ {| Action.ImageUri := defaultImage flags;
             Action.Commands := ["-c"; "echo a"];
             Action.Entrypoint := "bash";
             Action.Flags := [];
             Action.Mounts := [googleRoot];
             Action.PortMappings := ∅;
             Action.Timeout := EmptyString;
             Action.PidNamespace := EmptyString |};
          {| Action.ImageUri := defaultImage flags;
             Action.Commands := [];
             Action.Entrypoint := EmptyString;
             Action.Flags := [];
             Action.Mounts := [googleRoot];
             Action.PortMappings := ∅;
             Action.Timeout := EmptyString;
             Action.PidNamespace := EmptyString |};
          {| Action.ImageUri := defaultImage flags;
             Action.Commands := ["-c"; "echo b"];
             Action.Entrypoint := "bash";
             Action.Flags := [];
             Action.Mounts := [googleRoot];
             Action.PortMappings := ∅;
             Action.Timeout := EmptyString;
             Action.PidNamespace := EmptyString |} ].
Proof. reflexivity. Qed.

(** The same for the empty line. *)
Lemma scanScript_empty_line :
  scanScript flags world {| lines := [EmptyString]; scanErr := None |}
  = inr [blankAction flags].
Proof. reflexivity. Qed.

(** C8: the action of the line of the example. *)
Theorem parse_example :
  parse flags world "echo hi &  # ports=a:1;b:2 image=foo"
  = inr (Some {| Action.ImageUri := "foo";
                 Action.Commands := ["-c"; "echo hi"];
                 Action.Entrypoint := "bash";
                 Action.Flags := ["RUN_IN_BACKGROUND"];
                 Action.Mounts := [googleRoot];
                 Action.PortMappings := {[ "a" := 1; "b" := 2 ]};
                 Action.Timeout := EmptyString;
                 Action.PidNamespace := EmptyString |}).
Proof. reflexivity. Qed.

(** *** Port mappings *)

Lemma acceptedPair_ParseInt entry :
  acceptedPair entry ↔
  1 ≤ strings.IndexByte entry ":" ∧
  ∃ n, strconv.ParseInt (portText entry) = inr n.
Proof.
  unfold acceptedPair. split; intros [Hi [n Hn]]; (split; [done|]); exists n.
  - by apply ParseInt_decimal.
  - by apply ParseInt_decimal in Hn.
Qed.

Lemma parsePorts_loop_ok ports pairs :
  (∃ m, parsePorts_loop ports pairs = inr m) ↔ Forall acceptedPair pairs.
Proof.
  revert ports. induction pairs as [|entry rest IH]; intros ports; simpl.
  - split; [constructor|by eexists].
  - rewrite Forall_cons, acceptedPair_ParseInt. unfold portText.
    case_decide as Hi.
    + split; [by intros [? ?]|]. intros [[? _] _]. lia.
    + destruct (strconv.ParseInt _) as [e|n] eqn:Hn.
      * split; [by intros [? ?]|]. by intros [[_ [? ?]] _].
      * rewrite IH. split; [|by intros [_ ?]].
        intros ?. split; [|done]. split; [lia|by eexists].
Qed.

Lemma ParseInt_error s e :
  strconv.ParseInt s = inl e →
  ∃ kind, e = {| strconv.Func := "ParseInt"; strconv.Num := s;
                 strconv.Err := kind |}.
Proof.
  unfold strconv.ParseInt. destruct s as [|c rest]; simpl.
  { intros [= <-]. by eexists. }
  destruct (strconv.ParseUint _) as [[]|un]; simpl.
  1,2: intros [= <-]; by eexists.
  repeat case_match; intros [= <-] || intros [=]; by eexists.
Qed.

Lemma parsePorts_loop_error ports pairs e :
  parsePorts_loop ports pairs = inl e →
  ∃ before entry after,
    pairs = before ++ entry :: after ∧
    Forall acceptedPair before ∧ ¬ acceptedPair entry ∧ pairError entry e.
Proof.
  revert ports. induction pairs as [|entry rest IH]; intros ports; simpl; [done|].
  case_decide as Hi.
  - intros [= <-]. exists [], entry, rest. split; [done|]. split; [constructor|].
    split; [intros [? _]; lia|]. by left.
  - destruct (strconv.ParseInt _) as [ne|n] eqn:Hn.
    + intros [= <-]. exists [], entry, rest. split; [done|]. split; [constructor|].
      split.
      * intros [_ [m Hm]]%acceptedPair_ParseInt. unfold portText in Hm.
        congruence.
      * right. split; [lia|].
        destruct (ParseInt_error _ _ Hn) as [kind ->]. by exists kind.
    + intros (before & bad & after & -> & Hok & Hbad & Herr)%IH.
      exists (entry :: before), bad, after. split; [done|].
      split; [|done]. constructor; [|done].
      apply acceptedPair_ParseInt. split; [lia|]. by exists n.
Qed.

(** A [ports] option that [parsePorts] refuses makes [parse] fail: with
    the error of [parsePorts], or with the error of the [timeout] option,
    which is read first. *)
Lemma parse_ports_error line v e :
  optionsOf world line !! "ports" = Some v → parsePorts v = inl e →
  parse flags world line = inl (ErrParsingPorts e) ∨
  ∃ msg, parse flags world line = inl (ErrParsingActionTimeout msg).
Proof.
  unfold optionsOf, parse.
  destruct (decide (0 ≤ strings.IndexByte line "#")); simpl;
    [|by rewrite lookup_empty].
  intros Hv He.
  destruct (strings.Fields (strings.TrimSpace (upto _ line))); simpl;
    [|case_decide; simpl];
    (destruct (_ !! "timeout"); simpl;
     [destruct (time_ParseDuration _ _); simpl; [right; by eexists|]|]);
    rewrite Hv; simpl; rewrite He; by left.
Qed.

Example parsePorts_ex :
  parsePorts "a:1;b:2" = inr {[ "a" := 1; "b" := 2 ]}.
Proof. reflexivity. Qed.

Example parsePorts_missing_colon :
  parsePorts "a:1;b" = inl (ErrInvalidPortMapping "b").
Proof. reflexivity. Qed.

Example parsePorts_leading_colon :
  parsePorts ":1" = inl (ErrInvalidPortMapping ":1").
Proof. reflexivity. Qed.

Example parsePorts_not_a_number :
  parsePorts "a:x1"
  = inl (ErrParsingHostPort {| strconv.Func := "ParseInt";
                               strconv.Num := "x1";
                               strconv.Err := strconv.ErrSyntax |}).
Proof. reflexivity. Qed.

(** C7, as stated, fails: a pair whose port text is a negative number is
    accepted, and the port of the mapping is that negative number. *)
Lemma parsePorts_negative_port :
  parsePorts "a:-1" = inr {[ "a" := -1 ]} ∧
  strconv.ParseInt (portText "a:-1") = inr (-1).
Proof. split; reflexivity. Qed.

(** C7, amended: [parsePorts] succeeds exactly when, in every pair of the
    semicolon separated list, the first colon is at offset 1 or more and
    the text after it is read by [ParseInt] in base 10 and 64 bits (an
    optional sign and decimal digits, a negative number included); when
    it fails, the error is that of the first pair that is not so, and it
    quotes that pair when the colon is missing or first, and the text
    after the colon when that is not such a number; and a line whose
    [ports] option [parsePorts] refuses is not parsed. *)
Theorem parsePorts_accepts (input : string) :
  ((∃ ports, parsePorts input = inr ports) ↔
   Forall acceptedPair (strings.Split input ";")) ∧
  (∀ e, parsePorts input = inl e →
        ∃ before entry after,
          strings.Split input ";" = before ++ entry :: after ∧
          Forall acceptedPair before ∧ ¬ acceptedPair entry ∧
          pairError entry e) ∧
  (∀ line e, optionsOf world line !! "ports" = Some input →
             parsePorts input = inl e →
             ∃ e', parse flags world line = inl e').
Proof.
  split; [apply parsePorts_loop_ok|]. split; [apply parsePorts_loop_error|].
  intros line e Hv He.
  destruct (parse_ports_error line input e Hv He) as [?|[? ?]]; by eexists.
Qed.

End ScriptParser.

(** ** The request assembler: scopes and disks *)

Section Scopes.
Context (flags : Flags).

Lemma addRequiredScopes_loop_exists scopes_ actions :
  addRequiredScopes_loop flags scopes_ actions
  = scopes_ ++
    (if existsb (needsStorage flags) actions then [storageScope] else []).
Proof.
  induction actions as [|action rest IH]; simpl.
  - by rewrite app_nil_r.
  - by destruct (needsStorage flags action).
Qed.

Lemma addRequiredScopes_loop_first scopes_ before action after :
  Forall (λ a, needsStorage flags a = false) before →
  needsStorage flags action = true →
  addRequiredScopes_loop flags scopes_ (before ++ action :: after)
  = scopes_ ++ [storageScope].
Proof.
  induction 1 as [|a before Ha _ IH]; intros Hq; simpl.
  - by rewrite Hq.
  - rewrite Ha. by apply IH.
Qed.

Example needsStorage_image :
  needsStorage flags (bash flags ["true"]) = true.
Proof. unfold needsStorage. simpl. by rewrite bool_decide_true. Qed.

(** C6: the scopes of the service account after [addRequiredScopes] are
    those before, followed by the storage scope once when some action
    runs in the cloud SDK image or has [gsutil] or [gcloud] as its first
    command, and by nothing otherwise; what comes after the first such
    action has no part in the result. *)
Theorem addRequiredScopes_at_most_once (actions : list Action.t)
    (vm : VirtualMachine.t) :
  ServiceAccount.Scopes
    (VirtualMachine.ServiceAccount (addRequiredScopes flags actions vm))
  = ServiceAccount.Scopes (VirtualMachine.ServiceAccount vm) ++
    (if existsb
          (λ action,
             bool_decide (Action.ImageUri action = cloudSDKImage flags)
             || match Action.Commands action with
                | first :: _ => isCloudCommand first
                | [] => false
                end)
          actions
     then ["https://www.googleapis.com/auth/devstorage.read_write"]
     else []) ∧
  (∀ before action after after',
     actions = before ++ action :: after →
     Forall (λ a, needsStorage flags a = false) before →
     needsStorage flags action = true →
     addRequiredScopes flags (before ++ action :: after') vm
     = addRequiredScopes flags actions vm) ∧
  (Forall (λ a, needsStorage flags a = false) actions →
   addRequiredScopes flags actions vm = vm).
Proof.
  split; [apply addRequiredScopes_loop_exists|]. split.
  - intros before action after after' -> Hb Ha. unfold addRequiredScopes.
    by rewrite !addRequiredScopes_loop_first.
  - intros Hall. unfold addRequiredScopes.
    rewrite addRequiredScopes_loop_exists.
    assert (existsb (needsStorage flags) actions = false) as ->.
    { induction Hall as [|a l Ha _ IH]; simpl; [done|]. by rewrite Ha. }
    rewrite app_nil_r. by destruct vm as [? ? [] ? ? ? ? ? ?].
Qed.

End Scopes.

Section Disks.
Context (flags : Flags).

Lemma mounts_fold (disks : gmap string bool) mounts name :
  is_Some (foldl (λ disks mount, <[Mount.Disk mount := true]> disks)
                 disks mounts !! name) ↔
  is_Some (disks !! name) ∨ ∃ mount, mount ∈ mounts ∧ Mount.Disk mount = name.
Proof.
  revert disks. induction mounts as [|mount rest IH]; intros disks; simpl.
  - split; [by left|]. intros [?|(? & []%elem_of_nil & _)]. done.
  - rewrite IH, lookup_insert_is_Some. split.
    + intros [[Heq|[_ ?]]|(m & Hm & Heq)].
      * right. exists mount. split; [left|done].
      * by left.
      * right. exists m. split; [by right|done].
    + intros [?|(m & [->|Hm]%elem_of_cons & Heq)].
      * destruct (decide (Mount.Disk mount = name)); [left; by left|].
        left. by right.
      * left. by left.
      * right. by exists m.
Qed.

Lemma actions_fold (disks : gmap string bool) actions name :
  is_Some (foldl (λ disks action,
                    foldl (λ disks mount, <[Mount.Disk mount := true]> disks)
                          disks (Action.Mounts action))
                 disks actions !! name) ↔
  is_Some (disks !! name) ∨ mounted actions name.
Proof.
  revert disks. induction actions as [|action rest IH]; intros disks; simpl.
  - split; [by left|]. intros [?|(? & ? & []%elem_of_nil & _)]. done.
  - rewrite IH, mounts_fold. unfold mounted. split.
    + intros [[?|(m & Hm & Heq)]|(a & m & Ha & Hm & Heq)].
      * by left.
      * right. exists action, m. split; [left|done].
      * right. exists a, m. split; [by right|done].
    + intros [?|(a & m & [->|Ha]%elem_of_cons & Hm & Heq)].
      * left. by left.
      * left. right. by exists m.
      * right. by exists a, m.
Qed.

Lemma requiredDisks_mounted actions name :
  is_Some (requiredDisks actions !! name) ↔ mounted actions name.
Proof.
  unfold requiredDisks. rewrite actions_fold, lookup_empty.
  split; [|by right]. intros [[? [=]]|?]. done.
Qed.

Lemma canonicalOrders_admissible : admissible canonicalOrders.
Proof. by repeat split. Qed.

Lemma reversedOrders_admissible : admissible reversedOrders.
Proof. repeat split; intros m; apply reverse_Permutation. Qed.

(** C9, amended: for every admissible order of the loop over the map of
    disk names, the disks that [addRequiredDisks] appends to those of
    the machine are one for each disk name that a mount of an action
    refers to, each name once; their order is that of the loop, which Go
    does not determine. *)
Theorem addRequiredDisks_distinct (orders : MapOrders)
    (actions : list Action.t) (vm : VirtualMachine.t) :
  admissible orders →
  ∃ names,
    VirtualMachine.Disks (addRequiredDisks flags orders actions vm)
    = VirtualMachine.Disks vm ++ (newDisk flags <$> names) ∧
    NoDup names ∧
    (∀ name, name ∈ names ↔
             ∃ action mount,
               action ∈ actions ∧ mount ∈ Action.Mounts action ∧
               Mount.Disk mount = name) ∧
    names ≡ₚ (map_to_list (requiredDisks actions)).*1.
Proof.
  intros (_ & _ & _ & _ & Hdisks). exists (addedDisks orders actions).
  specialize (Hdisks (requiredDisks actions)).
  assert (addedDisks orders actions ≡ₚ (map_to_list (requiredDisks actions)).*1)
    as Hperm by (unfold addedDisks; by rewrite Hdisks).
  split; [done|]. split; [|split; [|done]].
  - rewrite Hperm. apply NoDup_fst_map_to_list.
  - intros name. rewrite Hperm. fold (mounted actions name).
    rewrite <-requiredDisks_mounted, list_elem_of_fmap. split.
    + intros [[k v] [-> Hkv%elem_of_map_to_list]]. by exists v.
    + intros [v Hv]. exists (name, v). split; [done|].
      by apply elem_of_map_to_list.
Qed.

End Disks.

(** C9, as stated, fails: the order of the disks is that of a loop over a
    Go map, which is not determined.  For the actions file [actions.json],
    whose action mounts the disk [data], two admissible orders of that
    loop give the request two different disk lists; in the second one the
    disk [google], which the first action mounts, comes last. *)
Lemma disk_order_not_determined :
  admissible canonicalOrders ∧ admissible reversedOrders ∧
  ∃ req1 req2,
    buildRequest defaultFlags actionsFileWorld canonicalOrders
                 "actions.json" "project" = inr req1 ∧
    buildRequest defaultFlags actionsFileWorld reversedOrders
                 "actions.json" "project" = inr req2 ∧
    Action.Mounts <$> Pipeline.Actions (RunPipelineRequest.Pipeline req1)
    = [ [{| Mount.Disk := "google"; Mount.Path := "/mnt/google" |}];
        [{| Mount.Disk := "data"; Mount.Path := "/data" |}] ] ∧
    Pipeline.Actions (RunPipelineRequest.Pipeline req1)
    = Pipeline.Actions (RunPipelineRequest.Pipeline req2) ∧
    diskNames req1 = ["google"; "data"] ∧
    diskNames req2 = ["data"; "google"].
Proof.
  split; [apply canonicalOrders_admissible|].
  split; [apply reversedOrders_admissible|].
  do 2 eexists. split; [vm_compute; reflexivity|].
  split; [vm_compute; reflexivity|]. by vm_compute.
Qed.

Lemma addRequiredDisks_distinct_witness :
  ∃ names,
    VirtualMachine.Disks
      (addRequiredDisks defaultFlags canonicalOrders twoDiskActions
         (newVirtualMachine defaultFlags))
    = VirtualMachine.Disks (newVirtualMachine defaultFlags) ++
      (newDisk defaultFlags <$> names) ∧
    NoDup names ∧
    (∀ name, name ∈ names ↔
             ∃ action mount,
               action ∈ twoDiskActions ∧ mount ∈ Action.Mounts action ∧
               Mount.Disk mount = name) ∧
    names ≡ₚ (map_to_list (requiredDisks twoDiskActions)).*1.
Proof.
  apply (addRequiredDisks_distinct defaultFlags canonicalOrders twoDiskActions
           (newVirtualMachine defaultFlags)).
  repeat split; intros m; reflexivity.
Defined.

(** ** The localization planner: specifier lists *)

Section Specifiers.

Lemma namedListOf_step_specifier defaultPrefix output n input :
  namedListOf_step defaultPrefix output (n, input)
  = match specifier defaultPrefix n input with
    | Some (path, name) => <[path := name]> output
    | None => output
    end.
Proof. unfold namedListOf_step, specifier. by repeat case_decide. Qed.

Lemma namedList_snoc defaultPrefix l input :
  namedList defaultPrefix (l ++ [input])
  = namedListOf_step defaultPrefix (namedList defaultPrefix l)
      (length l, input).
Proof.
  unfold namedList. rewrite imap_app, foldl_app. simpl.
  by rewrite Nat.add_0_r.
Qed.

Lemma namedList_lookup defaultPrefix l path name :
  namedList defaultPrefix l !! path = Some name ↔
  lastSpecifier defaultPrefix l path name.
Proof.
  revert name. induction l as [|input l IH] using rev_ind; intros name.
  { unfold namedList, lastSpecifier. simpl. rewrite lookup_empty.
    split; [done|]. by intros (n & s & ? & _). }
  rewrite namedList_snoc, namedListOf_step_specifier.
  destruct (specifier defaultPrefix (length l) input) as [[p nm]|] eqn:Hsp.
  - destruct (decide (p = path)) as [->|Hne].
    + rewrite lookup_insert_eq. split.
      * intros [= <-]. exists (length l), input.
        split; [by rewrite lookup_app_r, Nat.sub_diag by lia|].
        split; [done|]. intros n' s' name' Hlt Hn'.
        apply lookup_lt_Some in Hn'. rewrite length_app in Hn'. simpl in *. lia.
      * intros (n & s & Hn & Hs & Hlast).
        destruct (decide (n = length l)) as [->|Hn'].
        -- rewrite lookup_app_r, Nat.sub_diag in Hn by lia.
           injection Hn as <-. congruence.
        -- exfalso. apply (Hlast (length l) input nm); [|by rewrite
             lookup_app_r, Nat.sub_diag by lia|done].
           apply lookup_lt_Some in Hn. rewrite length_app in Hn. simpl in *. lia.
    + rewrite lookup_insert_ne by done. rewrite IH. split.
      * intros (n & s & Hn & Hs & Hlast). exists n, s.
        split; [by apply lookup_app_l_Some|]. split; [done|].
        intros n' s' name' Hlt Hn'.
        destruct (decide (n' = length l)) as [->|?].
        -- rewrite lookup_app_r, Nat.sub_diag in Hn' by lia.
           injection Hn' as <-. congruence.
        -- apply Hlast; [done|].
           apply lookup_lt_Some in Hn' as Hlen.
           rewrite length_app in Hlen. simpl in *.
           by rewrite lookup_app_l in Hn' by lia.
      * intros (n & s & Hn & Hs & Hlast).
        destruct (decide (n = length l)) as [->|?].
        -- rewrite lookup_app_r, Nat.sub_diag in Hn by lia.
           injection Hn as <-. congruence.
        -- apply lookup_lt_Some in Hn as Hlen.
           rewrite length_app in Hlen. simpl in *.
           rewrite lookup_app_l in Hn by lia.
           exists n, s. split; [done|]. split; [done|].
           intros n' s' name' Hlt Hn'. apply Hlast; [done|].
           by apply lookup_app_l_Some.
  - rewrite IH. split.
    + intros (n & s & Hn & Hs & Hlast). exists n, s.
      split; [by apply lookup_app_l_Some|]. split; [done|].
      intros n' s' name' Hlt Hn'.
      destruct (decide (n' = length l)) as [->|?].
      * rewrite lookup_app_r, Nat.sub_diag in Hn' by lia.
        injection Hn' as <-. congruence.
      * apply Hlast; [done|].
        apply lookup_lt_Some in Hn' as Hlen.
        rewrite length_app in Hlen. simpl in *.
        by rewrite lookup_app_l in Hn' by lia.
    + intros (n & s & Hn & Hs & Hlast).
      destruct (decide (n = length l)) as [->|?].
      * rewrite lookup_app_r, Nat.sub_diag in Hn by lia.
        injection Hn as <-. congruence.
      * apply lookup_lt_Some in Hn as Hlen.
        rewrite length_app in Hlen. simpl in *.
        rewrite lookup_app_l in Hn by lia.
        exists n, s. split; [done|]. split; [done|].
        intros n' s' name' Hlt Hn'. apply Hlast; [done|].
        by apply lookup_app_l_Some.
Qed.

Lemma namedListOf_lookup input defaultPrefix path name :
  namedListOf input defaultPrefix !! path = Some name ↔
  lastSpecifier defaultPrefix (strings.Split input ",") path name.
Proof. apply namedList_lookup. Qed.

Example namedListOf_same_path :
  namedListOf "A=gs://b/x,B=gs://b/x,gs://b/y" "INPUT"
  = {[ "gs://b/x" := "B"; "gs://b/y" := "INPUT2" ]}.
Proof. reflexivity. Qed.

Example namedListOf_skips_empty :
  namedListOf ",gs://b/y" "OUTPUT" = {[ "gs://b/y" := "OUTPUT1" ]}.
Proof. reflexivity. Qed.

End Specifiers.

(** ** The localization planner: the two loops *)

Section Planner.
Context (flags : Flags) (world : World) (orders : MapOrders).

Lemma localizersOf_length root entry acts :
  localizersOf flags world root entry = inr acts → (length acts ≤ 1)%nat.
Proof.
  unfold localizersOf. destruct (parseGCSPath _ _).
  - destruct (fuse flags); intros [= <-]; simpl; lia.
  - destruct (upload _ _ _ _); intros [= <-]; simpl; lia.
Qed.

Lemma localizersOf_length_one root entry acts :
  fuse flags = false →
  localizersOf flags world root entry = inr acts → length acts = 1%nat.
Proof.
  intros Hfuse. unfold localizersOf. rewrite Hfuse.
  destruct (parseGCSPath _ _).
  - by intros [= <-].
  - destruct (upload _ _ _ _); by intros [= <-].
Qed.

Lemma localizeInput_localizersOf root st entry st' :
  localizeInput flags world root st entry = inr st' →
  ∃ acts,
    localizersOf flags world root entry = inr acts ∧
    planLocalizers st' = planLocalizers st ++ acts ∧
    planDelocalizers st' = planDelocalizers st ∧
    planEnvironment st' = bindTarget root (planEnvironment st) entry.
Proof.
  destruct entry as [input name_]. unfold localizeInput, localizersOf. simpl.
  fold (target root input).
  destruct (parseGCSPath world input).
  - destruct (fuse flags); intros [= <-]; simpl.
    + exists []. by rewrite app_nil_r.
    + by eexists.
  - destruct (upload _ _ _ _); [done|]. intros [= <-]. by eexists.
Qed.

Lemma forEach_localizeInput root st l st' :
  forEach (localizeInput flags world root) st l = inr st' →
  ∃ per,
    Forall2 (λ entry acts, localizersOf flags world root entry = inr acts) l per ∧
    planLocalizers st' = planLocalizers st ++ concat per ∧
    planDelocalizers st' = planDelocalizers st ∧
    planEnvironment st' = foldl (bindTarget root) (planEnvironment st) l.
Proof.
  revert st. induction l as [|entry l IH]; intros st; simpl.
  - intros [= <-]. exists []. by rewrite app_nil_r.
  - destruct (localizeInput _ _ _ _ _) as [e|st1] eqn:H1; [done|]. simpl.
    apply localizeInput_localizersOf in H1 as (acts & Ha & Hl & Hd & He).
    intros (per & Hper & Hl' & Hd' & He')%IH.
    exists (acts :: per). split; [by constructor|].
    simpl. rewrite Hl', Hl, Hd', Hd, He', He. by rewrite <-app_assoc.
Qed.

Lemma foldl_delocalizeOutput root st l :
  planDelocalizers (foldl (delocalizeOutput flags root) st l)
  = planDelocalizers st ++
    ((λ entry, gcsTransfer flags entry.1 (target root entry.1) entry.1) <$> l) ∧
  planLocalizers (foldl (delocalizeOutput flags root) st l)
  = planLocalizers st ∧
  planEnvironment (foldl (delocalizeOutput flags root) st l)
  = foldl (bindTarget root) (planEnvironment st) l.
Proof.
  revert st. induction l as [|[output_ name_] l IH]; intros st.
  - simpl. by rewrite app_nil_r.
  - cbn [foldl].
    destruct (IH (delocalizeOutput flags root st (output_, name_)))
      as (-> & -> & ->). simpl. by rewrite <-app_assoc.
Qed.

Lemma mountBuckets_plan st :
  planLocalizers (mountBuckets orders st)
  = planLocalizers st ++
    (if decide (0 < size (planBuckets st))%nat
     then gcsFuse orders (planBuckets st) else []) ∧
  planDelocalizers (mountBuckets orders st) = planDelocalizers st ∧
  planEnvironment (mountBuckets orders st) = planEnvironment st.
Proof.
  unfold mountBuckets. case_decide; simpl; [done|]. by rewrite app_nil_r.
Qed.

Lemma foldl_bindTarget_other root env l name_ :
  name_ ∉ l.*2 →
  foldl (bindTarget root) env l !! name_ = env !! name_.
Proof.
  revert env. induction l as [|entry l IH]; intros env; simpl; [done|].
  intros [Hne Hl]%not_elem_of_cons. rewrite IH by done.
  unfold bindTarget. by rewrite lookup_insert_ne.
Qed.

Lemma foldl_bindTarget_is_Some root env l name_ :
  is_Some (env !! name_) → is_Some (foldl (bindTarget root) env l !! name_).
Proof.
  revert env. induction l as [|entry l IH]; intros env; simpl; [done|].
  intros Hn. apply IH. unfold bindTarget.
  rewrite lookup_insert_is_Some. destruct (decide (entry.2 = name_)); auto.
Qed.

Lemma foldl_bindTarget_bound root env l entry :
  entry ∈ l → is_Some (foldl (bindTarget root) env l !! entry.2).
Proof.
  revert env. induction l as [|e l IH]; intros env; simpl.
  - by intros ?%elem_of_nil.
  - intros [->|Hl]%elem_of_cons; [|by apply IH].
    apply foldl_bindTarget_is_Some. unfold bindTarget.
    rewrite lookup_insert_eq. by eexists.
Qed.

(** The plan, spelled out: the turns of the two loops in the orders in
    which the maps are visited. *)
Lemma plan_spelled_out st :
  plan flags world orders = inr st →
  ∃ per buckets,
    Forall2 (λ entry acts,
               localizersOf flags world (googlePath "input") entry = inr acts)
            (rangeInputs orders (namedListOf (inputs flags) "INPUT")) per ∧
    planLocalizers st
    = concat per ++
      (if decide (0 < size buckets)%nat then gcsFuse orders buckets else []) ∧
    planDelocalizers st
    = ((λ entry, gcsTransfer flags entry.1
                   (target (googlePath "output") entry.1) entry.1)
         <$> rangeOutputs orders (namedListOf (outputs flags) "OUTPUT")) ++
      outputAction flags ∧
    planEnvironment st
    = foldl (bindTarget (googlePath "output"))
        (foldl (bindTarget (googlePath "input"))
           (<["TMPDIR" := googlePath "tmp"]> (environment flags))
           (rangeInputs orders (namedListOf (inputs flags) "INPUT")))
        (rangeOutputs orders (namedListOf (outputs flags) "OUTPUT")).
Proof.
  unfold plan.
  destruct (forEach _ _ _) as [e|st1] eqn:H1; [done|]. simpl.
  apply forEach_localizeInput in H1 as (per & Hper & Hl & Hd & He).
  intros [= <-]. simpl.
  destruct (foldl_delocalizeOutput (googlePath "output")
              (mountBuckets orders st1)
              (rangeOutputs orders (namedListOf (outputs flags) "OUTPUT")))
    as (-> & -> & ->).
  destruct (mountBuckets_plan st1) as (-> & -> & ->).
  exists per, (planBuckets st1). rewrite Hl, Hd, He. done.
Qed.

End Planner.

Section SpecifierClaims.

Lemma Permutation_NoDup_fst (m : gmap string string) l :
  l ≡ₚ map_to_list m → NoDup l.*1.
Proof. intros ->. apply NoDup_fst_map_to_list. Qed.

(** C10: the specifiers of [--inputs] and of [--outputs] are keyed by
    their paths: a path has in the map the name of the last specifier
    that gives it, and a default name is made from the position of the
    specifier in the comma separated list; the loops of the planner run
    once for each path of the maps, a turn for an input adds at most one
    action (exactly one when buckets are not mounted) and a turn for an
    output adds exactly one; and of the environment the planner binds
    [TMPDIR] and the names that are left in the maps, and no other. *)
Theorem specifiers_keyed_by_path (flags : Flags) (world : World)
    (orders : MapOrders) (st : Plan) :
  admissible orders → plan flags world orders = inr st →
  (∀ path name_,
     namedListOf (inputs flags) "INPUT" !! path = Some name_ ↔
     lastSpecifier "INPUT" (strings.Split (inputs flags) ",") path name_) ∧
  (∀ path name_,
     namedListOf (outputs flags) "OUTPUT" !! path = Some name_ ↔
     lastSpecifier "OUTPUT" (strings.Split (outputs flags) ",") path name_) ∧
  ∃ ins outs per buckets,
    ins ≡ₚ map_to_list (namedListOf (inputs flags) "INPUT") ∧
    NoDup ins.*1 ∧
    outs ≡ₚ map_to_list (namedListOf (outputs flags) "OUTPUT") ∧
    NoDup outs.*1 ∧
    Forall2 (λ entry acts,
               localizersOf flags world (googlePath "input") entry = inr acts ∧
               (length acts ≤ 1)%nat ∧
               (fuse flags = false → length acts = 1%nat)) ins per ∧
    planLocalizers st
    = concat per ++
      (if decide (0 < size buckets)%nat then gcsFuse orders buckets else []) ∧
    planDelocalizers st
    = ((λ entry, gcsTransfer flags entry.1
                   (target (googlePath "output") entry.1) entry.1) <$> outs) ++
      outputAction flags ∧
    (∀ entry, entry ∈ ins ∨ entry ∈ outs →
              is_Some (planEnvironment st !! entry.2)) ∧
    (∀ name_, name_ ≠ "TMPDIR" → name_ ∉ ins.*2 → name_ ∉ outs.*2 →
              planEnvironment st !! name_ = environment flags !! name_).
Proof.
  intros (Hin & _ & _ & Hout & _) Hplan.
  split; [intros; apply namedListOf_lookup|].
  split; [intros; apply namedListOf_lookup|].
  apply plan_spelled_out in Hplan as (per & buckets & Hper & Hl & Hd & He).
  exists (rangeInputs orders (namedListOf (inputs flags) "INPUT")),
         (rangeOutputs orders (namedListOf (outputs flags) "OUTPUT")),
         per, buckets.
  split; [apply Hin|].
  split. { apply (Permutation_NoDup_fst _ _ (Hin _)). }
  split; [apply Hout|].
  split. { apply (Permutation_NoDup_fst _ _ (Hout _)). }
  split.
  { eapply Forall2_impl; [apply Hper|]. intros entry acts Ha.
    split; [done|]. split; [exact (localizersOf_length _ _ _ _ _ Ha)|].
    intros Hfuse. exact (localizersOf_length_one _ _ _ _ _ Hfuse Ha). }
  split; [done|]. split; [done|]. split.
  { intros entry Hentry. rewrite He. destruct Hentry as [Hi|Ho].
    - by apply foldl_bindTarget_is_Some, foldl_bindTarget_bound.
    - by apply foldl_bindTarget_bound. }
  intros name_ Htmp Hins Houts. rewrite He.
  rewrite !foldl_bindTarget_other by done. by rewrite lookup_insert_ne.
Qed.

Lemma specifiers_keyed_by_path_witness :
  ∃ st,
    plan samePathFlags retriableWorld canonicalOrders = inr st ∧
    (∀ path name_,
       namedListOf (inputs samePathFlags) "INPUT" !! path = Some name_ ↔
       lastSpecifier "INPUT" (strings.Split (inputs samePathFlags) ",")
                     path name_) ∧
    length (planLocalizers st) = 2%nat ∧
    length (planDelocalizers st) = 1%nat ∧
    planEnvironment st !! "A" = None ∧
    planEnvironment st !! "B" = Some "/mnt/google/.google/input/b/x" ∧
    planEnvironment st !! "INPUT2" = Some "/mnt/google/.google/input/b/y" ∧
    planEnvironment st !! "O" = Some "/mnt/google/.google/output/b/o".
Proof.
  eexists. split; [vm_compute; reflexivity|].
  split.
  - exact (proj1 (specifiers_keyed_by_path samePathFlags retriableWorld
                    canonicalOrders _ canonicalOrders_admissible eq_refl)).
  - vm_compute. repeat split.
Defined.

End SpecifierClaims.

(** ** The localization planner: local files *)

Section LocalFiles.
Context (flags : Flags) (world : World).

(** X26: The branch of the loop for a text that [url.Parse] refuses: the
    file is read and packed into a bash action that makes the directory of
    the target and decodes the contents into the target. *)
Lemma localizeInput_upload root st input name_ raw :
  url_Parse world input = None →
  ioutil_ReadFile world input = inr raw →
  ∃ st',
    localizeInput flags world root st (input, name_) = inr st' ∧
    planLocalizers st'
    = planLocalizers st ++
      [bash flags
         [ "mkdir -p " +:+
             strconv_Quote world (path.Dir (target root input));
           "echo " +:+
             strconv_Quote world (base64_EncodeToString world raw) +:+
             " | base64 -d > " +:+ strconv_Quote world (target root input) ]].
Proof.
  intros Hurl Hread. unfold localizeInput, parseGCSPath, upload.
  fold (target root input). rewrite Hurl, Hread. by eexists.
Qed.

(** C3, on the code: [parseGCSPath] answers [true] for every text that
    [url.Parse] accepts, whatever its scheme, so an input that is a path
    of a local file takes the branch of the remote objects: when buckets
    are not mounted, the file is not read and the action that is added
    is the [gsutil cp] of the path. *)
Theorem localizeInput_local_path_copied root st input name_ host :
  url_Parse world input = Some host → fuse flags = false →
  ∃ st',
    localizeInput flags world root st (input, name_) = inr st' ∧
    planLocalizers st'
    = planLocalizers st ++
      [gcsTransfer flags input input
         (gcsJoin [root; strings.TrimRight input "*"])].
Proof.
  intros Hurl Hfuse. unfold localizeInput, parseGCSPath.
  rewrite Hurl, Hfuse. by eexists.
Qed.

End LocalFiles.

(** The planner on the local path [/tmp/config.txt], in a world in which
    [url.Parse] accepts it with an empty host, as Go's does. *)
Lemma localizeInput_local_path_copied_witness :
  url_Parse retriableWorld "/tmp/config.txt" = Some EmptyString ∧
  ∃ st,
    plan (exampleFlags "/tmp/config.txt" EmptyString "true" false 1 0)
         retriableWorld canonicalOrders = inr st ∧
    planLocalizers st
    = [ {| Action.ImageUri := "gcr.io/cloud-genomics-pipelines/io";
           Action.Commands :=
             ["-c";
              "gsutil -q cp /tmp/config.txt /mnt/google/.google/input/tmp/config.txt"];
           Action.Entrypoint := "bash";
           Action.Flags := [];
           Action.Mounts := [googleRoot];
           Action.PortMappings := ∅;
           Action.Timeout := EmptyString;
           Action.PidNamespace := EmptyString |} ] ∧
    ∃ st',
      localizeInput (exampleFlags "/tmp/config.txt" EmptyString "true" false 1 0)
        retriableWorld (googlePath "input") st ("/tmp/config.txt", "INPUT0")
      = inr st' ∧
      planLocalizers st'
      = planLocalizers st ++
        [gcsTransfer (exampleFlags "/tmp/config.txt" EmptyString "true" false 1 0)
           "/tmp/config.txt" "/tmp/config.txt"
           (gcsJoin [googlePath "input";
                     strings.TrimRight "/tmp/config.txt" "*"])].
Proof.
  split; [reflexivity|].
  eexists. split; [vm_compute; reflexivity|]. split; [reflexivity|].
  apply (localizeInput_local_path_copied
           (exampleFlags "/tmp/config.txt" EmptyString "true" false 1 0)
           retriableWorld (googlePath "input") _
           "/tmp/config.txt" "INPUT0" EmptyString); reflexivity.
Defined.

(** ** The request assembler: the order of the actions *)

Section ActionOrder.
Context (flags : Flags) (world : World) (orders : MapOrders).

Lemma mapM_id_Some {A} (l : list (option A)) (k : list A) :
  mapM id l = Some k ↔ l = Some <$> k.
Proof.
  rewrite mapM_Some. split.
  - induction 1 as [|x y l k Hxy _ IH]; [done|]. simpl in *. by subst.
  - intros ->. induction k; by constructor.
Qed.

(** The actions of the file or of the command are never nil. *)
Lemma userActions_Some filename uacts :
  userActions flags world filename = inr uacts →
  ∃ user, uacts = Some <$> user.
Proof.
  unfold userActions. case_decide.
  - destruct (parseFile _ _ _) as [e|v]; [done|]. intros [= <-]. by exists v.
  - case_decide; [|done].
    destruct (parse flags world (command flags)) as [e|[a|]] eqn:Hp; [done|..].
    + intros [= <-]. by exists [a].
    + by apply parse_never_nil in Hp.
Qed.

(** What [buildRequest] returns when it assembles a request itself: the
    plan, the directory step, the actions of the user and the locations
    that it is made of. *)
Lemma buildRequest_assembled (filename project : string)
    (req : RunPipelineRequest.t) :
  filename = EmptyString ∨ decodeRequest world filename = None →
  buildRequest flags world orders filename project = inr req →
  ∃ st directoryStep user where_,
    plan flags world orders = inr st ∧
    mkdir flags (planDirectories st) = Some directoryStep ∧
    userActions flags world filename = inr (Some <$> user) ∧
    locations flags world project = inr where_ ∧
    RunPipelineRequest.Pipeline req
    = {| Pipeline.Resources :=
           {| Resources.ProjectId := project;
              Resources.VirtualMachine :=
                addRequiredScopes flags
                  (orderedActions flags world project st directoryStep user)
                  (addRequiredDisks flags orders
                     (orderedActions flags world project st directoryStep user)
                     (newVirtualMachine flags));
              Resources.Regions := where_.1;
              Resources.Zones := where_.2 |};
         Pipeline.Environment := planEnvironment st;
         Pipeline.Actions :=
           finishActions flags
             (orderedActions flags world project st directoryStep user);
         Pipeline.Timeout :=
           if decide (timeout flags ≠ 0)
           then fmt_Seconds world (timeout flags) +:+ "s"
           else EmptyString |}.
Proof.
  intros Hraw. unfold buildRequest.
  assert ((if decide (filename ≠ EmptyString)
           then decodeRequest world filename else None) = None) as ->.
  { case_decide; [|done]. by destruct Hraw. }
  destruct (plan flags world orders) as [e|st]; cbn [bind]; [done|].
  destruct (userActions flags world filename) as [e|uacts] eqn:Hu;
    cbn [bind]; [done|].
  destruct (locations _ _ _) as [e|where_]; cbn [bind]; [done|].
  destruct (mapM id _) as [all|] eqn:Hall; [|done].
  intros [= <-]. cbn [RunPipelineRequest.Pipeline].
  apply userActions_Some in Hu as Hu'. destruct Hu' as [user ->].
  apply mapM_id_Some in Hall. unfold pipelineActions in Hall.
  destruct (mkdir flags (planDirectories st)) as [mk|] eqn:Hmk;
    [|by destruct all].
  exists st, mk, user, where_. do 4 (split; [done|]).
  assert (all = orderedActions flags world project st mk user) as ->; [|done].
  apply (inj (fmap Some)). unfold orderedActions.
  rewrite <-Hall, !fmap_app. simpl. by destruct (ssh flags).
Qed.

(** The shared namespace is the only thing that [finishActions] changes,
    and it keeps the order. *)
Lemma finishActions_length actions :
  length (finishActions flags actions) = length actions.
Proof. unfold finishActions. destruct (sharePIDs flags); by rewrite ?length_fmap. Qed.

Lemma finishActions_Commands actions :
  Action.Commands <$> finishActions flags actions = Action.Commands <$> actions.
Proof.
  unfold finishActions. destruct (sharePIDs flags); [|done].
  by rewrite <-list_fmap_compose.
Qed.

(** X23: The directory step runs in the cloud SDK image, so every request
    that [buildRequest] assembles has the storage scope, once, after the
    scopes of the [--scopes] flag. *)
Lemma buildRequest_scopes (filename project : string)
    (req : RunPipelineRequest.t) :
  filename = EmptyString ∨ decodeRequest world filename = None →
  buildRequest flags world orders filename project = inr req →
  requestScopes req = listOf (scopes flags) ++ [storageScope].
Proof.
  intros Hraw Hreq.
  destruct (buildRequest_assembled _ _ _ Hraw Hreq)
    as (st & mk & user & where_ & Hst & Hmk & Hu & _ & Hp).
  unfold requestScopes. rewrite Hp. simpl.
  assert (needsStorage flags mk = true) as ->; [|done].
  unfold mkdir in Hmk. destruct (planDirectories st); [done|].
  injection Hmk as <-. unfold needsStorage. simpl.
  by rewrite bool_decide_true.
Qed.

End ActionOrder.

(** * Further properties *)

(** ** Byte strings: suffixes, splitting and joining *)

Section SuffixFacts.

Lemma append_nil_r (s : string) : s +:+ EmptyString = s.
Proof.
  induction s as [|a s IH]; [done|].
  change (String a (s +:+ EmptyString) = String a s). by rewrite IH.
Qed.

Lemma length_append (s t : string) :
  String.length (s +:+ t) = (String.length s + String.length t)%nat.
Proof.
  induction s as [|a s IH]; [done|].
  change (S (String.length (s +:+ t)) = S (String.length s + String.length t)).
  by rewrite IH.
Qed.

Lemma rev_app_append s t : String.rev_app s t = String.rev s +:+ t.
Proof.
  unfold String.rev. revert t. induction s as [|a s IH]; intros t; [done|].
  simpl. rewrite (IH (String a t)), (IH (String a EmptyString)).
  by rewrite append_assoc.
Qed.

Lemma rev_append s t : String.rev (s +:+ t) = String.rev t +:+ String.rev s.
Proof.
  induction s as [|a s IH]; [by rewrite append_nil_r|].
  change (String.rev_app (s +:+ t) (String a EmptyString)
          = String.rev t +:+ String.rev_app s (String a EmptyString)).
  rewrite !rev_app_append, IH. apply append_assoc.
Qed.

Lemma rev_involutive s : String.rev (String.rev s) = s.
Proof.
  induction s as [|a s IH]; [done|].
  change (String.rev (String.rev_app s (String a EmptyString)) = String a s).
  by rewrite rev_app_append, rev_append, IH.
Qed.

Lemma HasSuffix_app s p : strings.HasSuffix s p = true ↔ ∃ t, s = t +:+ p.
Proof.
  unfold strings.HasSuffix. rewrite HasPrefix_app. split.
  - intros [t Ht]. exists (String.rev t).
    by rewrite <-(rev_involutive s), Ht, rev_append, rev_involutive.
  - intros [t ->]. exists (String.rev t). apply rev_append.
Qed.

Lemma take_append t p : strings.take (String.length t) (t +:+ p) = t.
Proof.
  induction t as [|a t IH]; [done|].
  change (String a (strings.take (String.length t) (t +:+ p)) = String a t).
  by rewrite IH.
Qed.

(** The text before the last byte of a text that ends in [c]. *)
Lemma upto_last t c :
  upto (Z.of_nat (String.length (t +:+ String c EmptyString)) - 1)
       (t +:+ String c EmptyString) = t.
Proof.
  unfold upto. rewrite length_append. simpl.
  replace (Z.to_nat (Z.of_nat (String.length t + 1) - 1))
    with (String.length t) by lia.
  apply take_append.
Qed.

Lemma Split_nonempty s sep : strings.Split s sep ≠ [].
Proof.
  induction s as [|a s IH]; simpl; [done|].
  case_decide; [done|]. by destruct (strings.Split s sep).
Qed.

(** A separator at the end of the text leaves an empty last piece. *)
Lemma Split_snoc_sep s sep :
  strings.Split (s +:+ String sep EmptyString) sep
  = strings.Split s sep ++ [EmptyString].
Proof.
  induction s as [|a s IH].
  - simpl. by rewrite decide_True.
  - change (strings.Split (String a (s +:+ String sep EmptyString)) sep
            = strings.Split (String a s) sep ++ [EmptyString]).
    simpl. rewrite IH. case_decide; [done|].
    pose proof (Split_nonempty s sep). by destruct (strings.Split s sep).
Qed.

(** Joining the pieces with the separator gives the text back. *)
Lemma Join_Split s sep :
  strings.Join (strings.Split s sep) (String sep EmptyString) = s.
Proof.
  induction s as [|a s IH]; [done|]. simpl.
  pose proof (Split_nonempty s sep) as Hne. case_decide as Ha.
  - subst a. destruct (strings.Split s sep) as [|piece rest] eqn:Hs; [done|].
    change (strings.Join (EmptyString :: piece :: rest) (String sep EmptyString))
      with (String sep (strings.Join (piece :: rest) (String sep EmptyString))).
    by rewrite IH.
  - destruct (strings.Split s sep) as [|piece rest] eqn:Hs; [done|].
    rewrite <-IH. by destruct rest.
Qed.

End SuffixFacts.

(** ** The directory merger: what [mkdir -p] creates *)

Section DirectoryCover.

Lemma HasPrefix_same_length s p :
  strings.HasPrefix s p = true → String.length s = String.length p → s = p.
Proof.
  intros [t ->]%HasPrefix_app. rewrite length_append. intros Hlen.
  destruct t; [by rewrite append_nil_r|]. simpl in Hlen. lia.
Qed.

Lemma maximal_dec l x : Decision (maximal l x).
Proof.
  unfold maximal.
  destruct (decide (Forall (λ r, strings.HasPrefix r x = true → r = x) l))
    as [Hall|Hno].
  - left. rewrite Forall_forall in Hall. exact Hall.
  - right. intros Hmax. apply Hno, Forall_forall. exact Hmax.
Qed.

(** Every path of a list is a prefix of a maximal path of the list. *)
Lemma maximal_extension l n d :
  (∀ r, r ∈ l → (String.length r ≤ String.length d + n)%nat) →
  d ∈ l →
  ∃ r, r ∈ l ∧ strings.HasPrefix r d = true ∧ maximal l r.
Proof.
  revert d. induction n as [|n IH]; intros d Hbound Hd.
  - exists d. split; [done|]. split; [apply HasPrefix_refl|].
    intros r Hr Hpre. apply HasPrefix_same_length; [done|].
    apply HasPrefix_length in Hpre. specialize (Hbound r Hr). lia.
  - destruct (maximal_dec l d) as [Hmax|Hno].
    { exists d. split; [done|]. split; [apply HasPrefix_refl|done]. }
    unfold maximal in Hno. rewrite <-Forall_forall in Hno.
    apply not_Forall_Exists in Hno; [|apply _].
    apply Exists_exists in Hno as (r & Hr & Hnot).
    destruct (strings.HasPrefix r d) eqn:Hpre;
      [|exfalso; apply Hnot; intros; congruence].
    assert (r ≠ d) as Hne by (intros ->; by apply Hnot).
    assert (String.length d < String.length r)%nat as Hlt.
    { apply HasPrefix_length in Hpre as Hle.
      destruct (decide (String.length r = String.length d)) as [Heq|]; [|lia].
      by destruct (Hne (HasPrefix_same_length _ _ Hpre Heq)). }
    destruct (IH r) as (q & Hq & Hqr & Hmax); [|done|].
    { intros r' Hr'. specialize (Hbound r' Hr'). lia. }
    exists q. split; [done|]. split; [|done].
    by apply (HasPrefix_trans _ r).
Qed.

Lemma length_bound (l : list string) :
  ∃ n, ∀ r, r ∈ l → (String.length r ≤ n)%nat.
Proof.
  induction l as [|x l [n IH]].
  - exists 0%nat. by intros r ?%elem_of_nil.
  - exists (String.length x + n)%nat.
    intros r [->|Hr]%elem_of_cons; [lia|]. specialize (IH r Hr). lia.
Qed.

Lemma merged_NoDup top rest :
  StronglySorted String.le (top :: rest) → NoDup (merged top rest).
Proof.
  revert top. induction rest as [|d rest IH]; intros top Hs; simpl.
  { apply NoDup_singleton. }
  apply StronglySorted_inv in Hs as [Hs Htop].
  destruct (strings.HasPrefix d top) eqn:Hd; [by apply IH|].
  apply NoDup_cons. split; [|by apply IH].
  intros Hin. apply (sublist_subseteq _ _ (merged_sublist d rest)) in Hin.
  assert (top = d) as ->; [|by rewrite HasPrefix_refl in Hd].
  rewrite Forall_forall in Htop.
  apply elem_of_cons in Hin as [->|Hin]; [done|].
  apply (anti_symm String.le); [apply Htop; by left|].
  apply StronglySorted_inv in Hs as [_ Hdr].
  rewrite Forall_forall in Hdr. by apply Hdr.
Qed.

(** X1: Every directory that [mkdir] is given is a prefix of one of the
    arguments of [mkdir -p]. *)
Theorem mkdirArguments_cover (directories : list string) :
  Forall (λ d, ∃ a, a ∈ mkdirArguments directories ∧
                    strings.HasPrefix a d = true) directories.
Proof.
  apply Forall_forall. intros d Hd.
  destruct (length_bound directories) as [n Hn].
  destruct (maximal_extension directories n d) as (r & Hr & Hpre & Hmax);
    [intros r Hr; specialize (Hn r Hr); lia|done|].
  exists r. split; [|done]. by apply mkdirArguments_elem.
Qed.

(** X2: The arguments of [mkdir -p] are directories of the input, each once,
    and none of them is a prefix of another. *)
Theorem mkdirArguments_antichain (directories : list string) :
  mkdirArguments directories ⊆ directories ∧
  NoDup (mkdirArguments directories) ∧
  (∀ p q, p ∈ mkdirArguments directories →
          q ∈ mkdirArguments directories →
          strings.HasPrefix q p = true → p = q).
Proof.
  split; [|split].
  - intros x Hx. by apply mkdirArguments_elem in Hx as [? _].
  - rewrite mkdirArguments_merged.
    pose proof (sort_Strings_sorted directories) as Hs.
    destruct (sort.Strings directories); [constructor|by apply merged_NoDup].
  - intros p q [_ Hmax]%mkdirArguments_elem [Hq _]%mkdirArguments_elem Hpre.
    symmetry. by apply Hmax.
Qed.

End DirectoryCover.

(** ** The request assembler: zones and regions *)

Section Locations.
Context (world : World).

Lemma wildcard_star item : wildcard item ↔ ∃ p, item = p +:+ "*".
Proof. apply HasSuffix_app. Qed.

Lemma foldl_splitPrefixes acc input :
  foldl splitPrefixes acc input
  = (acc.1 ++ exactItems input,
     acc.2 ++ ((λ item, upto (Z.of_nat (String.length item) - 1) item)
                 <$> filter wildcard input)).
Proof.
  revert acc. induction input as [|item input IH]; intros [results prefixes].
  { simpl. by rewrite !app_nil_r. }
  cbn [foldl]. rewrite IH. unfold splitPrefixes, exactItems. simpl.
  destruct (strings.HasSuffix item "*") eqn:Hw.
  - rewrite (filter_cons_True wildcard) by done.
    rewrite filter_cons_False by (intros Hn; by apply Hn).
    simpl. by rewrite <-app_assoc.
  - rewrite (filter_cons_False wildcard) by (unfold wildcard; congruence).
    rewrite filter_cons_True by (unfold wildcard; congruence).
    simpl. by rewrite <-app_assoc.
Qed.

Lemma exactItems_all input :
  Forall (λ item, ¬ wildcard item) input →
  exactItems input = input ∧ filter wildcard input = [].
Proof.
  induction 1 as [|item input Hitem _ [IH1 IH2]]; [done|].
  unfold exactItems in *.
  rewrite filter_cons_True, (filter_cons_False wildcard) by done.
  by rewrite IH1, IH2.
Qed.

(** The prefixes that [expandPrefixes] collects match a value exactly
    when the value starts with the text before the star of an item. *)
Lemma existsb_prefixes input value :
  existsb (strings.HasPrefix value)
    ((λ item, upto (Z.of_nat (String.length item) - 1) item)
       <$> filter wildcard input)
  ↔ matchesPrefix input value.
Proof.
  rewrite Is_true_true, existsb_exists. unfold matchesPrefix. split.
  - intros (p & Hp%list_elem_of_In & Hpre).
    apply list_elem_of_fmap in Hp as (item & -> & Hitem).
    apply list_elem_of_filter in Hitem as [[q ->]%wildcard_star Hitem].
    exists q. split; [done|].
    by rewrite (upto_last q "*") in Hpre.
  - intros (p & Hp & Hpre). exists p. split; [|done].
    apply list_elem_of_In, list_elem_of_fmap. exists (p +:+ "*").
    split; [by rewrite (upto_last p "*")|].
    apply list_elem_of_filter. split; [|done].
    apply wildcard_star. by exists p.
Qed.

(** X3: Without a wildcard the names are returned as they are, and no
    compute client is made and no listing is read. *)
Theorem expandPrefixes_exact (input : list string)
    (allValues : string + list string) :
  Forall (λ item, strings.HasSuffix item "*" = false) input →
  expandPrefixes world input allValues = inr input.
Proof.
  intros Hall. unfold expandPrefixes. rewrite foldl_splitPrefixes. simpl.
  destruct (exactItems_all input) as [-> ->].
  { eapply Forall_impl; [apply Hall|]. unfold wildcard. intros; congruence. }
  done.
Qed.

(** X4: The result of [expandPrefixes]: the exact names in their order, then
    the listed values that start with the text before the star of some item,
    in the order of the listing. *)
Theorem expandPrefixes_members (input values results : list string) :
  expandPrefixes world input (inr values) = inr results →
  ∃ matched,
    results = exactItems input ++ matched ∧
    matched `sublist_of` values ∧
    ∀ value, value ∈ matched ↔ value ∈ values ∧ matchesPrefix input value.
Proof.
  unfold expandPrefixes. rewrite foldl_splitPrefixes. simpl.
  case_decide as Hlen.
  - destruct (google_DefaultClient world); [done|].
    destruct (compute_New world); [done|]. intros [= <-].
    eexists. split; [done|]. split; [apply sublist_filter|].
    intros value. rewrite list_elem_of_filter, existsb_prefixes. tauto.
  - intros [= <-]. exists []. split; [by rewrite app_nil_r|].
    split; [apply sublist_nil_l|]. intros value. split; [by intros ?%elem_of_nil|].
    intros [_ (p & Hp & _)]. exfalso. apply Hlen.
    assert (p +:+ "*" ∈ filter wildcard input) as Hin.
    { apply list_elem_of_filter. split; [|done]. apply wildcard_star. by exists p. }
    rewrite length_fmap. destruct (filter wildcard input); simpl; [|lia].
    by apply elem_of_nil in Hin.
Qed.

(** X5: [expandPrefixes] fails exactly when some item ends in a star and the
    compute client, the compute service or the listing fails, with the error
    of the first of these that does. *)
Theorem expandPrefixes_fails (input : list string)
    (allValues : string + list string) (e : error) :
  expandPrefixes world input allValues = inl e ↔
  Exists wildcard input ∧
  match google_DefaultClient world, compute_New world, allValues with
  | Some msg, _, _ => e = ErrCreatingComputeClient msg
  | None, Some msg, _ => e = ErrCreatingComputeService msg
  | None, None, inl msg => e = ErrListing msg
  | None, None, inr _ => False
  end.
Proof.
  unfold expandPrefixes. rewrite foldl_splitPrefixes. simpl.
  rewrite length_fmap.
  assert (Exists wildcard input ↔ (0 < length (filter wildcard input))%nat)
    as ->.
  { rewrite Exists_exists. split.
    - intros (item & Hitem & Hw).
      assert (item ∈ filter wildcard input) as Hin
        by (by apply list_elem_of_filter).
      destruct (filter wildcard input); simpl; [|lia].
      by apply elem_of_nil in Hin.
    - destruct (filter wildcard input) as [|item rest] eqn:Hf; simpl; [lia|].
      intros _. exists item.
      assert (item ∈ filter wildcard input) as Hin by (rewrite Hf; left).
      apply list_elem_of_filter in Hin as [? ?]. done. }
  case_decide as Hlen.
  - destruct (google_DefaultClient world) as [msg|].
    { split; [intros [= <-]; done|]. by intros [_ ->]. }
    destruct (compute_New world) as [msg|].
    { split; [intros [= <-]; done|]. by intros [_ ->]. }
    destruct allValues as [msg|values].
    { split; [intros [= <-]; done|]. by intros [_ ->]. }
    split; [done|]. by intros [_ ?].
  - split; [done|]. by intros [? _].
Qed.

End Locations.

Lemma expandPrefixes_exact_witness :
  expandPrefixes offlineWorld ["us-east1-b"; "us-east1-c"] (inl "unreachable")
  = inr ["us-east1-b"; "us-east1-c"].
Proof.
  apply (expandPrefixes_exact offlineWorld ["us-east1-b"; "us-east1-c"]).
  repeat constructor.
Defined.

Lemma expandPrefixes_members_witness :
  ∃ matched,
    ["asia-east1-a"; "us-east1-b"; "us-west1-a"]
    = exactItems ["us-*"; "asia-east1-a"] ++ matched ∧
    matched `sublist_of` ["us-east1-b"; "europe-west1-b"; "us-west1-a"] ∧
    ∀ value,
      value ∈ matched ↔
      value ∈ ["us-east1-b"; "europe-west1-b"; "us-west1-a"] ∧
      matchesPrefix ["us-*"; "asia-east1-a"] value.
Proof.
  apply (expandPrefixes_members retriableWorld ["us-*"; "asia-east1-a"]
           ["us-east1-b"; "europe-west1-b"; "us-west1-a"]
           ["asia-east1-a"; "us-east1-b"; "us-west1-a"]).
  reflexivity.
Defined.

Section LocationsOfRequest.
Context (flags : Flags) (world : World).


End LocationsOfRequest.

(** ** The execution controller: the run in general *)

Section Submissions.
Context (flags : Flags) (world : World).

Lemma attemptOnce_request req a :
  (attemptOnce flags world req a).1 = submission flags req a.
Proof.
  unfold attemptOnce, submission.
  destruct (pipelinesRun _ _ _) as [[m b t|m]|lro]; [by case_decide|done|].
  destruct (negb _); [done|].
  destruct (watchInvoke _ _ _) as [[r m|m]|]; [|done..].
  by destruct (_ && _).
Qed.

Lemma attemptOnce_Continue req a :
  (attemptOnce flags world req a).2 = Continue →
  wait flags = true ∧ a < budget flags world ∧ retriableFailure flags world req a.
Proof.
  unfold attemptOnce, retriableFailure, submission, budget.
  destruct (pipelinesRun _ _ _) as [[m b t|m]|lro]; [by case_decide|done|].
  destruct (wait flags); simpl; [|done].
  destruct (watchInvoke _ _ _) as [[r m|m]|] eqn:Hw; [|done..].
  destruct r; simpl; [|done]. case_bool_decide; [|done].
  intros _. split; [done|]. split; [done|]. by exists lro, m.
Qed.

Lemma retriableFailure_Continue req a :
  wait flags = true → a < budget flags world →
  retriableFailure flags world req a →
  (attemptOnce flags world req a).2 = Continue.
Proof.
  intros Hwait Hlt (lro & msg & Hrun & Hwatch).
  unfold attemptOnce. fold (submission flags req a).
  rewrite Hrun, Hwait. simpl. rewrite Hwatch. simpl.
  fold (budget flags world). by rewrite bool_decide_true.
Qed.

(** The run from an attempt on: some number [k] of submissions, the
    last of which is the first one whose turn returns. *)
Lemma runPipeline_from_run req attempt sent :
  0 ≤ attempt →
  ∃ k,
    1 ≤ k ≤ Z.max 1 (budget flags world - attempt + 1) ∧
    (runPipeline_from flags world req attempt sent).1
    = sent ++ (submission flags req <$> seqZ attempt k) ∧
    (∀ a, attempt ≤ a < attempt + k - 1 →
          (attemptOnce flags world req a).2 = Continue) ∧
    (attemptOnce flags world req (attempt + k - 1)).2
    = Return (runPipeline_from flags world req attempt sent).2.
Proof.
  remember (Z.to_nat (budget flags world - attempt)) as n eqn:Hn.
  revert req attempt sent Hn.
  induction n as [|n IH]; intros req attempt sent Hn Hpos;
    rewrite (runPipeline_from_unfold flags world req attempt sent);
    pose proof (attemptOnce_request req attempt) as Hreq;
    pose proof (attemptOnce_Continue req attempt) as Hcont;
    destruct (attemptOnce flags world req attempt) as [req' [result|]] eqn:Ha;
    simpl in Hreq; subst req'.
  1,3: exists 1; split; [lia|]; split; [done|]; split; [intros a ?; lia|];
       replace (attempt + 1 - 1) with attempt by lia; by rewrite Ha.
  - destruct (Hcont eq_refl) as (_ & Hlt & _). lia.
  - destruct (Hcont eq_refl) as (_ & Hlt & _).
    rewrite (uint_next flags world) by lia.
    destruct (IH (submission flags req attempt) (attempt + 1)
                (sent ++ [submission flags req attempt]))
      as (k & Hk & Hsent & Hbefore & Hlast); [lia..|].
    exists (k + 1). split; [lia|]. split; [|split].
    + rewrite Hsent, <-app_assoc. f_equal.
      rewrite (seqZ_cons attempt (k + 1)) by lia.
      replace (Z.pred (k + 1)) with k by lia.
      replace (Z.succ attempt) with (attempt + 1) by lia. done.
    + intros a Ha'. destruct (decide (a = attempt)) as [->|Hne].
      * by rewrite Ha.
      * apply (Hbefore a). lia.
    + replace (attempt + (k + 1) - 1) with (attempt + 1 + k - 1) by lia.
      exact Hlast.
Qed.

(** The run is over at the first attempt whose turn returns. *)
Lemma runPipeline_first_return req k result :
  1 ≤ k →
  (∀ a, 1 ≤ a < k → (attemptOnce flags world req a).2 = Continue) →
  (attemptOnce flags world req k).2 = Return result →
  runPipeline flags world req = (submission flags req <$> seqZ 1 k, result).
Proof.
  intros Hk Hbefore Hlast. unfold runPipeline.
  destruct (runPipeline_from_run req 1 []) as (k' & Hk' & Hsent & Hb' & Hl');
    [lia|].
  assert (k' = k) as ->.
  { destruct (Z.lt_trichotomy k' k) as [Hlt|[?|Hgt]]; [|done|].
    - rewrite Hbefore in Hl' by lia. done.
    - rewrite Hb' in Hlast by lia. done. }
  replace (1 + k - 1) with k in Hl' by lia.
  rewrite Hlast in Hl'. injection Hl' as Hres.
  destruct (runPipeline_from flags world req 1 []) as [sent res].
  simpl in *. by subst.
Qed.

(** X8: Retriable failures are retried until an attempt succeeds: when the
    attempts before [k] fail with retriable errors and the attempt [k],
    within the budget, succeeds, the run submits [k] requests and returns no
    error. *)
Theorem runPipeline_until_success (req : RunPipelineRequest.t) (k : Z)
    (lro : string) :
  wait flags = true →
  1 ≤ k ≤ Z.max 1 (budget flags world) →
  (∀ a, 1 ≤ a < k → retriableFailure flags world req a) →
  pipelinesRun world k (submission flags req k) = inr lro →
  watchInvoke world k lro = None →
  runPipeline flags world req = (submission flags req <$> seqZ 1 k, None).
Proof.
  intros Hwait Hk Hbefore Hrun Hwatch.
  apply runPipeline_first_return; [lia|..].
  - intros a Ha. apply retriableFailure_Continue; [done|lia|by apply Hbefore].
  - unfold attemptOnce. fold (submission flags req k).
    by rewrite Hrun, Hwait, Hwatch.
Qed.

(** X9: An error of the monitor that is not a retriable execution error is
    not retried, whatever is left of the budget. *)
Theorem runPipeline_fatal_error (req : RunPipelineRequest.t) (k : Z)
    (lro : string) (w : WatchError) :
  wait flags = true →
  1 ≤ k ≤ Z.max 1 (budget flags world) →
  (∀ a, 1 ≤ a < k → retriableFailure flags world req a) →
  pipelinesRun world k (submission flags req k) = inr lro →
  watchInvoke world k lro = Some w →
  (∀ msg, w ≠ PipelineExecutionError true msg) →
  runPipeline flags world req
  = (submission flags req <$> seqZ 1 k,
     Some (ErrOperationFailed lro (watchMessage w))).
Proof.
  intros Hwait Hk Hbefore Hrun Hwatch Hfatal.
  apply runPipeline_first_return; [lia|..].
  - intros a Ha. apply retriableFailure_Continue; [done|lia|by apply Hbefore].
  - unfold attemptOnce. fold (submission flags req k).
    rewrite Hrun, Hwait, Hwatch. simpl.
    destruct w as [[] msg|msg]; simpl; [|done..].
    by destruct (Hfatal msg).
Qed.

(** X10: A run returns no error only when its last submission was accepted
    and either the tool does not wait or the monitor reported no error for
    it. *)
Theorem runPipeline_nil_is_success (req : RunPipelineRequest.t) :
  (runPipeline flags world req).2 = None →
  ∃ lro,
    pipelinesRun world
      (Z.of_nat (length (runPipeline flags world req).1))
      (submission flags req
         (Z.of_nat (length (runPipeline flags world req).1)))
    = inr lro ∧
    (wait flags = false ∨
     watchInvoke world
       (Z.of_nat (length (runPipeline flags world req).1)) lro = None).
Proof.
  unfold runPipeline.
  destruct (runPipeline_from_run req 1 []) as (k & Hk & Hsent & _ & Hlast);
    [lia|].
  rewrite Hsent. simpl. rewrite length_fmap, length_seqZ.
  replace (1 + k - 1) with k in Hlast by lia.
  replace (Z.of_nat (Z.to_nat k)) with k by lia.
  intros Hnil. rewrite Hnil in Hlast. revert Hlast.
  unfold attemptOnce. fold (submission flags req k).
  destruct (pipelinesRun _ _ _) as [[m b t|m]|lro]; [by case_decide|done|].
  intros Hturn. exists lro. split; [done|].
  destruct (wait flags); simpl in *; [right|by left].
  destruct (watchInvoke _ _ _) as [[r m|m]|]; [|done..].
  by destruct (_ && _).
Qed.

End Submissions.

Lemma runPipeline_until_success_witness :
  runPipeline (withAttempts 1 1) flakyWorld emptyRequest
  = (submission (withAttempts 1 1) emptyRequest <$> seqZ 1 2, None).
Proof.
  apply (runPipeline_until_success (withAttempts 1 1) flakyWorld emptyRequest
           2 "operations/1").
  - reflexivity.
  - by vm_compute.
  - intros a Ha. exists "operations/1", "preempted". split; [reflexivity|].
    simpl. by rewrite decide_True by lia.
  - reflexivity.
  - reflexivity.
Defined.

Lemma runPipeline_fatal_error_witness :
  runPipeline (withAttempts 2 1) failingWorld emptyRequest
  = (submission (withAttempts 2 1) emptyRequest <$> seqZ 1 2,
     Some (ErrOperationFailed "operations/1" "exit status 1")).
Proof.
  apply (runPipeline_fatal_error (withAttempts 2 1) failingWorld emptyRequest
           2 "operations/1" (PipelineExecutionError false "exit status 1")).
  - reflexivity.
  - by vm_compute.
  - intros a Ha. exists "operations/1", "preempted". split; [reflexivity|].
    simpl. by rewrite decide_True by lia.
  - reflexivity.
  - reflexivity.
  - intros msg. discriminate.
Defined.

Lemma runPipeline_nil_is_success_witness :
  ∃ lro,
    pipelinesRun flakyWorld
      (Z.of_nat (length (runPipeline (withAttempts 1 1) flakyWorld
                           emptyRequest).1))
      (submission (withAttempts 1 1) emptyRequest
         (Z.of_nat (length (runPipeline (withAttempts 1 1) flakyWorld
                              emptyRequest).1)))
    = inr lro ∧
    (wait (withAttempts 1 1) = false ∨
     watchInvoke flakyWorld
       (Z.of_nat (length (runPipeline (withAttempts 1 1) flakyWorld
                            emptyRequest).1)) lro = None).
Proof.
  apply (runPipeline_nil_is_success (withAttempts 1 1) flakyWorld emptyRequest).
  reflexivity.
Defined.

(** ** The entry point *)

Section EntryPoint.
Context (flags : Flags) (world : World) (orders : MapOrders).

Lemma runPipeline_submits req : (runPipeline flags world req).1 ≠ [].
Proof.
  unfold runPipeline.
  destruct (runPipeline_from_run flags world req 1 []) as (k & Hk & -> & _);
    [lia|].
  simpl. rewrite seqZ_cons by lia. done.
Qed.

End EntryPoint.

(** ** The script parser: whole scripts *)

Section Scripts.
Context (flags : Flags) (world : World).

Lemma continued_backslash p : continued (p +:+ "\").
Proof. apply HasSuffix_app. by exists p. Qed.

Lemma parseFile_loop_length line buffer actions texts result :
  parseFile_loop flags world line buffer actions texts = inr result →
  length result
  = (length actions + length (filter (λ text, ¬ continued text) texts))%nat.
Proof.
  revert line buffer actions.
  induction texts as [|text texts IH]; intros line buffer actions; simpl.
  { intros [= <-]. simpl. lia. }
  destruct (strings.HasSuffix text "\") eqn:Hc.
  - rewrite filter_cons_False by (intros Hn; by apply Hn). apply IH.
  - rewrite filter_cons_True by (unfold continued; congruence).
    pose proof (parse_never_nil flags world (buffer +:+ text)) as Hnil.
    destruct (parse flags world (buffer +:+ text)) as [e|[action|]];
      [done| |done].
    intros ->%IH. rewrite length_app. simpl. lia.
Qed.

Lemma parseFile_loop_error line buffer actions texts e :
  parseFile_loop flags world line buffer actions texts = inl e →
  ∃ n text logical e',
    texts !! n = Some text ∧ ¬ continued text ∧
    strings.HasSuffix logical text = true ∧
    parse flags world logical = inl e' ∧
    e = ErrLine (line + Z.of_nat n + 1) e'.
Proof.
  revert line buffer actions.
  induction texts as [|text texts IH]; intros line buffer actions; simpl; [done|].
  destruct (strings.HasSuffix text "\") eqn:Hc.
  - intros (n & t & logical & e' & Hn & Ht & Hl & Hp & ->)%IH.
    exists (S n), t, logical, e'. repeat (split; [done|]). f_equal. lia.
  - destruct (parse flags world (buffer +:+ text)) as [e'|[action|]] eqn:Hp.
    + intros [= <-]. exists 0%nat, text, (buffer +:+ text), e'.
      split; [done|]. split; [unfold continued; congruence|].
      split; [apply HasSuffix_app; by exists buffer|]. split; [done|].
      f_equal. lia.
    + intros (n & t & logical & e' & Hn & Ht & Hl & Hp' & ->)%IH.
      exists (S n), t, logical, e'. repeat (split; [done|]). f_equal. lia.
    + intros (n & t & logical & e' & Hn & Ht & Hl & Hp' & ->)%IH.
      exists (S n), t, logical, e'. repeat (split; [done|]). f_equal. lia.
Qed.

Lemma parseFile_loop_continued line buffer actions parts last rest :
  ¬ continued last →
  parseFile_loop flags world line buffer actions
    (((λ p, p +:+ "\") <$> parts) ++ last :: rest)
  = match parse flags world (buffer +:+ foldr String.append last parts) with
    | inl e => inl (ErrLine (line + Z.of_nat (length parts) + 1) e)
    | inr (Some action) =>
        parseFile_loop flags world (line + Z.of_nat (length parts) + 1)
          EmptyString (actions ++ [action]) rest
    | inr None =>
        parseFile_loop flags world (line + Z.of_nat (length parts) + 1)
          EmptyString actions rest
    end.
Proof.
  intros Hlast. revert line buffer.
  induction parts as [|p parts IH]; intros line buffer; simpl.
  - unfold continued in Hlast.
    destruct (strings.HasSuffix last "\"); [by destruct Hlast|].
    replace (line + Z.of_nat 0 + 1) with (line + 1) by lia. done.
  - rewrite (continued_backslash p), (upto_last p "\"), IH.
    rewrite append_assoc.
    replace (line + 1 + Z.of_nat (length parts) + 1)
      with (line + Z.pos (Pos.of_succ_nat (length parts)) + 1) by lia.
    done.
Qed.

Lemma parseFile_loop_trailing line buffer actions texts p :
  parseFile_loop flags world line buffer actions (texts ++ [p +:+ "\"])
  = parseFile_loop flags world line buffer actions texts.
Proof.
  revert line buffer actions.
  induction texts as [|text texts IH]; intros line buffer actions; simpl.
  - by rewrite (continued_backslash p).
  - destruct (strings.HasSuffix text "\"); [apply IH|].
    destruct (parse flags world (buffer +:+ text)) as [e|[action|]];
      [done|apply IH..].
Qed.

(** X13: A script that is read to its end gives one action for each of its
    lines that does not end in a backslash, the blank ones included. *)
Theorem scanScript_one_action_per_line (script : Script)
    (actions : list Action.t) :
  scanScript flags world script = inr actions →
  length actions
  = length (filter (λ text, ¬ continued text) (lines script)).
Proof.
  unfold scanScript.
  destruct (parseFile_loop _ _ _ _ _ _) as [e|result] eqn:Hloop; [done|].
  cbn [bind]. destruct (scanErr script); [done|]. intros [= <-].
  by apply parseFile_loop_length in Hloop.
Qed.

(** X14: When a script is refused, the error is that of the scanner, or it
    is the error of [parse] on a logical line, under the number, counted
    from 1, of the line of the file at which that logical line ends. *)
Theorem scanScript_error (script : Script) (e : error) :
  scanScript flags world script = inl e →
  (∃ n text logical e',
     lines script !! n = Some text ∧ ¬ continued text ∧
     strings.HasSuffix logical text = true ∧
     parse flags world logical = inl e' ∧
     e = ErrLine (Z.of_nat n + 1) e') ∨
  (∃ msg, scanErr script = Some msg ∧ e = ErrReadingScript msg).
Proof.
  unfold scanScript.
  destruct (parseFile_loop _ _ _ _ _ _) as [e0|result] eqn:Hloop; cbn [bind].
  - intros [= <-]. left.
    apply parseFile_loop_error in Hloop
      as (n & text & logical & e' & ? & ? & ? & ? & ->).
    by exists n, text, logical, e'.
  - destruct (scanErr script) as [msg|]; [|done].
    intros [= <-]. right. by exists msg.
Qed.

(** X15: Lines that end in a backslash are joined, without the backslash, to
    the line that follows, and the whole is parsed as one line; an error in
    it is reported under the number of its last line. *)
Theorem scanScript_joins_continued_lines (parts : list string)
    (last : string) :
  ¬ continued last →
  scanScript flags world
    {| lines := ((λ p, p +:+ "\") <$> parts) ++ [last]; scanErr := None |}
  = match parse flags world (foldr String.append last parts) with
    | inl e => inl (ErrLine (Z.of_nat (length parts) + 1) e)
    | inr action => inr (option_list action)
    end.
Proof.
  intros Hlast. unfold scanScript. simpl.
  rewrite parseFile_loop_continued by done.
  change (EmptyString +:+ foldr String.append last parts)
    with (foldr String.append last parts).
  by destruct (parse flags world _) as [e|[action|]].
Qed.

(** X16: A last line that ends in a backslash is dropped, together with the
    lines that it continues: nothing of them is parsed. *)
Theorem scanScript_drops_trailing_continuation (texts : list string)
    (p : string) (err : option string) :
  scanScript flags world
    {| lines := texts ++ [p +:+ "\"]; scanErr := err |}
  = scanScript flags world {| lines := texts; scanErr := err |}.
Proof. unfold scanScript. simpl. by rewrite parseFile_loop_trailing. Qed.

(** The two options of a line that can make [parse] fail, in the order
    in which they are read. *)
Lemma parse_options_fail {A} (options : gmap string string)
    (k : string → gmap string Z → A) (e : error) :
  bind
    match options !! "timeout" with
    | Some timeout0 =>
        match time_ParseDuration world timeout0 with
        | inl msg => inl (ErrParsingActionTimeout msg)
        | inr duration => inr (fmt_Seconds world duration +:+ "s")
        end
    | None => inr EmptyString
    end
    (λ Timeout,
       bind
         match options !! "ports" with
         | Some v =>
             match parsePorts v with
             | inl e0 => inl (ErrParsingPorts e0)
             | inr ports => inr ports
             end
         | None => inr ∅
         end
         (λ PortMappings, inr (k Timeout PortMappings))) = inl e ↔
  (∃ t msg,
     options !! "timeout" = Some t ∧
     time_ParseDuration world t = inl msg ∧
     e = ErrParsingActionTimeout msg) ∨
  ((∀ t msg, options !! "timeout" = Some t →
             time_ParseDuration world t ≠ inl msg) ∧
   ∃ v e',
     options !! "ports" = Some v ∧
     parsePorts v = inl e' ∧ e = ErrParsingPorts e').
Proof.
  assert ((∃ v e', options !! "ports" = Some v ∧ parsePorts v = inl e' ∧
                    e = ErrParsingPorts e') ↔
          match options !! "ports" with
          | Some v =>
              match parsePorts v with
              | inl e0 => inl (ErrParsingPorts e0)
              | inr ports => inr ports
              end
          | None => inr ∅
          end = (inl e : error + gmap string Z)) as Hports.
  { destruct (options !! "ports") as [v|].
    - destruct (parsePorts v) as [e'|ports] eqn:Hp.
      + split; [intros (v' & e'' & [= <-] & Hp' & ->); congruence|].
        intros [= <-]. by exists v, e'.
      + split; [intros (v' & e'' & [= <-] & Hp' & ->); congruence|done].
    - split; [by intros (v' & e'' & ? & _)|done]. }
  destruct (options !! "timeout") as [t|].
  - destruct (time_ParseDuration world t) as [msg|d] eqn:Hd; cbn [bind].
    + split.
      * intros [= <-]. left. by exists t, msg.
      * intros [(t' & msg' & [= <-] & Hd' & ->)|[Hno _]]; [congruence|].
        by destruct (Hno t msg).
    + rewrite Hports. split.
      * intros He. right. split; [intros ? ? [= <-]; congruence|].
        destruct (match options !! "ports" with
                  | Some v => _ | None => _ end); [|done].
        simpl in He. by injection He as ->.
      * intros [(t' & msg' & [= <-] & Hd' & ->)|[_ ->]]; [congruence|done].
  - cbn [bind]. rewrite Hports. split.
    + intros He. right. split; [done|].
      destruct (match options !! "ports" with
                | Some v => _ | None => _ end); [|done].
      simpl in He. by injection He as ->.
    + intros [(t' & msg' & ? & _)|[_ ->]]; done.
Qed.

(** X17: [parse] fails on a line exactly when the [timeout] option of the
    line is not a duration, or, the timeout being fine, when its [ports]
    option is not a port mapping. *)
Theorem parse_fails (line : string) (e : error) :
  parse flags world line = inl e ↔
  (∃ t msg,
     optionsOf world line !! "timeout" = Some t ∧
     time_ParseDuration world t = inl msg ∧
     e = ErrParsingActionTimeout msg) ∨
  ((∀ t msg, optionsOf world line !! "timeout" = Some t →
             time_ParseDuration world t ≠ inl msg) ∧
   ∃ v e',
     optionsOf world line !! "ports" = Some v ∧
     parsePorts v = inl e' ∧ e = ErrParsingPorts e').
Proof.
  unfold optionsOf, parse.
  destruct (decide (0 ≤ strings.IndexByte line "#")); simpl;
    (destruct (strings.Fields (strings.TrimSpace _)); simpl;
     [|case_decide; simpl]);
    apply parse_options_fail.
Qed.

End Scripts.

Lemma scanScript_one_action_per_line_witness :
  ∃ actions,
    scanScript defaultFlags retriableWorld continuedScript = inr actions ∧
    Action.Commands <$> actions = [["-c"; "echo a b"]; []; ["-c"; "echo c"]] ∧
    length actions
    = length (filter (λ text, ¬ continued text) (lines continuedScript)).
Proof.
  eexists. split; [reflexivity|]. split; [reflexivity|].
  apply (scanScript_one_action_per_line defaultFlags retriableWorld
           continuedScript).
  reflexivity.
Defined.

Lemma scanScript_error_witness :
  (∃ n text logical e',
     lines badPortsScript !! n = Some text ∧ ¬ continued text ∧
     strings.HasSuffix logical text = true ∧
     parse defaultFlags retriableWorld logical = inl e' ∧
     ErrLine 3 (ErrParsingPorts (ErrInvalidPortMapping "1234"))
     = ErrLine (Z.of_nat n + 1) e') ∨
  (∃ msg, scanErr badPortsScript = Some msg ∧
          ErrLine 3 (ErrParsingPorts (ErrInvalidPortMapping "1234"))
          = ErrReadingScript msg).
Proof.
  apply (scanScript_error defaultFlags retriableWorld badPortsScript).
  reflexivity.
Defined.

Lemma scanScript_joins_continued_lines_witness :
  scanScript defaultFlags retriableWorld
    {| lines := ((λ p, p +:+ "\") <$> ["echo a "; "b "]) ++ ["c"];
       scanErr := None |}
  = match parse defaultFlags retriableWorld
            (foldr String.append "c" ["echo a "; "b "]) with
    | inl e => inl (ErrLine (Z.of_nat (length ["echo a "; "b "]) + 1) e)
    | inr action => inr (option_list action)
    end.
Proof.
  apply (scanScript_joins_continued_lines defaultFlags retriableWorld
           ["echo a "; "b "] "c").
  discriminate.
Defined.

(** ** Port mappings and comma separated lists *)

Section PortNames.

(** A text is cut at the first occurrence of a byte into what comes before
    it, which does not hold the byte, and what comes after it. *)
Lemma IndexByte_split s c :
  0 ≤ strings.IndexByte s c →
  s = upto (strings.IndexByte s c) s +:+
      String c (from (strings.IndexByte s c + 1) s) ∧
  strings.IndexByte (upto (strings.IndexByte s c) s) c = -1.
Proof.
  unfold upto, from. induction s as [|a s IH]; simpl; [lia|].
  case_decide as Ha.
  - subst a. intros _. done.
  - case_decide as Hi; [lia|]. intros _.
    destruct IH as [IH1 IH2]; [lia|].
    replace (Z.to_nat (strings.IndexByte s c + 1))
      with (S (Z.to_nat (strings.IndexByte s c))) by lia.
    replace (Z.to_nat (strings.IndexByte s c + 1 + 1))
      with (S (Z.to_nat (strings.IndexByte s c + 1))) by lia.
    simpl. rewrite decide_False by done. rewrite IH2. simpl. split; [|done].
    change (String a s
            = String a (strings.take (Z.to_nat (strings.IndexByte s c)) s +:+
                        String c (strings.drop
                                    (Z.to_nat (strings.IndexByte s c + 1)) s))).
    by rewrite <-IH1.
Qed.

Lemma upto_nonempty s c :
  1 ≤ strings.IndexByte s c → upto (strings.IndexByte s c) s ≠ EmptyString.
Proof.
  unfold upto. destruct s as [|a s]; simpl; [lia|].
  case_decide; [lia|]. case_decide; [lia|]. intros _.
  replace (Z.to_nat (strings.IndexByte s c + 1))
    with (S (Z.to_nat (strings.IndexByte s c))) by lia.
  done.
Qed.

(** What the loop of [parsePorts] adds to the map. *)
Lemma parsePorts_loop_names ports0 pairs ports :
  parsePorts_loop ports0 pairs = inr ports →
  (∀ name n,
     ports !! name = Some n →
     ports0 !! name = Some n ∨
     (name ≠ EmptyString ∧ strings.IndexByte name ":" = -1 ∧
      ∃ text, name +:+ ":" +:+ text ∈ pairs ∧
              strconv.ParseInt text = inr n)) ∧
  (∀ name, is_Some (ports0 !! name) → is_Some (ports !! name)) ∧
  (∀ entry, entry ∈ pairs → is_Some (ports !! portName entry)).
Proof.
  revert ports0. induction pairs as [|entry rest IH]; intros ports0; simpl.
  { intros [= <-]. split; [by left|]. split; [done|].
    by intros entry ?%elem_of_nil. }
  case_decide as Hi; [done|].
  destruct (strconv.ParseInt _) as [e|n] eqn:Hn; [done|].
  intros (Hsound & Hkeep & Hbound)%IH.
  destruct (IndexByte_split entry ":") as [Hcut Hname]; [lia|].
  split; [|split].
  - intros name m [Hm|Hm]%Hsound.
    + apply lookup_insert_Some in Hm as [[<- <-]|[_ Hm]]; [right|by left].
      split; [apply upto_nonempty; lia|]. split; [done|].
      exists (from (strings.IndexByte entry ":" + 1) entry).
      split; [|done].
      assert (upto (strings.IndexByte entry ":") entry +:+ ":" +:+
              from (strings.IndexByte entry ":" + 1) entry = entry) as ->
        by (symmetry; exact Hcut).
      left.
    + right. destruct Hm as (? & ? & text & Htext & ?).
      repeat (split; [done|]). exists text. split; [by right|done].
  - intros name Hname0. apply Hkeep. rewrite lookup_insert_is_Some.
    destruct (decide (upto (strings.IndexByte entry ":") entry = name)); auto.
  - intros e [->|He]%elem_of_cons; [|by apply Hbound].
    apply Hkeep. unfold portName. rewrite lookup_insert_eq. by eexists.
Qed.

(** X18: The map that [parsePorts] returns: every name is the text before
    the first colon of a pair, so it is not empty and holds no colon, and
    its port is the number after the colon of such a pair; and every pair
    gives its name a port. *)
Theorem parsePorts_names (input : string) (ports : gmap string Z) :
  parsePorts input = inr ports →
  (∀ name n,
     ports !! name = Some n →
     name ≠ EmptyString ∧ strings.IndexByte name ":" = -1 ∧
     ∃ text, name +:+ ":" +:+ text ∈ strings.Split input ";" ∧
             strconv.ParseInt text = inr n) ∧
  (∀ entry, entry ∈ strings.Split input ";" →
            is_Some (ports !! portName entry)).
Proof.
  intros (Hsound & _ & Hbound)%parsePorts_loop_names. split; [|done].
  intros name n [Hm|Hm]%Hsound; [|done]. by rewrite lookup_empty in Hm.
Qed.

(** X19: An empty pair is no pair: an empty port mapping, a semicolon at its
    start and a semicolon at its end are errors. *)
Theorem parsePorts_empty_pair :
  parsePorts EmptyString = inl (ErrInvalidPortMapping EmptyString) ∧
  (∀ input,
     parsePorts (";" +:+ input) = inl (ErrInvalidPortMapping EmptyString)) ∧
  (∀ input, ∃ e, parsePorts (input +:+ ";") = inl e).
Proof.
  split; [done|]. split; [done|]. intros input. unfold parsePorts.
  rewrite (Split_snoc_sep input ";").
  destruct (parsePorts_loop ∅ (strings.Split input ";" ++ [EmptyString]))
    as [e|ports] eqn:Hloop; [by exists e|].
  assert (Forall acceptedPair (strings.Split input ";" ++ [EmptyString]))
    as Hall by (apply (parsePorts_loop_ok ∅); by exists ports).
  apply Forall_app in Hall as [_ Hlast].
  apply Forall_inv in Hlast as [Hi _]. simpl in Hi. lia.
Qed.

(** X20: [listOf] and [strings.Join] are inverse to each other on the flags:
    joining the items with commas gives the flag back, and only the empty
    flag has no item. *)
Theorem listOf_Join (input : string) :
  strings.Join (listOf input) "," = input ∧
  (listOf input = [] ↔ input = EmptyString).
Proof.
  unfold listOf. case_decide as Hinput.
  - by subst.
  - split; [apply (Join_Split input ",")|].
    split; [|done]. intros Hnil. by destruct (Split_nonempty input ",").
Qed.

End PortNames.

Lemma parsePorts_names_witness :
  (∀ name n,
     ({[ "ssh" := 22; "web" := 8080 ]} : gmap string Z) !! name = Some n →
     name ≠ EmptyString ∧ strings.IndexByte name ":" = -1 ∧
     ∃ text, name +:+ ":" +:+ text ∈ strings.Split "web:80;ssh:22;web:8080" ";" ∧
             strconv.ParseInt text = inr n) ∧
  (∀ entry, entry ∈ strings.Split "web:80;ssh:22;web:8080" ";" →
            is_Some (({[ "ssh" := 22; "web" := 8080 ]} : gmap string Z)
                       !! portName entry)).
Proof.
  apply (parsePorts_names "web:80;ssh:22;web:8080").
  by vm_compute.
Defined.

(** ** The request assembler: the machine of an assembled request *)

Section AssembledMachine.
Context (flags : Flags) (world : World) (orders : MapOrders).

Lemma mounted_finishActions actions name :
  mounted (finishActions flags actions) name ↔ mounted actions name.
Proof.
  unfold finishActions, mounted. destruct (sharePIDs flags); [|done]. split.
  - intros (a & m & (a0 & -> & Ha0)%list_elem_of_fmap & Hm & Hd).
    by exists a0, m.
  - intros (a & m & Ha & Hm & Hd). exists (sharePID a), m.
    split; [|done]. apply list_elem_of_fmap. by exists a.
Qed.

Lemma addedDisks_names actions :
  Disk.Name <$> (newDisk flags <$> addedDisks orders actions)
  = addedDisks orders actions.
Proof. rewrite <-list_fmap_compose. by rewrite list_fmap_id. Qed.

(** The disks of an assembled request, by name. *)
Lemma buildRequest_diskNames filename project req :
  filename = EmptyString ∨ decodeRequest world filename = None →
  buildRequest flags world orders filename project = inr req →
  ∃ st directoryStep user,
    mkdir flags (planDirectories st) = Some directoryStep ∧
    Pipeline.Actions (RunPipelineRequest.Pipeline req)
    = finishActions flags
        (orderedActions flags world project st directoryStep user) ∧
    VirtualMachine.Disks (machineOf req)
    = newDisk flags
        <$> addedDisks orders
              (orderedActions flags world project st directoryStep user) ∧
    VirtualMachine.BootDiskSizeGb (machineOf req)
    = (if decide (0 < bootDiskSizeGb flags) then bootDiskSizeGb flags else 0).
Proof.
  intros Hraw Hreq.
  destruct (buildRequest_assembled flags world orders _ _ _ Hraw Hreq)
    as (st & mk & user & where_ & Hst & Hmk & Hu & _ & Hp).
  exists st, mk, user. unfold machineOf. rewrite Hp. by simpl.
Qed.

(** X21: The machine of an assembled request has one disk for each disk name
    that a mount of one of its actions refers to, and no other disk; the
    disk [google] of the working directory is always one of them. *)
Theorem buildRequest_disks_mounted (filename project : string)
    (req : RunPipelineRequest.t) :
  admissible orders →
  filename = EmptyString ∨ decodeRequest world filename = None →
  buildRequest flags world orders filename project = inr req →
  NoDup (diskNames req) ∧
  "google" ∈ diskNames req ∧
  (∀ name, name ∈ diskNames req ↔
           mounted (Pipeline.Actions (RunPipelineRequest.Pipeline req)) name).
Proof.
  intros (_ & _ & _ & _ & Hdisks) Hraw Hreq.
  destruct (buildRequest_diskNames _ _ _ Hraw Hreq)
    as (st & mk & user & Hmk & Hacts & Hd & _).
  unfold diskNames. fold (machineOf req). rewrite Hd, addedDisks_names, Hacts.
  set (all := orderedActions flags world project st mk user).
  assert (addedDisks orders all ≡ₚ (map_to_list (requiredDisks all)).*1)
    as Hperm by (unfold addedDisks; by rewrite Hdisks).
  assert (∀ name, name ∈ addedDisks orders all ↔ mounted all name) as Hin.
  { intros name. rewrite Hperm, <-requiredDisks_mounted, list_elem_of_fmap.
    split.
    - intros [[k v] [-> Hkv%elem_of_map_to_list]]. by exists v.
    - intros [v Hv]. exists (name, v). split; [done|].
      by apply elem_of_map_to_list. }
  split; [rewrite Hperm; apply NoDup_fst_map_to_list|]. split.
  - apply Hin. exists mk, googleRoot. split; [left|].
    unfold mkdir in Hmk. destruct (planDirectories st); [done|].
    injection Hmk as <-. split; [left|done].
  - intros name. by rewrite Hin, mounted_finishActions.
Qed.

(** X22: Every disk of an assembled request has the type and the size of the
    flags; the image of [--disk-image] goes to the disk [google] and to no
    other; and the boot disk size is set only from a positive flag. *)
Theorem buildRequest_disk_fields (filename project : string)
    (req : RunPipelineRequest.t) :
  filename = EmptyString ∨ decodeRequest world filename = None →
  buildRequest flags world orders filename project = inr req →
  Forall (λ disk,
            Disk.Type_ disk = diskType flags ∧
            Disk.SizeGb disk = diskSizeGb flags ∧
            Disk.SourceImage disk
            = (if decide (Disk.Name disk = "google") then diskImage flags
               else EmptyString))
         (VirtualMachine.Disks (machineOf req)) ∧
  VirtualMachine.BootDiskSizeGb (machineOf req)
  = Z.max 0 (bootDiskSizeGb flags).
Proof.
  intros Hraw Hreq.
  destruct (buildRequest_diskNames _ _ _ Hraw Hreq)
    as (st & mk & user & _ & _ & -> & ->).
  split; [|case_decide; lia].
  apply Forall_fmap, Forall_forall. intros name _. simpl.
  split; [done|]. split; [done|].
  destruct (decide (name = "google")) as [->|Hne].
  - case_decide as Himg; [done|].
    destruct (decide (diskImage flags = EmptyString)) as [->|?]; [done|].
    destruct Himg. by split.
  - by rewrite decide_False by (intros [_ ?]; done).
Qed.

End AssembledMachine.

Lemma buildRequest_disks_mounted_witness :
  ∃ req,
    buildRequest defaultFlags actionsFileWorld canonicalOrders
                 "actions.json" "project" = inr req ∧
    diskNames req = ["google"; "data"] ∧
    (NoDup (diskNames req) ∧
     "google" ∈ diskNames req ∧
     (∀ name, name ∈ diskNames req ↔
              mounted (Pipeline.Actions (RunPipelineRequest.Pipeline req))
                      name)).
Proof.
  eexists. split; [vm_compute; reflexivity|]. split; [by vm_compute|].
  apply (buildRequest_disks_mounted defaultFlags actionsFileWorld
           canonicalOrders "actions.json" "project").
  - repeat split; intros m; reflexivity.
  - by right.
  - reflexivity.
Defined.

Lemma buildRequest_disk_fields_witness :
  ∃ req,
    buildRequest defaultFlags actionsFileWorld canonicalOrders
                 "actions.json" "project" = inr req ∧
    (Forall (λ disk,
               Disk.Type_ disk = diskType defaultFlags ∧
               Disk.SizeGb disk = diskSizeGb defaultFlags ∧
               Disk.SourceImage disk
               = (if decide (Disk.Name disk = "google")
                  then diskImage defaultFlags else EmptyString))
            (VirtualMachine.Disks (machineOf req)) ∧
     VirtualMachine.BootDiskSizeGb (machineOf req)
     = Z.max 0 (bootDiskSizeGb defaultFlags)).
Proof.
  eexists. split; [vm_compute; reflexivity|].
  apply (buildRequest_disk_fields defaultFlags actionsFileWorld
           canonicalOrders "actions.json" "project").
  - by right.
  - reflexivity.
Defined.

Lemma buildRequest_scopes_witness :
  ∃ req,
    buildRequest (exampleFlags "gs://b/x" "gs://b/o" "echo hi" true 1 0)
      retriableWorld canonicalOrders EmptyString "project" = inr req ∧
    requestScopes req
    = listOf (scopes (exampleFlags "gs://b/x" "gs://b/o" "echo hi" true 1 0))
      ++ [storageScope].
Proof.
  eexists. split; [vm_compute; reflexivity|].
  apply (buildRequest_scopes
           (exampleFlags "gs://b/x" "gs://b/o" "echo hi" true 1 0)
           retriableWorld canonicalOrders EmptyString "project").
  - by left.
  - reflexivity.
Defined.

(** ** The localization planner: failures, buckets and directories *)

Section PlannerFacts.
Context (flags : Flags) (world : World) (orders : MapOrders).

Lemma localizeInput_error root st input name_ e :
  localizeInput flags world root st (input, name_) = inl e →
  url_Parse world input = None ∧
  ∃ msg, ioutil_ReadFile world input = inl msg ∧
         e = ErrProcessing input (ErrReadingInputFile msg).
Proof.
  unfold localizeInput, parseGCSPath, upload.
  destruct (url_Parse world input); [by destruct (fuse flags)|].
  destruct (ioutil_ReadFile world input) as [msg|raw]; [|done].
  intros [= <-]. split; [done|]. by exists msg.
Qed.

(** What one turn of the loop over the inputs does to the buckets and to
    the directories. *)
Lemma localizeInput_buckets root st input name_ st' :
  localizeInput flags world root st (input, name_) = inr st' →
  planBuckets st'
  = match url_Parse world input with
    | Some bucket =>
        if fuse flags
        then <[bucket := path.Join [root; bucket]]> (planBuckets st)
        else planBuckets st
    | None => planBuckets st
    end ∧
  ∃ more, planDirectories st' = planDirectories st ++ more.
Proof.
  unfold localizeInput, parseGCSPath, upload.
  destruct (url_Parse world input).
  - destruct (fuse flags); intros [= <-]; simpl.
    + split; [done|]. exists []. by rewrite app_nil_r.
    + split; [done|]. destruct (strings.HasSuffix input "*"); [by eexists|].
      exists []. by rewrite app_nil_r.
  - destruct (ioutil_ReadFile world input) as [msg|raw]; [done|].
    intros [= <-]. simpl. split; [done|].
    destruct (strings.HasSuffix input "*"); [by eexists|].
    exists []. by rewrite app_nil_r.
Qed.

Lemma forEach_localizeInput_error root st l e :
  forEach (localizeInput flags world root) st l = inl e →
  ∃ input name_ msg,
    (input, name_) ∈ l ∧ url_Parse world input = None ∧
    ioutil_ReadFile world input = inl msg ∧
    e = ErrProcessing input (ErrReadingInputFile msg).
Proof.
  revert st. induction l as [|[input name_] l IH]; intros st; cbn [forEach];
    [done|].
  destruct (localizeInput _ _ _ _ _) as [e0|st1] eqn:H1; cbn [bind].
  - intros [= <-]. apply localizeInput_error in H1 as (Hurl & msg & Hread & ->).
    exists input, name_, msg. split; [left|done].
  - intros (i & n & msg & Hin & ?)%IH. exists i, n, msg. split; [by right|done].
Qed.

Lemma forEach_localizeInput_fails root st l input name_ :
  (input, name_) ∈ l → ¬ localizable world input →
  ∃ e, forEach (localizeInput flags world root) st l = inl e.
Proof.
  intros Hin Hbad. revert st.
  induction l as [|[i n] l IH]; intros st; [by apply elem_of_nil in Hin|].
  cbn [forEach].
  destruct (localizeInput _ _ _ _ _) as [e0|st1] eqn:H1; cbn [bind];
    [by eexists|].
  apply elem_of_cons in Hin as [[= <- <-]|Hin]; [|by apply IH].
  exfalso. apply Hbad. revert H1.
  unfold localizable, localizeInput, parseGCSPath, upload.
  destruct (url_Parse world input); [intros _; left; by eexists|].
  destruct (ioutil_ReadFile world input) as [msg|raw]; [done|].
  intros _. right. by eexists.
Qed.

(** The buckets after the loop over the inputs: each one is mounted
    under the root, by its name. *)
Lemma forEach_localizeInput_buckets root st l st' :
  (∀ bucket mountpoint,
     planBuckets st !! bucket = Some mountpoint →
     mountpoint = path.Join [root; bucket]) →
  forEach (localizeInput flags world root) st l = inr st' →
  (∀ bucket mountpoint,
     planBuckets st' !! bucket = Some mountpoint ↔
     mountpoint = path.Join [root; bucket] ∧
     (is_Some (planBuckets st !! bucket) ∨
      (fuse flags = true ∧
       ∃ input name_, (input, name_) ∈ l ∧
                      url_Parse world input = Some bucket))) ∧
  ∃ more, planDirectories st' = planDirectories st ++ more.
Proof.
  revert st. induction l as [|[input name_] l IH]; intros st Hinv;
    cbn [forEach].
  { intros [= <-]. split; [|exists []; by rewrite app_nil_r].
    intros bucket mountpoint. split.
    - intros Hb. split; [by apply Hinv|]. left. by eexists.
    - intros [-> [[mp Hmp]|(_ & i & n & []%elem_of_nil & _)]].
      by rewrite Hmp, (Hinv _ _ Hmp). }
  destruct (localizeInput _ _ _ _ _) as [e0|st1] eqn:H1; cbn [bind]; [done|].
  apply localizeInput_buckets in H1 as [Hb1 [more1 Hd1]].
  intros Hloop. destruct (IH st1) as [Hb [more Hd]]; [|done|].
  { intros bucket mountpoint. rewrite Hb1.
    destruct (url_Parse world input) as [b|]; [|apply Hinv].
    destruct (fuse flags); [|apply Hinv].
    intros [[<- <-]|[_ ?]]%lookup_insert_Some; [done|by apply Hinv]. }
  split; [|exists (more1 ++ more); by rewrite Hd, Hd1, <-app_assoc].
  intros bucket mountpoint. rewrite Hb, Hb1. split.
  - intros [-> Hsrc]. split; [done|].
    destruct Hsrc as [Hsome|(Hfuse & i & n & Hin & Hurl)].
    + destruct (url_Parse world input) as [b|] eqn:Hurl; [|by left].
      destruct (fuse flags) eqn:Hfuse; [|by left].
      apply lookup_insert_is_Some in Hsome as [<-|[_ ?]]; [|by left].
      right. split; [done|]. exists input, name_. split; [left|done].
    + right. split; [done|]. exists i, n. split; [by right|done].
  - intros [-> Hsrc]. split; [done|].
    destruct Hsrc as [Hsome|(Hfuse & i & n & [[= <- <-]|Hin]%elem_of_cons & Hurl)].
    + left. destruct (url_Parse world input) as [b|]; [|done].
      destruct (fuse flags); [|done].
      apply lookup_insert_is_Some. destruct (decide (b = bucket)); auto.
    + left. rewrite Hurl, Hfuse. rewrite lookup_insert_eq. by eexists.
    + right. split; [done|]. by exists i, n.
Qed.

Lemma foldl_delocalizeOutput_plan root st l :
  planBuckets (foldl (delocalizeOutput flags root) st l) = planBuckets st ∧
  ∃ more,
    planDirectories (foldl (delocalizeOutput flags root) st l)
    = planDirectories st ++ more.
Proof.
  revert st. induction l as [|[output_ name_] l IH]; intros st.
  - split; [done|]. exists []. by rewrite app_nil_r.
  - cbn [foldl].
    destruct (IH (delocalizeOutput flags root st (output_, name_)))
      as (-> & more & ->).
    split; [done|]. simpl. rewrite <-app_assoc. by eexists.
Qed.

(** The plan keeps the buckets of the loop over the inputs; its
    directories start with the temporary directory and hold the mount
    points of the buckets. *)
Lemma plan_buckets_directories st :
  plan flags world orders = inr st →
  ∃ st1 more1 more2,
    forEach (localizeInput flags world (googlePath "input"))
      {| planEnvironment :=
           <["TMPDIR" := googlePath "tmp"]> (environment flags);
         planBuckets := ∅;
         planDirectories := [googlePath "tmp"];
         planLocalizers := [];
         planDelocalizers := [] |}
      (rangeInputs orders (namedListOf (inputs flags) "INPUT")) = inr st1 ∧
    planBuckets st = planBuckets st1 ∧
    planLocalizers st
    = planLocalizers st1 ++
      (if decide (0 < size (planBuckets st1))%nat
       then gcsFuse orders (planBuckets st1) else []) ∧
    planDirectories st
    = googlePath "tmp" :: more1 ++
      (if decide (0 < size (planBuckets st1))%nat
       then (rangeBuckets orders (planBuckets st1)).*2 else []) ++ more2.
Proof.
  unfold plan.
  destruct (forEach _ _ _) as [e|st1] eqn:Hloop; [done|]. cbn [bind].
  intros [= <-]. simpl.
  destruct (foldl_delocalizeOutput_plan (googlePath "output")
              (mountBuckets orders st1)
              (rangeOutputs orders (namedListOf (outputs flags) "OUTPUT")))
    as (-> & more2 & ->).
  destruct (foldl_delocalizeOutput flags (googlePath "output")
              (mountBuckets orders st1)
              (rangeOutputs orders (namedListOf (outputs flags) "OUTPUT")))
    as (_ & -> & _).
  destruct (mountBuckets_plan orders st1) as (-> & _ & _).
  apply forEach_localizeInput_buckets in Hloop as [_ [more1 Hd1]];
    [|intros ? ? Hb; simpl in Hb; by rewrite lookup_empty in Hb].
  simpl in Hd1.
  assert (planBuckets (mountBuckets orders st1) = planBuckets st1) as ->
    by (unfold mountBuckets; by case_decide).
  assert (planDirectories (mountBuckets orders st1)
          = planDirectories st1 ++
            (if decide (0 < size (planBuckets st1))%nat
             then (rangeBuckets orders (planBuckets st1)).*2 else [])) as ->.
  { unfold mountBuckets. case_decide; [done|]. by rewrite app_nil_r. }
  exists st1, more1, more2. split; [done|]. split; [done|]. split; [done|].
  rewrite Hd1. simpl. by rewrite <-!app_assoc.
Qed.

End PlannerFacts.

Section PlannerClaims.
Context (flags : Flags) (world : World) (orders : MapOrders).

Lemma range_lookup {V} (range : gmap string V → list (string * V))
    (m : gmap string V) k v :
  range m ≡ₚ map_to_list m → (k, v) ∈ range m ↔ m !! k = Some v.
Proof. intros ->. apply elem_of_map_to_list. Qed.

Lemma not_localizable input :
  ¬ localizable world input ↔
  url_Parse world input = None ∧ ∃ msg, ioutil_ReadFile world input = inl msg.
Proof.
  unfold localizable. split.
  - intros Hno. destruct (url_Parse world input) eqn:Hurl.
    { destruct Hno. left. by eexists. }
    split; [done|]. destruct (ioutil_ReadFile world input) as [msg|raw] eqn:Hr.
    + by exists msg.
    + destruct Hno. right. by exists raw.
  - intros [Hurl [msg Hr]] [[? Hs]|[raw Hraw]]; congruence.
Qed.

(** X24: The plan fails exactly when some input is neither a text that
    [url.Parse] accepts nor a file that can be read, and the error names
    such an input. *)
Theorem plan_fails :
  admissible orders →
  (∀ e, plan flags world orders = inl e →
        ∃ input name_ msg,
          namedListOf (inputs flags) "INPUT" !! input = Some name_ ∧
          url_Parse world input = None ∧
          ioutil_ReadFile world input = inl msg ∧
          e = ErrProcessing input (ErrReadingInputFile msg)) ∧
  ((∃ e, plan flags world orders = inl e) ↔
   ∃ input, is_Some (namedListOf (inputs flags) "INPUT" !! input) ∧
            ¬ localizable world input).
Proof.
  intros (Hin & _). specialize (Hin (namedListOf (inputs flags) "INPUT")).
  assert (∀ e, plan flags world orders = inl e →
               ∃ input name_ msg,
                 namedListOf (inputs flags) "INPUT" !! input = Some name_ ∧
                 url_Parse world input = None ∧
                 ioutil_ReadFile world input = inl msg ∧
                 e = ErrProcessing input (ErrReadingInputFile msg)) as Hshape.
  { intros e. unfold plan.
    destruct (forEach _ _ _) as [e'|st1] eqn:Hloop; [|done]. cbn [bind].
    intros [= <-].
    apply forEach_localizeInput_error in Hloop
      as (input & name_ & msg & Hentry & Hurl & Hread & ->).
    exists input, name_, msg. split; [|done]. by apply (range_lookup (rangeInputs orders)). }
  split; [done|]. split.
  - intros [e (input & name_ & msg & Hl & Hurl & Hread & _)%Hshape].
    exists input. split; [by eexists|]. apply not_localizable.
    split; [done|]. by exists msg.
  - intros (input & [name_ Hl] & Hbad). unfold plan.
    destruct (forEach_localizeInput_fails flags world (googlePath "input")
                {| planEnvironment :=
                     <["TMPDIR" := googlePath "tmp"]> (environment flags);
                   planBuckets := ∅;
                   planDirectories := [googlePath "tmp"];
                   planLocalizers := [];
                   planDelocalizers := [] |}
                (rangeInputs orders (namedListOf (inputs flags) "INPUT"))
                input name_) as [e ->]; [|done|by exists e].
    by apply (range_lookup (rangeInputs orders)).
Qed.

Lemma localizersOf_fuse_nil root l per :
  fuse flags = true →
  Forall2 (λ entry acts, localizersOf flags world root entry = inr acts)
          l per →
  (∀ entry, entry ∈ l → is_Some (url_Parse world entry.1)) →
  concat per = [].
Proof.
  intros Hf. induction 1 as [|entry acts l per Hacts _ IH]; intros Hurls;
    [done|].
  simpl. rewrite IH by (intros e He; apply Hurls; by right).
  destruct (Hurls entry) as [host Hhost]; [left|].
  revert Hacts. unfold localizersOf, parseGCSPath. rewrite Hhost, Hf.
  by intros [= <-].
Qed.

Lemma gcsFuse_step_length acc l :
  length (foldl gcsFuse_step acc l) = (length acc + 2 * length l)%nat.
Proof.
  revert acc. induction l as [|[bucket mp] l IH]; intros acc; simpl; [lia|].
  rewrite IH, length_app. simpl. lia.
Qed.

Lemma gcsFuse_length buckets :
  admissible orders →
  length (gcsFuse orders buckets) = (2 * size buckets)%nat.
Proof.
  intros (_ & _ & Hfuse & _). unfold gcsFuse.
  rewrite gcsFuse_step_length. simpl.
  by rewrite (Hfuse buckets), length_map_to_list.
Qed.

(** X25: Under [--fuse] the buckets of the inputs are mounted, each bucket
    once, however many inputs name it, under the input root and by its name;
    a mount takes two actions; inputs that [url.Parse] accepts are not
    copied; and the mount points are among the directories that the first
    action makes. Without [--fuse] no bucket is mounted. *)
Theorem plan_fuse_buckets (st : Plan) :
  admissible orders →
  plan flags world orders = inr st →
  (∀ bucket mountpoint,
     planBuckets st !! bucket = Some mountpoint ↔
     fuse flags = true ∧
     mountpoint = path.Join [googlePath "input"; bucket] ∧
     ∃ input, is_Some (namedListOf (inputs flags) "INPUT" !! input) ∧
              url_Parse world input = Some bucket) ∧
  length (gcsFuse orders (planBuckets st)) = (2 * size (planBuckets st))%nat ∧
  (fuse flags = true →
   (∀ input, is_Some (namedListOf (inputs flags) "INPUT" !! input) →
             is_Some (url_Parse world input)) →
   planLocalizers st = gcsFuse orders (planBuckets st)) ∧
  (∀ bucket mountpoint,
     planBuckets st !! bucket = Some mountpoint →
     mountpoint ∈ planDirectories st).
Proof.
  intros Hadm Hplan.
  pose proof Hadm as (Hin & Hbuckets & Hfuse & Hrest).
  specialize (Hin (namedListOf (inputs flags) "INPUT")).
  destruct (plan_buckets_directories flags world orders st Hplan)
    as (st1 & more1 & more2 & Hloop & Hb & Hl & Hd).
  pose proof Hloop as Hlook.
  apply (forEach_localizeInput_buckets flags world) in Hlook as [Hlook _];
    [|intros ? ? Hb'; simpl in Hb'; by rewrite lookup_empty in Hb'].
  simpl in Hlook.
  assert (∀ buckets : gmap string string,
            (if decide (0 < size buckets)%nat
             then gcsFuse orders buckets else []) = gcsFuse orders buckets)
    as Hnone.
  { intros buckets.
    destruct (decide (0 < size buckets)%nat) as [Hsize|Hsize]; [done|].
    assert (buckets = ∅) as -> by (apply map_size_empty_iff; lia).
    unfold gcsFuse. specialize (Hfuse (∅ : gmap string string)).
    rewrite map_to_list_empty in Hfuse.
    apply Permutation_nil_r in Hfuse. by rewrite Hfuse. }
  split; [|split; [|split]].
  - intros bucket mountpoint. rewrite Hb, Hlook, lookup_empty. split.
    + intros [-> [[? [=]]|(Hf & input & name_ & Hentry & Hurl)]].
      split; [done|]. split; [done|]. exists input. split; [|done].
      exists name_. by apply (range_lookup (rangeInputs orders)).
    + intros (Hf & -> & input & [name_ Hl'] & Hurl). split; [done|]. right.
      split; [done|]. exists input, name_. split; [|done].
      by apply (range_lookup (rangeInputs orders)).
  - by apply gcsFuse_length.
  - intros Hf Hurls. rewrite Hl, Hnone, Hb.
    apply (forEach_localizeInput flags world) in Hloop
      as (per & Hper & Hloc & _).
    rewrite Hloc. simpl.
    rewrite (localizersOf_fuse_nil _ _ _ Hf Hper); [done|].
    intros [input name_] Hentry. apply Hurls. exists name_.
    by apply (range_lookup (rangeInputs orders)).
  - intros bucket mountpoint. rewrite Hb, Hd. intros Hmp.
    apply list_elem_of_further. rewrite !elem_of_app. right. left.
    rewrite decide_True.
    + apply list_elem_of_fmap. exists (bucket, mountpoint). split; [done|].
      by apply (range_lookup (rangeBuckets orders)).
    + assert (planBuckets st1 ≠ ∅) as Hne by (intros Heq; by rewrite Heq in Hmp).
      apply map_size_non_empty_iff in Hne. lia.
Qed.

End PlannerClaims.

Lemma plan_fails_witness :
  plan (exampleFlags "gs://b/x,config%.txt" EmptyString "true" false 1 0)
       noFilesWorld canonicalOrders
  = inl (ErrProcessing "config%.txt"
           (ErrReadingInputFile "no such file or directory")) ∧
  (∀ e,
     plan (exampleFlags "gs://b/x,config%.txt" EmptyString "true" false 1 0)
          noFilesWorld canonicalOrders = inl e →
     ∃ input name_ msg,
       namedListOf
         (inputs (exampleFlags "gs://b/x,config%.txt" EmptyString "true"
                    false 1 0)) "INPUT" !! input = Some name_ ∧
       url_Parse noFilesWorld input = None ∧
       ioutil_ReadFile noFilesWorld input = inl msg ∧
       e = ErrProcessing input (ErrReadingInputFile msg)) ∧
  ((∃ e,
      plan (exampleFlags "gs://b/x,config%.txt" EmptyString "true" false 1 0)
           noFilesWorld canonicalOrders = inl e) ↔
   ∃ input,
     is_Some (namedListOf
                (inputs (exampleFlags "gs://b/x,config%.txt" EmptyString
                           "true" false 1 0)) "INPUT" !! input) ∧
     ¬ localizable noFilesWorld input).
Proof.
  split; [reflexivity|].
  apply (plan_fails
           (exampleFlags "gs://b/x,config%.txt" EmptyString "true" false 1 0)
           noFilesWorld canonicalOrders).
  repeat split; intros m; reflexivity.
Defined.

Lemma plan_fuse_buckets_witness :
  ∃ st,
    plan (withFuse (exampleFlags "gs://b/x,gs://b/y,gs://c/z" EmptyString
                      "true" false 1 0))
         retriableWorld canonicalOrders = inr st ∧
    planBuckets st
    = {[ "b" := "/mnt/google/.google/input/b";
         "c" := "/mnt/google/.google/input/c" ]} ∧
    length (planLocalizers st) = 4%nat ∧
    ((∀ bucket mountpoint,
        planBuckets st !! bucket = Some mountpoint ↔
        fuse (withFuse (exampleFlags "gs://b/x,gs://b/y,gs://c/z" EmptyString
                          "true" false 1 0)) = true ∧
        mountpoint = path.Join [googlePath "input"; bucket] ∧
        ∃ input,
          is_Some (namedListOf
                     (inputs (withFuse (exampleFlags
                                          "gs://b/x,gs://b/y,gs://c/z"
                                          EmptyString "true" false 1 0)))
                     "INPUT" !! input) ∧
          url_Parse retriableWorld input = Some bucket) ∧
     length (gcsFuse canonicalOrders (planBuckets st))
     = (2 * size (planBuckets st))%nat ∧
     (fuse (withFuse (exampleFlags "gs://b/x,gs://b/y,gs://c/z" EmptyString
                        "true" false 1 0)) = true →
      (∀ input,
         is_Some (namedListOf
                    (inputs (withFuse (exampleFlags
                                         "gs://b/x,gs://b/y,gs://c/z"
                                         EmptyString "true" false 1 0)))
                    "INPUT" !! input) →
         is_Some (url_Parse retriableWorld input)) →
      planLocalizers st = gcsFuse canonicalOrders (planBuckets st)) ∧
     (∀ bucket mountpoint,
        planBuckets st !! bucket = Some mountpoint →
        mountpoint ∈ planDirectories st)).
Proof.
  eexists. split; [vm_compute; reflexivity|].
  split; [by vm_compute|]. split; [reflexivity|].
  apply (plan_fuse_buckets
           (withFuse (exampleFlags "gs://b/x,gs://b/y,gs://c/z" EmptyString
                        "true" false 1 0))
           retriableWorld canonicalOrders).
  - repeat split; intros m; reflexivity.
  - reflexivity.
Defined.

Lemma localizeInput_upload_witness :
  ∃ st,
    plan (exampleFlags "CONFIG=config%.txt" EmptyString "true" false 1 0)
         (localFilesWorld (λ filename,
            if decide (filename = "config%.txt") then Some "a=1" else None))
         canonicalOrders = inr st ∧
    Action.Commands <$> planLocalizers st
    = [["-c"; "mkdir -p /mnt/google/.google/input && " +:+
              "echo a=1 | base64 -d > /mnt/google/.google/input/config%.txt"]] ∧
    planEnvironment st !! "CONFIG"
    = Some "/mnt/google/.google/input/config%.txt" ∧
    ∃ st',
      localizeInput
        (exampleFlags "CONFIG=config%.txt" EmptyString "true" false 1 0)
        (localFilesWorld (λ filename,
           if decide (filename = "config%.txt") then Some "a=1" else None))
        (googlePath "input") st ("config%.txt", "CONFIG") = inr st' ∧
      planLocalizers st'
      = planLocalizers st ++
        [bash (exampleFlags "CONFIG=config%.txt" EmptyString "true" false 1 0)
           [ "mkdir -p " +:+ path.Dir (target (googlePath "input") "config%.txt");
             "echo " +:+ "a=1" +:+ " | base64 -d > " +:+
             target (googlePath "input") "config%.txt" ]].
Proof.
  eexists. split; [vm_compute; reflexivity|].
  split; [reflexivity|]. split; [reflexivity|].
  apply (localizeInput_upload
           (exampleFlags "CONFIG=config%.txt" EmptyString "true" false 1 0)
           (localFilesWorld (λ filename,
              if decide (filename = "config%.txt") then Some "a=1" else None))
           (googlePath "input") _ "config%.txt" "CONFIG" "a=1");
    reflexivity.
Defined.

(** ** The request assembler: no nil action *)

Section NoNilAction.
Context (flags : Flags) (world : World) (orders : MapOrders).

Lemma userActions_error filename e :
  userActions flags world filename = inl e → isBuildError e.
Proof.
  unfold userActions. repeat case_decide.
  - destruct (parseFile _ _ _); intros [= <-]; done.
  - destruct (parse _ _ _); intros [= <-]; done.
  - by intros [= <-].
Qed.

Lemma locations_error project e :
  locations flags world project = inl e → isBuildError e.
Proof.
  unfold locations. case_decide; [by intros [= <-]|].
  case_decide; cbn [bind].
  - destruct (expandPrefixes _ _ _); cbn [bind]; [by intros [= <-]|].
    case_decide; cbn [bind].
    + destruct (expandPrefixes _ _ _); cbn [bind]; [by intros [= <-]|].
      by case_decide.
    + by case_decide.
  - case_decide; cbn [bind].
    + destruct (expandPrefixes _ _ _); cbn [bind]; [by intros [= <-]|].
      by case_decide.
    + by case_decide.
Qed.

Lemma plan_error e : plan flags world orders = inl e → isBuildError e.
Proof.
  unfold plan. destruct (forEach _ _ _) as [e'|st1] eqn:Hloop; [|done].
  cbn [bind]. intros [= <-].
  by apply forEach_localizeInput_error in Hloop as (? & ? & ? & _ & _ & _ & ->).
Qed.

(** X27: A request is assembled from pointers to actions, and reading
    through a nil one would stop the program. For a script and for
    [--command] no nil pointer arises: [mkdir] is always given the temporary
    directory, so it returns an action, and [parse] returns an action
    whenever it returns no error. (An actions file in JSON is taken to hold
    no null action.) *)
Theorem buildRequest_no_nil_action (filename project : string) :
  decodeActions world filename = None →
  match buildRequest flags world orders filename project with
  | inl e => isBuildError e
  | inr _ => True
  end.
Proof.
  intros _. unfold buildRequest.
  destruct (if decide (filename ≠ EmptyString) then _ else None); [done|].
  destruct (plan flags world orders) as [e|st] eqn:Hplan; cbn [bind];
    [by apply plan_error in Hplan|].
  destruct (userActions flags world filename) as [e|uacts] eqn:Hu; cbn [bind];
    [by apply userActions_error in Hu|].
  destruct (locations flags world project) as [e|where_] eqn:Hw; cbn [bind];
    [by apply locations_error in Hw|].
  destruct (mapM id _) as [all|] eqn:Hall; [done|].
  exfalso. apply eq_None_not_Some in Hall. apply Hall.
  apply userActions_Some in Hu as [user ->].
  destruct (plan_buckets_directories flags world orders st Hplan)
    as (st1 & more1 & more2 & _ & _ & _ & Hd).
  unfold pipelineActions, mkdir. rewrite Hd.
  exists (orderedActions flags world project st
            (bash flags
               ["mkdir -p " +:+
                strings.Join (mkdirArguments (planDirectories st)) " "])
            user).
  apply mapM_id_Some. unfold orderedActions. rewrite Hd, !fmap_app.
  by destruct (ssh flags).
Qed.

End NoNilAction.

Lemma buildRequest_no_nil_action_witness :
  match buildRequest defaultFlags scriptWorld canonicalOrders
          "script.sh" "project" with
  | inl e => isBuildError e
  | inr _ => True
  end.
Proof.
  apply (buildRequest_no_nil_action defaultFlags scriptWorld canonicalOrders
           "script.sh" "project").
  reflexivity.
Defined.

(** ** The script parser: the image of an action *)

Section ActionImage.
Context (flags : Flags) (world : World).

Lemma detectImage_background (commands : list string)
    (options : gmap string string) :
  last commands = Some "&" →
  detectImage flags (take (pred (length commands)) commands) options
  = detectImage flags commands options.
Proof.
  intros Hlast. unfold detectImage. destruct (options !! "image"); [done|].
  destruct commands as [|first [|second rest]]; [done| |done].
  simpl in Hlast. by injection Hlast as ->.
Qed.

(** X28: The image of a parsed action is the [image] option of the line when
    it has one; otherwise it is the cloud SDK image when the first word of
    the command is [gsutil] or [gcloud], and the default image when it is
    not or when there is no command; a [&] at the end of the command changes
    nothing to this. The action mounts the working disk and has no namespace
    of its own. *)
Theorem parse_image (line : string) (action : Action.t) :
  parse flags world line = inr (Some action) →
  Action.ImageUri action
  = match optionsOf world line !! "image", commandOf line with
    | Some image, _ => image
    | None, first :: _ =>
        if isCloudCommand first then cloudSDKImage flags
        else defaultImage flags
    | None, [] => defaultImage flags
    end ∧
  Action.Mounts action = [googleRoot] ∧
  Action.PidNamespace action = EmptyString.
Proof.
  assert (∀ commands options,
            detectImage flags commands options
            = match options !! "image", commands with
              | Some image, _ => image
              | None, first :: _ =>
                  if isCloudCommand first then cloudSDKImage flags
                  else defaultImage flags
              | None, [] => defaultImage flags
              end) as Himage.
  { intros commands options. unfold detectImage.
    by destruct (options !! "image"), commands. }
  unfold optionsOf, commandOf, parse.
  destruct (decide (0 ≤ strings.IndexByte line "#")); simpl;
    (destruct (strings.Fields (strings.TrimSpace _)) as [|first rest] eqn:Hf;
     simpl; [|case_decide as Hbg; simpl]);
    (destruct (_ !! "timeout"); simpl;
     [destruct (time_ParseDuration _ _); simpl; [done|]|]);
    (destruct (_ !! "ports"); simpl; [destruct (parsePorts _); simpl; [done|]|]);
    intros [= <-]; simpl; (split; [|done]);
    try change (length rest) with (pred (length (first :: rest)));
    rewrite ?detectImage_background by done;
    by rewrite Himage.
Qed.

End ActionImage.

Lemma parse_image_witness :
  ∃ action,
    parse defaultFlags retriableWorld "gsutil ls gs://b &  # image=ubuntu"
    = inr (Some action) ∧
    Action.ImageUri action = "ubuntu" ∧
    (Action.ImageUri action
     = match optionsOf retriableWorld "gsutil ls gs://b &  # image=ubuntu"
               !! "image",
             commandOf "gsutil ls gs://b &  # image=ubuntu" with
       | Some image, _ => image
       | None, first :: _ =>
           if isCloudCommand first then cloudSDKImage defaultFlags
           else defaultImage defaultFlags
       | None, [] => defaultImage defaultFlags
       end ∧
     Action.Mounts action = [googleRoot] ∧
     Action.PidNamespace action = EmptyString).
Proof.
  eexists. split; [vm_compute; reflexivity|]. split; [reflexivity|].
  apply (parse_image defaultFlags retriableWorld
           "gsutil ls gs://b &  # image=ubuntu").
  reflexivity.
Defined.

(** ** The request assembler: the sequence of the actions *)

Section ActionSequence.
Context (flags : Flags) (world : World) (orders : MapOrders).

(** The actions that the user supplies: those of the file, or the one of
    the [--command] flag. *)
Lemma userActions_supplied filename user :
  userActions flags world filename = inr (Some <$> user) →
  (filename ≠ EmptyString ∧ parseFile flags world filename = inr user) ∨
  (filename = EmptyString ∧
   ∃ action, parse flags world (command flags) = inr (Some action) ∧
             user = [action]).
Proof.
  unfold userActions. case_decide as Hfile.
  - destruct (parseFile _ _ _) as [e|v]; [done|].
    intros [= Hv]. apply (inj (fmap Some)) in Hv as ->. by left.
  - case_decide; [|done].
    destruct (parse flags world (command flags)) as [e|action] eqn:Hp; [done|].
    intros [= Hu]. right. split; [by destruct (decide (filename = EmptyString));
      [|destruct Hfile]|].
    destruct user as [|a [|b user]]; simpl in Hu; try done.
    injection Hu as ->. by exists a.
Qed.

Lemma gcsFuse_if_mounted buckets :
  admissible orders →
  (if decide (0 < size buckets)%nat then gcsFuse orders buckets else [])
  = gcsFuse orders buckets.
Proof.
  intros (_ & _ & Hfuse & _).
  destruct (decide (0 < size buckets)%nat) as [Hsize|Hsize]; [done|].
  assert (buckets = ∅) as -> by (apply map_size_empty_iff; lia).
  unfold gcsFuse. specialize (Hfuse (∅ : gmap string string)).
  rewrite map_to_list_empty in Hfuse.
  apply Permutation_nil_r in Hfuse. by rewrite Hfuse.
Qed.

(** The actions of [gcsFuse], bucket by bucket. *)
Lemma gcsFuse_actions buckets :
  gcsFuse orders buckets
  = concat
      ((λ entry,
          [ {| Action.ImageUri := "gcr.io/cloud-genomics-pipelines/gcsfuse";
               Action.Commands :=
                 ["--implicit-dirs"; "--foreground"; entry.1; entry.2];
               Action.Entrypoint := EmptyString;
               Action.Flags := ["ENABLE_FUSE"; "RUN_IN_BACKGROUND"];
               Action.Mounts := [googleRoot];
               Action.PortMappings := ∅;
               Action.Timeout := EmptyString;
               Action.PidNamespace := EmptyString |};
            {| Action.ImageUri := "gcr.io/cloud-genomics-pipelines/gcsfuse";
               Action.Commands := ["wait"; entry.2];
               Action.Entrypoint := EmptyString;
               Action.Flags := [];
               Action.Mounts := [googleRoot];
               Action.PortMappings := ∅;
               Action.Timeout := EmptyString;
               Action.PidNamespace := EmptyString |} ])
         <$> rangeFuse orders buckets).
Proof.
  unfold gcsFuse.
  match goal with
  | |- _ = concat (?f <$> _) =>
      enough (∀ l acc, foldl gcsFuse_step acc l = acc ++ concat (f <$> l))
        as Hfold by apply (Hfold _ [])
  end.
  induction l as [|[bucket mountpoint] l IH]; intros acc; simpl;
    [by rewrite app_nil_r|].
  rewrite IH. by rewrite <-app_assoc.
Qed.

(** C4, amended: the actions of a request that [buildRequest] assembles
    are, in this order: the directory creation step, a bash action that
    runs [mkdir -p] on the merged directories of the plan; the debug
    server, when [--ssh] is given; the localizers, which are the actions
    of the turns of the loop over the inputs (at most one for each input)
    followed by two actions for each bucket to mount, one that mounts it
    and one that waits for the mount; the background action
    of the tool that copies the combined output every interval, when
    [--output] and [--output-interval] are both given; the actions of the
    user, which are those of the file or the one of [--command]; and the
    delocalizers, one copy for each output followed by the last copy of
    the combined output, when [--output] is given.  With [--share-pids]
    every action is given the shared namespace; nothing else of the
    actions, and nothing of their order, is changed. *)
Theorem buildRequest_action_order (filename project : string)
    (req : RunPipelineRequest.t) :
  admissible orders →
  filename = EmptyString ∨ decodeRequest world filename = None →
  buildRequest flags world orders filename project = inr req →
  ∃ st ins per mounts outs user,
    plan flags world orders = inr st ∧
    ins ≡ₚ map_to_list (namedListOf (inputs flags) "INPUT") ∧
    Forall2 (λ entry acts,
               localizersOf flags world (googlePath "input") entry = inr acts ∧
               (length acts ≤ 1)%nat) ins per ∧
    mounts ≡ₚ map_to_list (planBuckets st) ∧
    outs ≡ₚ map_to_list (namedListOf (outputs flags) "OUTPUT") ∧
    ((filename ≠ EmptyString ∧ parseFile flags world filename = inr user) ∨
     (filename = EmptyString ∧
      ∃ action, parse flags world (command flags) = inr (Some action) ∧
                user = [action])) ∧
    Pipeline.Actions (RunPipelineRequest.Pipeline req)
    = (λ action,
         if sharePIDs flags
         then {| Action.ImageUri := Action.ImageUri action;
                 Action.Commands := Action.Commands action;
                 Action.Entrypoint := Action.Entrypoint action;
                 Action.Flags := Action.Flags action;
                 Action.Mounts := Action.Mounts action;
                 Action.PortMappings := Action.PortMappings action;
                 Action.Timeout := Action.Timeout action;
                 Action.PidNamespace := "shared" |}
         else action)
      <$> ([ {| Action.ImageUri := cloudSDKImage flags;
                Action.Commands :=
                  ["-c";
                   "mkdir -p " +:+
                   strings.Join (mkdirArguments (planDirectories st)) " "];
                Action.Entrypoint := "bash";
                Action.Flags := [];
                Action.Mounts :=
                  [{| Mount.Disk := "google"; Mount.Path := "/mnt/google" |}];
                Action.PortMappings := ∅;
                Action.Timeout := EmptyString;
                Action.PidNamespace := EmptyString |} ] ++
           (if ssh flags
            then [ {| Action.ImageUri := "gcr.io/cloud-genomics-pipelines/tools";
                      Action.Commands := [];
                      Action.Entrypoint := "ssh-server";
                      Action.Flags := ["RUN_IN_BACKGROUND"];
                      Action.Mounts := [];
                      Action.PortMappings := {[ "22" := 22 ]};
                      Action.Timeout := EmptyString;
                      Action.PidNamespace := EmptyString |} ]
            else []) ++
           (concat per ++
            concat
              ((λ entry,
                  [ {| Action.ImageUri :=
                         "gcr.io/cloud-genomics-pipelines/gcsfuse";
                       Action.Commands :=
                         ["--implicit-dirs"; "--foreground";
                          entry.1; entry.2];
                       Action.Entrypoint := EmptyString;
                       Action.Flags := ["ENABLE_FUSE"; "RUN_IN_BACKGROUND"];
                       Action.Mounts :=
                         [{| Mount.Disk := "google";
                             Mount.Path := "/mnt/google" |}];
                       Action.PortMappings := ∅;
                       Action.Timeout := EmptyString;
                       Action.PidNamespace := EmptyString |};
                    {| Action.ImageUri :=
                         "gcr.io/cloud-genomics-pipelines/gcsfuse";
                       Action.Commands := ["wait"; entry.2];
                       Action.Entrypoint := EmptyString;
                       Action.Flags := [];
                       Action.Mounts :=
                         [{| Mount.Disk := "google";
                             Mount.Path := "/mnt/google" |}];
                       Action.PortMappings := ∅;
                       Action.Timeout := EmptyString;
                       Action.PidNamespace := EmptyString |} ])
                 <$> mounts)) ++
           (if decide (outputInterval flags ≠ 0 ∧ output flags ≠ EmptyString)
            then [ {| Action.ImageUri := cloudSDKImage flags;
                      Action.Commands :=
                        ["-c";
                         "while true; do sleep " +:+
                         fmt_Seconds world (outputInterval flags) +:+
                         "; gsutil -q cp /google/logs/output " +:+
                         output flags +:+ "; done"];
                      Action.Entrypoint := "bash";
                      Action.Flags := ["RUN_IN_BACKGROUND"];
                      Action.Mounts :=
                        [{| Mount.Disk := "google";
                            Mount.Path := "/mnt/google" |}];
                      Action.PortMappings := ∅;
                      Action.Timeout := EmptyString;
                      Action.PidNamespace := EmptyString |} ]
            else []) ++
           user ++
           (((λ entry, gcsTransfer flags entry.1
                         (target (googlePath "output") entry.1) entry.1)
               <$> outs) ++
            (if decide (output flags ≠ EmptyString)
             then [ {| Action.ImageUri := cloudSDKImage flags;
                       Action.Commands :=
                         ["-c";
                          "gsutil -q cp /google/logs/output " +:+
                          output flags];
                       Action.Entrypoint := "bash";
                       Action.Flags := ["ALWAYS_RUN"];
                       Action.Mounts :=
                         [{| Mount.Disk := "google";
                             Mount.Path := "/mnt/google" |}];
                       Action.PortMappings := ∅;
                       Action.Timeout := EmptyString;
                       Action.PidNamespace := EmptyString |} ]
             else []))).
Proof.
  intros Hadm Hraw Hreq.
  pose proof Hadm as (Hin & _ & Hfuse & Hout & _).
  destruct (buildRequest_assembled flags world orders _ _ _ Hraw Hreq)
    as (st & mk & user & where_ & Hst & Hmk & Hu & _ & Hp).
  destruct (plan_buckets_directories flags world orders st Hst)
    as (st1 & more1 & more2 & Hloop & Hb & Hl & Hd).
  apply (forEach_localizeInput flags world) in Hloop
    as (per & Hper & Hloc & _).
  destruct (plan_spelled_out flags world orders st Hst)
    as (_ & _ & _ & _ & Hdeloc & _).
  exists st, (rangeInputs orders (namedListOf (inputs flags) "INPUT")), per,
         (rangeFuse orders (planBuckets st)),
         (rangeOutputs orders (namedListOf (outputs flags) "OUTPUT")), user.
  split; [done|]. split; [apply Hin|]. split.
  { eapply Forall2_impl; [apply Hper|]. intros entry acts Ha.
    split; [done|]. exact (localizersOf_length _ _ _ _ _ Ha). }
  split; [apply Hfuse|]. split; [apply Hout|].
  split; [by apply userActions_supplied|].
  rewrite Hp. cbn [Pipeline.Actions].
  unfold mkdir in Hmk. rewrite Hd in Hmk. injection Hmk as <-. rewrite <-Hd.
  unfold orderedActions, finishActions.
  rewrite Hl, Hloc, Hdeloc, gcsFuse_if_mounted, <-Hb, gcsFuse_actions by done.
  cbn [planLocalizers app].
  replace (intervalAction flags world) with
    (if decide (outputInterval flags ≠ 0 ∧ output flags ≠ EmptyString)
     then [ {| Action.ImageUri := cloudSDKImage flags;
               Action.Commands :=
                 ["-c";
                  "while true; do sleep " +:+
                  fmt_Seconds world (outputInterval flags) +:+
                  "; gsutil -q cp /google/logs/output " +:+
                  output flags +:+ "; done"];
               Action.Entrypoint := "bash";
               Action.Flags := ["RUN_IN_BACKGROUND"];
               Action.Mounts := [googleRoot];
               Action.PortMappings := ∅;
               Action.Timeout := EmptyString;
               Action.PidNamespace := EmptyString |} ]
     else []) by (unfold intervalAction; by case_decide).
  replace (outputAction flags) with
    (if decide (output flags ≠ EmptyString)
     then [ {| Action.ImageUri := cloudSDKImage flags;
               Action.Commands :=
                 ["-c"; "gsutil -q cp /google/logs/output " +:+ output flags];
               Action.Entrypoint := "bash";
               Action.Flags := ["ALWAYS_RUN"];
               Action.Mounts := [googleRoot];
               Action.PortMappings := ∅;
               Action.Timeout := EmptyString;
               Action.PidNamespace := EmptyString |} ]
     else []) by (unfold outputAction; by case_decide).
  rewrite <-!app_assoc.
  destruct (sharePIDs flags); [done|]. by rewrite list_fmap_id.
Qed.

End ActionSequence.

(** C4, as stated, fails: with [--output] and [--output-interval] the
    request holds an action that is none of the five kinds of the claim,
    the background loop of the tool that copies the combined output, and
    it stands between the localizer and the action of the user.  For the
    flags [loggingFlags] the request has six actions; the directory step,
    a debug step or none, the localizers of the plan, the action of the
    command and the delocalizers of the plan do not make up its list. *)
Lemma copy_loop_before_user_steps :
  ∃ req st userStep,
    buildRequest loggingFlags retriableWorld canonicalOrders EmptyString
                 "project" = inr req ∧
    plan loggingFlags retriableWorld canonicalOrders = inr st ∧
    parse loggingFlags retriableWorld (command loggingFlags)
    = inr (Some userStep) ∧
    Action.Commands <$> planLocalizers st
    = [["-c"; "gsutil -q cp gs://b/x /mnt/google/.google/input/b/x"]] ∧
    Action.Commands userStep = ["-c"; "echo hi"] ∧
    Action.Commands <$> planDelocalizers st
    = [ ["-c"; "gsutil -q cp /mnt/google/.google/output/b/o gs://b/o"];
        ["-c"; "gsutil -q cp /google/logs/output gs://b/log"] ] ∧
    Action.Commands <$> Pipeline.Actions (RunPipelineRequest.Pipeline req)
    = [ ["-c"; "mkdir -p /mnt/google/.google/output/b /mnt/google/.google/tmp"];
        ["-c"; "gsutil -q cp gs://b/x /mnt/google/.google/input/b/x"];
        ["-c"; "while true; do sleep 60; " +:+
               "gsutil -q cp /google/logs/output gs://b/log; done"];
        ["-c"; "echo hi"];
        ["-c"; "gsutil -q cp /mnt/google/.google/output/b/o gs://b/o"];
        ["-c"; "gsutil -q cp /google/logs/output gs://b/log"] ] ∧
    ∀ directoryStep debugStep,
      Pipeline.Actions (RunPipelineRequest.Pipeline req)
      ≠ [directoryStep] ++ debugStep ++ planLocalizers st ++ [userStep] ++
        planDelocalizers st.
Proof.
  eexists _, _, _. split; [vm_compute; reflexivity|].
  split; [vm_compute; reflexivity|]. split; [vm_compute; reflexivity|].
  do 4 (split; [reflexivity|]).
  intros directoryStep debugStep Heq.
  destruct debugStep as [|first [|second rest]].
  - apply (f_equal (λ l, Action.Commands <$> l !! 2%nat)) in Heq.
    vm_compute in Heq. discriminate.
  - apply (f_equal (λ l, Action.Commands <$> l !! 2%nat)) in Heq.
    vm_compute in Heq. discriminate.
  - apply (f_equal length) in Heq. rewrite !length_app in Heq.
    simpl in Heq. lia.
Qed.

(** The request of the flags [loggingFlags]: six actions, of which the
    third is the copy loop of the tool. *)
Lemma buildRequest_action_order_witness :
  ∃ req,
    buildRequest loggingFlags retriableWorld canonicalOrders EmptyString
                 "project" = inr req ∧
    Action.Commands <$> Pipeline.Actions (RunPipelineRequest.Pipeline req)
    = [ ["-c"; "mkdir -p /mnt/google/.google/output/b /mnt/google/.google/tmp"];
        ["-c"; "gsutil -q cp gs://b/x /mnt/google/.google/input/b/x"];
        ["-c"; "while true; do sleep 60; " +:+
               "gsutil -q cp /google/logs/output gs://b/log; done"];
        ["-c"; "echo hi"];
        ["-c"; "gsutil -q cp /mnt/google/.google/output/b/o gs://b/o"];
        ["-c"; "gsutil -q cp /google/logs/output gs://b/log"] ] ∧
    ∃ st ins per mounts outs user,
      plan loggingFlags retriableWorld canonicalOrders = inr st ∧
      ins ≡ₚ map_to_list (namedListOf (inputs loggingFlags) "INPUT") ∧
      Forall2 (λ entry acts,
                 localizersOf loggingFlags retriableWorld (googlePath "input") entry = inr acts ∧
                 (length acts ≤ 1)%nat) ins per ∧
      mounts ≡ₚ map_to_list (planBuckets st) ∧
      outs ≡ₚ map_to_list (namedListOf (outputs loggingFlags) "OUTPUT") ∧
      ((EmptyString ≠ EmptyString ∧ parseFile loggingFlags retriableWorld EmptyString = inr user) ∨
       (EmptyString = EmptyString ∧
        ∃ action, parse loggingFlags retriableWorld (command loggingFlags) = inr (Some action) ∧
                  user = [action])) ∧
      Pipeline.Actions (RunPipelineRequest.Pipeline req)
      = (λ action,
           if sharePIDs loggingFlags
           then {| Action.ImageUri := Action.ImageUri action;
                   Action.Commands := Action.Commands action;
                   Action.Entrypoint := Action.Entrypoint action;
                   Action.Flags := Action.Flags action;
                   Action.Mounts := Action.Mounts action;
                   Action.PortMappings := Action.PortMappings action;
                   Action.Timeout := Action.Timeout action;
                   Action.PidNamespace := "shared" |}
           else action)
        <$> ([ {| Action.ImageUri := cloudSDKImage loggingFlags;
                  Action.Commands :=
                    ["-c";
                     "mkdir -p " +:+
                     strings.Join (mkdirArguments (planDirectories st)) " "];
                  Action.Entrypoint := "bash";
                  Action.Flags := [];
                  Action.Mounts :=
                    [{| Mount.Disk := "google"; Mount.Path := "/mnt/google" |}];
                  Action.PortMappings := ∅;
                  Action.Timeout := EmptyString;
                  Action.PidNamespace := EmptyString |} ] ++
             (if ssh loggingFlags
              then [ {| Action.ImageUri := "gcr.io/cloud-genomics-pipelines/tools";
                        Action.Commands := [];
                        Action.Entrypoint := "ssh-server";
                        Action.Flags := ["RUN_IN_BACKGROUND"];
                        Action.Mounts := [];
                        Action.PortMappings := {[ "22" := 22 ]};
                        Action.Timeout := EmptyString;
                        Action.PidNamespace := EmptyString |} ]
              else []) ++
             (concat per ++
              concat
                ((λ entry,
                    [ {| Action.ImageUri :=
                           "gcr.io/cloud-genomics-pipelines/gcsfuse";
                         Action.Commands :=
                           ["--implicit-dirs"; "--foreground";
                            entry.1; entry.2];
                         Action.Entrypoint := EmptyString;
                         Action.Flags := ["ENABLE_FUSE"; "RUN_IN_BACKGROUND"];
                         Action.Mounts :=
                           [{| Mount.Disk := "google";
                               Mount.Path := "/mnt/google" |}];
                         Action.PortMappings := ∅;
                         Action.Timeout := EmptyString;
                         Action.PidNamespace := EmptyString |};
                      {| Action.ImageUri :=
                           "gcr.io/cloud-genomics-pipelines/gcsfuse";
                         Action.Commands := ["wait"; entry.2];
                         Action.Entrypoint := EmptyString;
                         Action.Flags := [];
                         Action.Mounts :=
                           [{| Mount.Disk := "google";
                               Mount.Path := "/mnt/google" |}];
                         Action.PortMappings := ∅;
                         Action.Timeout := EmptyString;
                         Action.PidNamespace := EmptyString |} ])
                   <$> mounts)) ++
             (if decide (outputInterval loggingFlags ≠ 0 ∧ output loggingFlags ≠ EmptyString)
              then [ {| Action.ImageUri := cloudSDKImage loggingFlags;
                        Action.Commands :=
                          ["-c";
                           "while true; do sleep " +:+
                           fmt_Seconds retriableWorld (outputInterval loggingFlags) +:+
                           "; gsutil -q cp /google/logs/output " +:+
                           output loggingFlags +:+ "; done"];
                        Action.Entrypoint := "bash";
                        Action.Flags := ["RUN_IN_BACKGROUND"];
                        Action.Mounts :=
                          [{| Mount.Disk := "google";
                              Mount.Path := "/mnt/google" |}];
                        Action.PortMappings := ∅;
                        Action.Timeout := EmptyString;
                        Action.PidNamespace := EmptyString |} ]
              else []) ++
             user ++
             (((λ entry, gcsTransfer loggingFlags entry.1
                           (target (googlePath "output") entry.1) entry.1)
                 <$> outs) ++
              (if decide (output loggingFlags ≠ EmptyString)
               then [ {| Action.ImageUri := cloudSDKImage loggingFlags;
                         Action.Commands :=
                           ["-c";
                            "gsutil -q cp /google/logs/output " +:+
                            output loggingFlags];
                         Action.Entrypoint := "bash";
                         Action.Flags := ["ALWAYS_RUN"];
                         Action.Mounts :=
                           [{| Mount.Disk := "google";
                               Mount.Path := "/mnt/google" |}];
                         Action.PortMappings := ∅;
                         Action.Timeout := EmptyString;
                         Action.PidNamespace := EmptyString |} ]
               else []))).
Proof.
  eexists. split; [vm_compute; reflexivity|]. split; [reflexivity|].
  apply (buildRequest_action_order loggingFlags retriableWorld canonicalOrders
           EmptyString "project").
  - repeat split; intros m; reflexivity.
  - by left.
  - reflexivity.
Defined.

(** ** The request assembler: where the machine runs *)

Section RequestLocations.
Context (flags : Flags) (world : World) (orders : MapOrders).


End RequestLocations.


Section AssembledSubmissions.
Context (flags : Flags) (world : World) (orders : MapOrders).

(** X7: a request that [buildRequest] has assembled itself, so that its
    pipeline, its resources and its machine are set, is submitted at
    least once and at most as many times as the budget allows; the
    attempt [a] submits the request with the machine preemptible exactly
    when [a] is within the preemptible budget, and with nothing else
    changed. *)
Theorem runPipeline_submissions (filename project : string)
    (req : RunPipelineRequest.t) :
  filename = EmptyString ∨ decodeRequest world filename = None →
  buildRequest flags world orders filename project = inr req →
  ∃ k,
    1 ≤ k ≤ Z.max 1 (budget flags world) ∧
    (runPipeline flags world req).1
    = (λ a, setPreemptible req (bool_decide (a ≤ pvmAttempts flags)))
        <$> seqZ 1 k.
Proof.
  intros _ _. unfold runPipeline.
  destruct (runPipeline_from_run flags world req 1 [])
    as (k & Hk & Hsent & _); [lia|].
  exists k. split; [lia|]. exact Hsent.
Qed.

(** X11: without [--wait] a request that [buildRequest] has assembled
    itself is submitted once and not retried; the run succeeds exactly
    when the submission is accepted. *)
Theorem runPipeline_no_wait (filename project : string)
    (req : RunPipelineRequest.t) :
  filename = EmptyString ∨ decodeRequest world filename = None →
  buildRequest flags world orders filename project = inr req →
  wait flags = false →
  (runPipeline flags world req).1 = [submission flags req 1] ∧
  ((runPipeline flags world req).2 = None ↔
   ∃ lro, pipelinesRun world 1 (submission flags req 1) = inr lro).
Proof.
  intros _ _ Hwait.
  destruct (attemptOnce flags world req 1) as [req' turn] eqn:Ha.
  assert (∃ result, turn = Return result ∧
            (result = None ↔
             ∃ lro, pipelinesRun world 1 (submission flags req 1) = inr lro))
    as (result & -> & Hres).
  { revert Ha. unfold attemptOnce. fold (submission flags req 1).
    destruct (pipelinesRun _ _ _) as [[m b t|m]|lro].
    - case_decide; intros [= _ <-]; eexists; (split; [done|]);
        (split; [done|by intros [? ?]]).
    - intros [= _ <-]. eexists. split; [done|]. split; [done|by intros [? ?]].
    - rewrite Hwait. simpl. intros [= _ <-]. eexists. split; [done|].
      split; [by eexists|done]. }
  rewrite (runPipeline_first_return flags world req 1 result);
    [done|lia|intros; lia|].
  by rewrite Ha.
Qed.

(** X12: when no raw request is given, [Invoke] submits no request
    exactly when it is given more than one file name, when the request
    cannot be built, under [--dry-run], or when both attempt budgets are
    zero. *)
Theorem Invoke_submits_nothing (project : string) (filenames : list string) :
  default EmptyString (head filenames) = EmptyString ∨
  decodeRequest world (default EmptyString (head filenames)) = None →
  (Invoke flags world orders project filenames).1 = [] ↔
  (2 ≤ length filenames)%nat ∨
  (∃ e, buildRequest flags world orders
          (default EmptyString (head filenames)) project = inl e) ∨
  dryRun flags = true ∨
  (attempts flags = 0 ∧ pvmAttempts flags = 0).
Proof.
  intros _. unfold Invoke.
  assert (∀ filename,
            (match buildRequest flags world orders filename project with
             | inl e => ([], Some (ErrBuildingRequest e))
             | inr req =>
                 if dryRun flags ||
                    bool_decide (attempts flags = 0 ∧ pvmAttempts flags = 0)
                 then ([], None)
                 else runPipeline flags world req
             end).1 = [] ↔
            (∃ e, buildRequest flags world orders filename project = inl e) ∨
            dryRun flags = true ∨
            (attempts flags = 0 ∧ pvmAttempts flags = 0)) as Hone.
  { intros filename.
    destruct (buildRequest flags world orders filename project) as [e|req].
    { split; [intros _; left; by exists e|done]. }
    destruct (dryRun flags); simpl.
    { split; [by right; left|done]. }
    case_bool_decide as Hzero.
    { split; [by right; right|done]. }
    split; [by intros ?%runPipeline_submits|].
    intros [[e ?]|[?|?]]; done. }
  destruct filenames as [|f1 [|f2 rest]]; simpl.
  - rewrite Hone. split; [by right|]. intros [?|?]; [lia|done].
  - rewrite Hone. split; [by right|]. intros [?|?]; [lia|done].
  - split; [intros _; left; lia|done].
Qed.

End AssembledSubmissions.

Lemma runPipeline_submissions_witness :
  ∃ req,
    buildRequest (commandFlags 2 1) retriableWorld canonicalOrders
                 EmptyString "project" = inr req ∧
    isPreemptible <$> (runPipeline (commandFlags 2 1) retriableWorld req).1
    = [true; true; false] ∧
    ∃ k,
      1 ≤ k ≤ Z.max 1 (budget (commandFlags 2 1) retriableWorld) ∧
      (runPipeline (commandFlags 2 1) retriableWorld req).1
      = (λ a, setPreemptible req
                (bool_decide (a ≤ pvmAttempts (commandFlags 2 1))))
          <$> seqZ 1 k.
Proof.
  eexists. split; [vm_compute; reflexivity|]. split; [reflexivity|].
  apply (runPipeline_submissions (commandFlags 2 1) retriableWorld
           canonicalOrders EmptyString "project").
  - by left.
  - reflexivity.
Defined.

Lemma runPipeline_no_wait_witness :
  ∃ req,
    buildRequest (withoutWait (commandFlags 3 1)) retriableWorld
                 canonicalOrders EmptyString "project" = inr req ∧
    (runPipeline (withoutWait (commandFlags 3 1)) retriableWorld req).1
    = [submission (withoutWait (commandFlags 3 1)) req 1] ∧
    ((runPipeline (withoutWait (commandFlags 3 1)) retriableWorld req).2
     = None ↔
     ∃ lro, pipelinesRun retriableWorld 1
              (submission (withoutWait (commandFlags 3 1)) req 1)
            = inr lro).
Proof.
  eexists. split; [vm_compute; reflexivity|].
  apply (runPipeline_no_wait (withoutWait (commandFlags 3 1)) retriableWorld
           canonicalOrders EmptyString "project").
  - by left.
  - reflexivity.
  - reflexivity.
Defined.

Lemma Invoke_submits_nothing_witness :
  length (Invoke (commandFlags 2 1) retriableWorld canonicalOrders
            "project" []).1 = 3%nat ∧
  ((Invoke (commandFlags 2 1) retriableWorld canonicalOrders
      "project" []).1 = [] ↔
   (2 ≤ length ([] : list string))%nat ∨
   (∃ e, buildRequest (commandFlags 2 1) retriableWorld canonicalOrders
           (default EmptyString (head [])) "project" = inl e) ∨
   dryRun (commandFlags 2 1) = true ∨
   (attempts (commandFlags 2 1) = 0 ∧ pvmAttempts (commandFlags 2 1) = 0)).
Proof.
  split; [reflexivity|].
  apply (Invoke_submits_nothing (commandFlags 2 1) retriableWorld
           canonicalOrders "project" []).
  by left.
Defined.
